(** * The solar-system example of raylib (examples/models/models_solar_system.c)

    A shallow embedding of the body tree of the example: [CreateBody],
    [AddBodyChildren], the recursive traversals [DrawBody] and
    [DrawBodyLabel], and the frame loop of [main].

    - C [float] is IEEE-754 binary32, modelled by [spec_float] with the
      operations of the Standard Library's [SpecFloat] at precision 24 and
      maximal exponent 128; expressions are evaluated in their own type.
    - [Body *] is an address into a finite map of bodies, so that the
      aliasing of [main] (a body attached to its parent before its own
      children are attached) is kept.
    - The graphics library is outside the file.  Its drawing calls are
      recorded in a trace, its matrix stack is kept symbolically, and the
      three calls whose result the example reads back are the fields of the
      class [Raylib]. *)

From Stdlib Require Import ZArith Lia List Bool.
From Stdlib Require Import Floats.SpecFloat.
From stdpp Require Import gmap strings list.

Local Open Scope Z_scope.

(** ** Binary32 and binary64 arithmetic *)

Module F32.
Definition prec : Z := 24.
Definition emax : Z := 128.

Definition zero : spec_float := S754_zero false.
Definition add : spec_float -> spec_float -> spec_float := SFadd prec emax.
Definition sub : spec_float -> spec_float -> spec_float := SFsub prec emax.
Definition mul : spec_float -> spec_float -> spec_float := SFmul prec emax.
Definition div : spec_float -> spec_float -> spec_float := SFdiv prec emax.
Definition neg : spec_float -> spec_float := SFopp.
Definition leb : spec_float -> spec_float -> bool := SFleb.
Definition ltb : spec_float -> spec_float -> bool := SFltb.

(** Conversion of an [int] to [float] (round to nearest even). *)
Definition of_int (z : Z) : spec_float := binary_normalize prec emax z 0 false.

(** Conversion of a [float] to [int]: truncation toward zero.  Outside
    the range of [int] (and for NaN) the C standard leaves the result
    undefined; the value given here is the one of x86-64's cvttss2si. *)
Definition to_int (x : spec_float) : Z :=
  let r :=
    match x with
    | S754_zero _ => Some 0
    | S754_finite s m e =>
        Some (cond_Zopp s (if 0 <=? e then Z.shiftl (Zpos m) e
                           else Z.shiftr (Zpos m) (- e)))
    | _ => None
    end in
  match r with
  | Some z => if (- 2 ^ 31 <=? z) && (z <? 2 ^ 31) then z else - 2 ^ 31
  | None => - 2 ^ 31
  end.

Definition is_zero (x : spec_float) : bool :=
  match x with S754_zero _ => true | _ => false end.

End F32.

Module F64.
Definition prec : Z := 53.
Definition emax : Z := 1024.

Definition sub : spec_float -> spec_float -> spec_float := SFsub prec emax.
Definition add : spec_float -> spec_float -> spec_float := SFadd prec emax.
Definition of_int (z : Z) : spec_float := binary_normalize prec emax z 0 false.

(** The [double] that a decimal literal [num / den] denotes: the quotient
    of two exactly representable integers, correctly rounded. *)
Definition literal (num den : Z) : spec_float :=
  SFdiv prec emax (of_int num) (of_int den).

(** [(double) x] for a [float] [x]: exact. *)
Definition of_float (x : spec_float) : spec_float :=
  match x with
  | S754_finite s m e => binary_round prec emax s m e
  | _ => x
  end.

(** [(float) x] for a [double] [x]: round to nearest even. *)
Definition to_float (x : spec_float) : spec_float :=
  match x with
  | S754_finite s m e => binary_round F32.prec F32.emax s m e
  | _ => x
  end.
End F64.

(** A [double] literal passed or assigned to a [float]. *)
Definition flit (num den : Z) : spec_float := F64.to_float (F64.literal num den).

(** ** Data of the example *)

Record Vector2 := { v2x : spec_float; v2y : spec_float }.
Record Vector3 := { v3x : spec_float; v3y : spec_float; v3z : spec_float }.

Inductive Color := BLACK | WHITE | GRAY | LIME | GREEN.
Inductive CameraType := CAMERA_PERSPECTIVE | CAMERA_ORTHOGRAPHIC.
Inductive LogType := LOG_INFO | LOG_WARNING | LOG_ERROR.

Record Camera := {
  position : Vector3;
  target : Vector3;
  up : Vector3;
  fovy : spec_float;
  type : CameraType
}.

(** Textures and models are handles of the graphics library; they are kept
    as what the example asked for. *)
Inductive Texture2D :=
| NoTexture
| Texture (fileName : string) (mipmaps : bool).

Inductive Model :=
| NoModel
| Mesh (fileName : string) (diffuse : Texture2D).

(** A [Body *]. *)
Definition addr := nat.

Definition MAX_BODY_CHILDREN : Z := 10.

Record Body := {
  label : string;
  radius : spec_float;
  orbitRadius : spec_float;
  orbitPeriod : spec_float;
  rotationPeriod : spec_float;
  texture : Texture2D;
  model : Model;
  orbitPosition : spec_float;
  rotationPosition : spec_float;
  labelPosition : Vector2;
  children : list (option addr);     (* the array; [None] is a null pointer *)
  childrenCount : Z
}.

Definition set_orbitPosition (x : spec_float) (b : Body) : Body :=
  {| label := label b; radius := radius b; orbitRadius := orbitRadius b;
     orbitPeriod := orbitPeriod b; rotationPeriod := rotationPeriod b;
     texture := texture b; model := model b; orbitPosition := x;
     rotationPosition := rotationPosition b; labelPosition := labelPosition b;
     children := children b; childrenCount := childrenCount b |}.

Definition set_labelPosition (v : Vector2) (b : Body) : Body :=
  {| label := label b; radius := radius b; orbitRadius := orbitRadius b;
     orbitPeriod := orbitPeriod b; rotationPeriod := rotationPeriod b;
     texture := texture b; model := model b; orbitPosition := orbitPosition b;
     rotationPosition := rotationPosition b; labelPosition := v;
     children := children b; childrenCount := childrenCount b |}.

Definition set_children (l : list (option addr)) (n : Z) (b : Body) : Body :=
  {| label := label b; radius := radius b; orbitRadius := orbitRadius b;
     orbitPeriod := orbitPeriod b; rotationPeriod := rotationPeriod b;
     texture := texture b; model := model b; orbitPosition := orbitPosition b;
     rotationPosition := rotationPosition b; labelPosition := labelPosition b;
     children := l; childrenCount := n |}.

(** ** The graphics library, as far as the example drives it *)

(** What composes onto the active matrix. *)
Inductive MatrixOp :=
| Rotatef (angle x y z : spec_float)
| Translatef (x y z : spec_float).

(** The active matrix, as the operations composed onto the one that
    [BeginMode3D] loaded, oldest first. *)
Definition Matrix := list MatrixOp.

Inductive Text :=
| Plain (s : string)
| FormatFloat (format : string) (x : spec_float).

(** The two traversals, for the record of their calls. *)
Inductive Traversal := InDrawBody | InDrawBodyLabel.

Inductive Event :=
| E_Enter (f : Traversal) (body : addr)
    (* not a library call: a call of a traversal on [body], recorded on entry *)
| E_TraceLog (logType : LogType) (text : string)
| E_DrawModel (m : Model) (pos : Vector3) (scale : spec_float) (tint : Color)
              (under : Matrix)
| E_DrawCircle3D (center : Vector3) (r : spec_float) (axis : Vector3)
                 (angle : spec_float) (c : Color) (under : Matrix)
| E_DrawText (t : Text) (posX posY fontSize : Z) (c : Color)
| E_DrawFPS (posX posY : Z)
| E_ClearBackground (c : Color)
| E_BeginDrawing
| E_EndDrawing
| E_BeginMode3D (camera : Camera)
| E_EndMode3D.

(** The pointer state that [UpdateCamera] reads in the free camera mode. *)
Record Pointer := { mouse : Vector2; wheel : Z }.

(** One frame's input: the keys [IsKeyPressed] reports, and the pointer. *)
Record Input := {
  KEY_H : bool;
  KEY_L : bool;
  KEY_LEFT : bool;
  KEY_RIGHT : bool;
  pointer : Pointer
}.

(** Modelled from the spec: the library calls whose result the example
    uses ("project a 3D point through a camera into 2D screen space",
    "accept free-look navigation input and update a camera", and the width
    of a text drawn at a font size).  Their code is in the library, not in
    the example. *)
Class Raylib := {
  GetWorldToScreen : Vector3 -> Camera -> Vector2;
  UpdateCamera : Pointer -> Camera -> Camera;
  MeasureText : string -> Z -> Z
}.

(** ** Program state and failures

    A run that C leaves undefined (a null or dangling pointer, an index
    outside the array, a zero divisor) ends in an error, and so does one
    that exhausts its fuel, the bound on the depth of the recursion and on
    the turns of a loop. *)

Record State := {
  heap : gmap addr Body;        (* the bodies, by address *)
  rotationSpeed : spec_float;   (* the global *)
  matrix : Matrix;              (* the active matrix *)
  matrixStack : list Matrix;    (* what rlPushMatrix saved *)
  trace : list Event            (* the calls made so far, oldest first *)
}.

Definition with_heap (h : gmap addr Body) (s : State) : State :=
  {| heap := h; rotationSpeed := rotationSpeed s; matrix := matrix s;
     matrixStack := matrixStack s; trace := trace s |}.

Definition with_rotationSpeed (x : spec_float) (s : State) : State :=
  {| heap := heap s; rotationSpeed := x; matrix := matrix s;
     matrixStack := matrixStack s; trace := trace s |}.

Definition with_matrix (m : Matrix) (st : list Matrix) (s : State) : State :=
  {| heap := heap s; rotationSpeed := rotationSpeed s; matrix := m;
     matrixStack := st; trace := trace s |}.

Definition emit (e : Event) (s : State) : State :=
  {| heap := heap s; rotationSpeed := rotationSpeed s; matrix := matrix s;
     matrixStack := matrixStack s; trace := trace s ++ [e] |}.

(** What C leaves undefined, and the model's own bound on recursion. *)
Inductive error :=
| OutOfFuel
| InvalidPointer       (* a null or dangling [Body *] is dereferenced *)
| IndexOutOfBounds     (* [children[i]] outside the array *)
| DivisionByZero.      (* a zero divisor *)

Inductive result (A : Type) :=
| Ok (a : A)
| Err (e : error).
Arguments Ok {A} a.
Arguments Err {A} e.

Definition bind {A B : Type} (m : result A) (k : A -> result B) : result B :=
  match m with
  | Ok a => k a
  | Err e => Err e
  end.

Notation "'let?' x ':=' m 'in' k" := (bind m (fun x => k))
  (at level 10, x name, m at level 100, k at level 200).

Definition load (p : addr) (s : State) : result Body :=
  match heap s !! p with
  | Some b => Ok b
  | None => Err InvalidPointer
  end.

Definition store (p : addr) (b : Body) (s : State) : State :=
  with_heap (<[p := b]> (heap s)) s.

(** [b->children[i]], dereferenceable. *)
Definition child_at (b : Body) (i : Z) : result addr :=
  if (i <? 0) || (MAX_BODY_CHILDREN <=? i) then Err IndexOutOfBounds
  else match children b !! Z.to_nat i with
       | Some (Some c) => Ok c
       | Some None => Err InvalidPointer
       | None => Err IndexOutOfBounds
       end.

(** [x / y] of two floats.  C leaves the division by zero undefined and
    the example states no check of its own: a zero divisor is a failure of
    the run, not the infinity or NaN an IEEE machine would go on with. *)
Definition fdiv (x y : spec_float) : result spec_float :=
  if F32.is_zero y then Err DivisionByZero else Ok (F32.div x y).

(** Modelled from the spec: the matrix stack of the library ("push/pop a
    matrix stack; compose rotate/translate operations onto the active
    matrix"). *)
Definition rlPushMatrix (s : State) : State :=
  with_matrix (matrix s) (matrix s :: matrixStack s) s.

Definition rlPopMatrix (s : State) : State :=
  match matrixStack s with
  | m :: st => with_matrix m st s
  | [] => s
  end.

Definition rlRotatef (angle x y z : spec_float) (s : State) : State :=
  with_matrix (matrix s ++ [Rotatef angle x y z]) (matrixStack s) s.

Definition rlTranslatef (x y z : spec_float) (s : State) : State :=
  with_matrix (matrix s ++ [Translatef x y z]) (matrixStack s) s.

Definition vec3 (x y z : spec_float) : Vector3 :=
  {| v3x := x; v3y := y; v3z := z |}.

(** Modelled from the spec: the calls into the library that draw or
    report ("draw a textured mesh scaled by a radius at the local origin
    under the current transform", "draw a wireframe circle", "draw text at
    a 2D screen position", and [TraceLog], through which an attach beyond
    the capacity is "reported as a non-fatal error").  Each is the event of
    its call; the 3D calls are recorded with the matrix they are under. *)
Definition TraceLog (logType : LogType) (text : string) (s : State) : State :=
  emit (E_TraceLog logType text) s.

Definition DrawModel (m : Model) (pos : Vector3) (scale : spec_float) (tint : Color)
    (s : State) : State :=
  emit (E_DrawModel m pos scale tint (matrix s)) s.

Definition DrawCircle3D (center : Vector3) (r : spec_float) (axis : Vector3)
    (angle : spec_float) (c : Color) (s : State) : State :=
  emit (E_DrawCircle3D center r axis angle c (matrix s)) s.

Definition DrawText (t : Text) (posX posY fontSize : Z) (c : Color) (s : State) : State :=
  emit (E_DrawText t posX posY fontSize c) s.

Definition DrawFPS (posX posY : Z) (s : State) : State := emit (E_DrawFPS posX posY) s.

Definition ClearBackground (c : Color) (s : State) : State := emit (E_ClearBackground c) s.

Definition BeginDrawing (s : State) : State := emit E_BeginDrawing s.

Definition EndDrawing (s : State) : State := emit E_EndDrawing s.

(** [BeginMode3D] and [EndMode3D] each load a matrix of their own, from
    which [matrix] starts again. *)
Definition BeginMode3D (camera : Camera) (s : State) : State :=
  with_matrix [] (matrixStack s) (emit (E_BeginMode3D camera) s).

Definition EndMode3D (s : State) : State :=
  with_matrix [] (matrixStack s) (emit E_EndMode3D s).

Definition f0 : spec_float := F32.zero.
Definition f1 : spec_float := F32.of_int 1.

(** [for (int i = i0; cond; i++) body], with a bound on the iterations. *)
Fixpoint for_loop (cond : Z -> State -> result bool)
    (body : Z -> State -> result State)
    (n : nat) (i : Z) (s : State) {struct n} : result State :=
  match n with
  | O => Err OutOfFuel
  | S n' =>
      let? c := cond i s in
      if c : bool then
        let? s' := body i s in
        for_loop cond body n' (i + 1) s'
      else Ok s
  end.

(** ** The functions of the example *)

Definition no_children : list (option addr) :=
  replicate (Z.to_nat MAX_BODY_CHILDREN) None.

(** [Body body = { 0 }]. *)
Definition zero_Body : Body :=
  {| label := ""; radius := f0; orbitRadius := f0; orbitPeriod := f0;
     rotationPeriod := f0; texture := NoTexture; model := NoModel;
     orbitPosition := f0; rotationPosition := f0;
     labelPosition := {| v2x := f0; v2y := f0 |};
     children := no_children; childrenCount := 0 |}.

Definition LoadTexture (fileName : string) : Texture2D := Texture fileName false.

Definition GenTextureMipmaps (t : Texture2D) : Texture2D :=
  match t with
  | Texture f _ => Texture f true
  | NoTexture => NoTexture
  end.

Definition LoadModel (fileName : string) : Model := Mesh fileName NoTexture.

(** [model.materials[0].maps[MAP_DIFFUSE].texture = t]. *)
Definition set_diffuse (t : Texture2D) (m : Model) : Model :=
  match m with
  | Mesh f _ => Mesh f t
  | NoModel => NoModel
  end.

Definition CreateBody (radius orbitRadius orbitPeriod : spec_float)
    (label texture_name : string) : Body :=
  let tex :=
    GenTextureMipmaps
      (LoadTexture ("resources/solar_system/" +:+ texture_name +:+ ".png")) in
  {| label := label;
     radius := F32.mul radius (F32.of_int 10);
     orbitRadius := F32.mul orbitRadius (F32.of_int 10);
     orbitPeriod := orbitPeriod;
     rotationPeriod := rotationPeriod zero_Body;
     texture := texture zero_Body;
     model := set_diffuse tex (LoadModel "resources/solar_system/sphere.obj");
     orbitPosition := flit 0 1;
     rotationPosition := rotationPosition zero_Body;
     labelPosition := labelPosition zero_Body;
     children := children zero_Body;
     childrenCount := 0 |}.

(** A negative count, which no function of the example produces, would
    index the array from below. *)
Definition AddBodyChildren (parent children_ : addr) (s : State) : result State :=
  let? p := load parent s in
  if MAX_BODY_CHILDREN <=? childrenCount p
  then Ok (TraceLog LOG_ERROR "ERROR: Body has too many children!" s)
  else if childrenCount p <? 0 then Err IndexOutOfBounds
  else
    Ok (store parent
          (set_children (<[Z.to_nat (childrenCount p) := Some children_]> (children p))
                        (childrenCount p + 1) p) s).

Section Example.
Context `{Raylib}.

(** The statements of [DrawBody] before its loop. *)
Definition DrawBody_self (body : addr) (camera : Camera) (s : State) : result State :=
  let s := emit (E_Enter InDrawBody body) s in
  let? b := load body s in
  let s := DrawModel (model b) (vec3 f0 f0 f0) (radius b) WHITE s in
  let? b := load body s in
  Ok (store body
        (set_labelPosition
           (GetWorldToScreen (vec3 (orbitRadius b) (radius b) (flit 0 1)) camera) b) s).

(** The test [i < body->childrenCount]. *)
Definition more_children (body : addr) (i : Z) (s : State) : result bool :=
  let? b := load body s in Ok (i <? childrenCount b).

(** The body of the loop of [DrawBody]; [rec] is the recursive call. *)
Definition DrawBody_child (rec : addr -> Camera -> State -> result State)
    (body : addr) (camera : Camera) (i : Z) (s : State) : result State :=
  let? b := load body s in
  let? child := child_at b i in
  let? c := load child s in
  let? step := fdiv (F32.mul (rotationSpeed s) (F32.of_int 360)) (orbitPeriod c) in
  let s := store child (set_orbitPosition (F32.add (orbitPosition c) step) c) s in
  let s := rlPushMatrix s in
  let? c := load child s in
  let s := rlRotatef (orbitPosition c) (flit 0 1) (flit 1 1) (flit 0 1) s in
  let s := rlTranslatef (orbitRadius c) (flit 0 1) (flit 0 1) s in
  let s := rlRotatef (F32.neg (orbitPosition c)) (flit 0 1) (flit 1 1) (flit 0 1) s in
  let? s := rec child camera s in
  let s := rlPopMatrix s in
  let? c := load child s in
  Ok (DrawCircle3D (vec3 f0 f0 f0) (orbitRadius c) (vec3 f1 f0 f0) (F32.of_int 90) GRAY s).

Fixpoint DrawBody (fuel : nat) (body : addr) (camera : Camera) (s : State)
    {struct fuel} : result State :=
  match fuel with
  | O => Err OutOfFuel
  | S fuel' =>
      let? s := DrawBody_self body camera s in
      for_loop (more_children body)
               (DrawBody_child (DrawBody fuel') body camera) fuel' 0 s
  end.

Definition DrawBodyLabel_self (body : addr) (s : State) : result State :=
  let s := emit (E_Enter InDrawBodyLabel body) s in
  let? b := load body s in
  Ok (DrawText (Plain (label b))
        (F32.to_int (F32.sub (v2x (labelPosition b))
                       (F32.of_int (Z.quot (MeasureText (label b) 20) 2))))
        (F32.to_int (v2y (labelPosition b))) 20 WHITE s).

Definition DrawBodyLabel_child (rec : addr -> State -> result State)
    (body : addr) (i : Z) (s : State) : result State :=
  let? b := load body s in
  let? child := child_at b i in
  rec child s.

Fixpoint DrawBodyLabel (fuel : nat) (body : addr) (s : State)
    {struct fuel} : result State :=
  match fuel with
  | O => Err OutOfFuel
  | S fuel' =>
      let? s := DrawBodyLabel_self body s in
      for_loop (more_children body)
               (DrawBodyLabel_child (DrawBodyLabel fuel') body) fuel' 0 s
  end.

(** ** [main] *)

(** The locals of [main] besides the bodies, with the program state. *)
Record Main := {
  st : State;
  camera : Camera;
  showHelpMenu : bool;
  showBodyLabels : bool
}.

(** The bodies of [main], at the addresses of their declarations. *)
Definition sun : addr := 0%nat.
Definition moon : addr := 1%nat.
Definition mercury : addr := 2%nat.
Definition venus : addr := 3%nat.
Definition earth : addr := 4%nat.
Definition mars : addr := 5%nat.
Definition jupiter : addr := 6%nat.
Definition saturn : addr := 7%nat.
Definition uranus : addr := 8%nat.
Definition neptune : addr := 9%nat.
Definition pluto : addr := 10%nat.

Definition initial_camera : Camera :=
  {| position := vec3 (flit 20 1) (flit 12 1) (flit 20 1);
     target := vec3 (flit 0 1) (flit 0 1) (flit 0 1);
     up := vec3 (flit 0 1) (flit 1 1) (flit 0 1);
     fovy := flit 45 1;
     type := CAMERA_PERSPECTIVE |}.

Definition created_bodies : gmap addr Body :=
  <[pluto   := CreateBody (flit 5 100) (flit 39463 1000) (F32.of_int 89310) "pluto" "2k_eris_fictional"]>
 (<[neptune := CreateBody (flit 5 100) (flit 30056 1000) (F32.of_int 59370) "neptune" "2k_neptune"]>
 (<[uranus  := CreateBody (flit 5 100) (flit 19180 1000) (F32.of_int 30270) "uranus" "2k_uranus"]>
 (<[saturn  := CreateBody (flit 5 100) (flit 9532 1000) (F32.of_int 10620) "saturn" "2k_saturn"]>
 (<[jupiter := CreateBody (flit 5 100) (flit 5200 1000) (F32.of_int 4260) "jupiter" "2k_jupiter"]>
 (<[mars    := CreateBody (flit 5 100) (flit 1523 1000) (F32.of_int 690) "mars" "2k_mars"]>
 (<[earth   := CreateBody (flit 5 100) (flit 1000 1000) (F32.of_int 365) "earth" "2k_earth_daymap"]>
 (<[venus   := CreateBody (flit 5 100) (flit 723 1000) (F32.of_int 210) "venus" "2k_venus_atmosphere"]>
 (<[mercury := CreateBody (flit 5 100) (flit 396 1000) (F32.of_int 90) "mercury" "2k_mercury"]>
 (<[moon    := CreateBody (flit 2 100) (flit 200 1000) (F32.of_int 24) "moon" "2k_moon"]>
 (<[sun     := CreateBody (flit 2 10) (flit 0 10) (F32.of_int 0) "sun" "2k_sun"]>
  ∅)))))))))).

(** [main] up to its loop. *)
Definition main_init : result Main :=
  let s := {| heap := created_bodies; rotationSpeed := flit 2 10;
              matrix := []; matrixStack := []; trace := [] |} in
  let? s := AddBodyChildren sun mercury s in
  let? s := AddBodyChildren sun venus s in
  let? s := AddBodyChildren sun earth s in
  let? s := AddBodyChildren sun mars s in
  let? s := AddBodyChildren earth moon s in
  Ok {| st := s; camera := initial_camera;
        showHelpMenu := false; showBodyLabels := true |}.

(** [rotationSpeed -= 0.1] and [rotationSpeed += 0.1]: computed in
    [double], stored as [float]. *)
Definition slower (x : spec_float) : spec_float :=
  F64.to_float (F64.sub (F64.of_float x) (F64.literal 1 10)).
Definition faster (x : spec_float) : spec_float :=
  F64.to_float (F64.add (F64.of_float x) (F64.literal 1 10)).

(** The speed after the key handling of one frame. *)
Definition speed_after (inp : Input) (x : spec_float) : spec_float :=
  let x := if KEY_LEFT inp then slower x else x in
  if KEY_RIGHT inp then faster x else x.

Definition newline : string := String (Ascii.ascii_of_nat 10) "".

Definition help_text : string :=
  "- [h] Toggle help" +:+ newline +:+ "- [l] Toggle labels" +:+ newline +:+
  "- [left/right arrows] Increase/decrease rotation speed".

(** One turn of the loop of [main], drawing the tree at [root]
    ([&sun] in [main]). *)
Definition frame (root : addr) (fuel : nat) (inp : Input) (m : Main) : result Main :=
  let camera := UpdateCamera (pointer inp) (camera m) in
  let showHelpMenu := if KEY_H inp then negb (showHelpMenu m) else showHelpMenu m in
  let showBodyLabels := if KEY_L inp then negb (showBodyLabels m) else showBodyLabels m in
  let s := with_rotationSpeed (speed_after inp (rotationSpeed (st m))) (st m) in
  let s := BeginDrawing s in
  let s := ClearBackground BLACK s in
  let s := BeginMode3D camera s in
  let? s := DrawBody fuel root camera s in
  let s := EndMode3D s in
  let? s := if showBodyLabels then DrawBodyLabel fuel root s else Ok s in
  let s := DrawText (FormatFloat "FULL SOLAR SYSTEM - SPEED: %2.2f" (rotationSpeed s))
             120 10 20 LIME s in
  let s := if showHelpMenu
           then DrawText (Plain help_text) 10 40 10 GREEN s
           else DrawText (Plain "Press [h] for help") 10 40 10 GREEN s in
  let s := DrawFPS 10 10 s in
  let s := EndDrawing s in
  Ok {| st := s; camera := camera;
        showHelpMenu := showHelpMenu; showBodyLabels := showBodyLabels |}.

(** The loop of [main]: one input per frame until the window closes. *)
Fixpoint main_loop (root : addr) (fuel : nat) (inputs : list Input) (m : Main)
    : result Main :=
  match inputs with
  | [] => Ok m
  | inp :: inputs' =>
      let? m' := frame root fuel inp m in
      main_loop root fuel inputs' m'
  end.

Definition main (fuel : nat) (inputs : list Input) : result Main :=
  let? m := main_init in main_loop sun fuel inputs m.

End Example.

(** ** The tree below a body *)

(** The bodies reachable from an address, unfolded along the child
    pointers. *)
#[warnings="-register-all"]
Inductive tree := Node (p : addr) (kids : list tree).

Definition root (t : tree) : addr :=
  match t with Node p _ => p end.

(** All bodies of the tree, parent first, children in the order of the
    array. *)
Fixpoint nodes (t : tree) : list addr :=
  match t with Node p kids => p :: flat_map nodes kids end.

(** The bodies of the tree that have a parent in it. *)
Definition descendants (t : tree) : list addr :=
  match t with Node _ kids => flat_map nodes kids end.

(** The heap holds [t] at [root t]: each body's count and the first
    entries of its array are the roots of the subtrees. *)
Fixpoint is_tree_at (h : gmap addr Body) (t : tree) : bool :=
  match t with
  | Node p kids =>
      match h !! p with
      | Some b =>
          (Z.of_nat (length kids) <=? MAX_BODY_CHILDREN)
          && (childrenCount b =? Z.of_nat (length kids))
          && bool_decide (take (length kids) (children b) = map (fun k => Some (root k)) kids)
          && forallb (is_tree_at h) kids
      | None => false
      end
  end.

(** The orbit period stored at [q] is not zero. *)
Definition period_ok (h : gmap addr Body) (q : addr) : bool :=
  match h !! q with
  | Some b => negb (F32.is_zero (orbitPeriod b))
  | None => false
  end.

(** The precondition of the traversal: the pointers form a tree (no body
    is reached twice) and every body with a parent has a nonzero orbit
    period. *)
Definition well_formed (h : gmap addr Body) (t : tree) : bool :=
  is_tree_at h t && forallb (period_ok h) (descendants t)
  && bool_decide (NoDup (nodes t)).

(** Fuel that lets a traversal of [t] finish: a call passes what is left
    both to its loop (one unit per test of the condition) and to the
    calls on the children. *)
Fixpoint fuel_for (t : tree) : nat :=
  match t with
  | Node _ kids =>
      S (fold_right (fun k n => Nat.max (fuel_for k) n) (S (length kids)) kids)
  end.

(** The tree [main] builds. *)
Definition solar_system : tree :=
  Node sun [Node mercury []; Node venus []; Node earth [Node moon []]; Node mars []].

(** The calls of the traversal [f] in a trace, in order. *)
Definition visit_of (f : Traversal) (e : Event) : option addr :=
  match e, f with
  | E_Enter InDrawBody p, InDrawBody => Some p
  | E_Enter InDrawBodyLabel p, InDrawBodyLabel => Some p
  | _, _ => None
  end.

Definition visits (f : Traversal) (tr : list Event) : list addr :=
  omap (visit_of f) tr.

(** ** What one traversal does to the bodies *)

(** [rotationSpeed*360/orbitPeriod]. *)
Definition angular_step (speed period : spec_float) : spec_float :=
  F32.div (F32.mul speed (F32.of_int 360)) period.

(** [child->orbitPosition += rotationSpeed*360/child->orbitPeriod]. *)
Definition advance (speed : spec_float) (b : Body) : Body :=
  set_orbitPosition (F32.add (orbitPosition b) (angular_step speed (orbitPeriod b))) b.

(** A body without the two fields a traversal writes. *)
Definition skeleton (b : Body) : Body :=
  set_labelPosition {| v2x := f0; v2y := f0 |} (set_orbitPosition f0 b).

Definition same_skeleton (h h' : gmap addr Body) : Prop :=
  forall q, skeleton <$> h !! q = skeleton <$> h' !! q.

Arguments F32.of_int : simpl never.
Arguments F32.add : simpl never.
Arguments F32.sub : simpl never.
Arguments F32.mul : simpl never.
Arguments F32.div : simpl never.
Arguments F32.to_int : simpl never.
Arguments flit : simpl never.
Arguments f1 : simpl never.
Arguments angular_step : simpl never.

(** ** Notions for the proofs *)

(** What a traversal [f] that visits [vs] and leaves the heap [h'] does to a state. *)
Record drawn (f : Traversal) (vs : list addr) (h' : gmap addr Body)
    (s s' : State) : Prop := {
  drawn_heap : heap s' = h';
  drawn_speed : rotationSpeed s' = rotationSpeed s;
  drawn_matrix : matrix s' = matrix s;
  drawn_stack : matrixStack s' = matrixStack s;
  drawn_visits : visits f (trace s') = visits f (trace s) ++ vs;
  drawn_others : forall g, g <> f -> visits g (trace s') = visits g (trace s)
}.

(** The input with the label key released. *)
Definition without_L (inp : Input) : Input :=
  {| KEY_H := KEY_H inp; KEY_L := false; KEY_LEFT := KEY_LEFT inp;
     KEY_RIGHT := KEY_RIGHT inp; pointer := pointer inp |}.

(** No speed key is pressed in the frame. *)
Definition steady (inp : Input) : bool :=
  negb (KEY_LEFT inp) && negb (KEY_RIGHT inp).

(** The speed in each of the frames of [inputs], from the speed [x]
    before them. *)
Fixpoint speeds_of (inputs : list Input) (x : spec_float) : list spec_float :=
  match inputs with
  | [] => []
  | inp :: inputs' => speed_after inp x :: speeds_of inputs' (speed_after inp x)
  end.

(** An angle after frames at the given speeds, for a body of the given
    period: one step added per frame. *)
Definition angle_after (period : spec_float) (speeds : list spec_float)
    (a : spec_float) : spec_float :=
  fold_left (fun a speed => F32.add a (angular_step speed period)) speeds a.

Section Effects.
Context `{Raylib}.

(** [body->labelPosition = GetWorldToScreen(...)]. *)
Definition anchor (camera : Camera) (b : Body) : Body :=
  set_labelPosition
    (GetWorldToScreen (vec3 (orbitRadius b) (radius b) (flit 0 1)) camera) b.

(** The writes of [DrawBody] on a tree, in program order. *)
Fixpoint draw_heap (camera : Camera) (speed : spec_float) (t : tree)
    (h : gmap addr Body) : gmap addr Body :=
  match t with
  | Node p kids =>
      fold_left
        (fun h k => draw_heap camera speed k (alter (advance speed) (root k) h))
        kids (alter (anchor camera) p h)
  end.

(** What one draw pass over the tree [t] does to the body at [q]: the root
    gets its label anchor; a body with a parent is advanced, then anchored;
    any other body is left as it is. *)
Definition pass_effect (camera : Camera) (speed : spec_float) (t : tree)
    (q : addr) (b : Body) : Body :=
  if decide (q = root t) then anchor camera b
  else if decide (q ∈ descendants t) then anchor camera (advance speed b)
  else b.

(** The recursive call a loop iteration needs, on the subtree [k]. *)
Definition draws_subtree (rec : addr -> Camera -> State -> result State)
    (cam : Camera) (k : tree) : Prop :=
  forall s, is_tree_at (heap s) k = true ->
    forallb (period_ok (heap s)) (descendants k) = true ->
    exists s', rec (root k) cam s = Ok s'
      /\ drawn InDrawBody (nodes k) (draw_heap cam (rotationSpeed s) k (heap s)) s s'.

(** The recursive call an iteration of the label loop needs. *)
Definition labels_subtree (rec : addr -> State -> result State) (k : tree) : Prop :=
  forall s, is_tree_at (heap s) k = true ->
    exists s', rec (root k) s = Ok s' /\ drawn InDrawBodyLabel (nodes k) (heap s) s s'.

(** The bodies after the frames of [inputs], on a tree [t]. *)
Fixpoint heap_after (t : tree) (inputs : list Input) (cam : Camera)
    (speed : spec_float) (h : gmap addr Body) : gmap addr Body :=
  match inputs with
  | [] => h
  | inp :: inputs' =>
      let cam' := UpdateCamera (pointer inp) cam in
      let speed' := speed_after inp speed in
      heap_after t inputs' cam' speed' (draw_heap cam' speed' t h)
  end.

(** What one frame on the tree [t] makes of [m]. *)
Record framed (t : tree) (inp : Input) (m m' : Main) : Prop := {
  framed_camera : camera m' = UpdateCamera (pointer inp) (camera m);
  framed_speed : rotationSpeed (st m') = speed_after inp (rotationSpeed (st m));
  framed_heap :
    heap (st m') = draw_heap (camera m') (rotationSpeed (st m')) t (heap (st m));
  framed_labels :
    showBodyLabels m' = if KEY_L inp then negb (showBodyLabels m) else showBodyLabels m;
  framed_draws :
    visits InDrawBody (trace (st m')) = visits InDrawBody (trace (st m)) ++ nodes t;
  framed_texts :
    visits InDrawBodyLabel (trace (st m'))
    = visits InDrawBodyLabel (trace (st m))
      ++ (if showBodyLabels m' then nodes t else [])
}.

End Effects.

(** A sequence of attach operations, each [(parent, child)]. *)
Fixpoint attach_all (ops : list (addr * addr)) (s : State) : result State :=
  match ops with
  | [] => Ok s
  | (parent, child) :: ops' =>
      let? s' := AddBodyChildren parent child s in
      attach_all ops' s'
  end.

(** Every stored child count is one an array of [MAX_BODY_CHILDREN]
    entries can have. *)
Definition counts_ok (h : gmap addr Body) : Prop :=
  forall p b, h !! p = Some b -> 0 <= childrenCount b <= MAX_BODY_CHILDREN.

(** A period that is a number other than zero. *)
Definition usable_period (x : spec_float) : bool :=
  match x with
  | S754_finite _ _ _ | S754_infinity _ => true
  | _ => false
  end.

(** Any float but the negative zero. *)
Definition not_negative_zero (x : spec_float) : bool :=
  match x with
  | S754_zero true => false
  | _ => true
  end.

(** The bodies of [t] below its root can stand still: their periods are
    usable and no angle is the negative zero. *)
Definition can_rest (h : gmap addr Body) (q : addr) : bool :=
  match h !! q with
  | Some b => usable_period (orbitPeriod b) && not_negative_zero (orbitPosition b)
  | None => false
  end.

(** N additions of the same step, as the frames perform them. *)
Definition accumulate (n : nat) (step a : spec_float) : spec_float :=
  Nat.iter n (fun a => F32.add a step) a.

(** An angle taken modulo 360, as the spec words it: the representative
    in [0, 360) of a finite angle (exact on the non-negative ones). *)
Definition mod360 (x : spec_float) : spec_float :=
  match x with
  | S754_finite s m e =>
      let v := cond_Zopp s (Zpos m) in
      if 0 <=? e then F32.of_int ((v * 2 ^ e) mod 360)
      else binary_normalize F32.prec F32.emax (v mod (360 * 2 ^ (- e))) e false
  | S754_zero _ => F32.zero
  | _ => S754_nan
  end.

(** The mantissa and exponent that [shr_fexp] leaves of [m * 2^e] in the
    format of precision [prec] and maximal exponent [emax]. *)
Definition shifted (prec emax m e : Z) : Z * Z :=
  let E := fexp prec emax (Zdigits2 m + e) in
  if e <? E then (m / 2 ^ (E - e), E) else (m, e).

(** The float that [binary_round_aux] makes of a rounded mantissa. *)
Definition packed (prec emax : Z) (s : bool) (m e : Z) : spec_float :=
  match m with
  | Z0 => S754_zero s
  | Zpos p => if e <=? emax - prec then S754_finite s p e else S754_infinity s
  | Zneg _ => S754_nan
  end.

(** A stored angle that is a number of the format and not minus infinity. *)
Definition angle_ok (x : spec_float) : bool :=
  match x with
  | S754_zero _ => true
  | S754_finite _ m e => bounded F32.prec F32.emax m e
  | S754_infinity s => negb s
  | S754_nan => false
  end.

(** A float that is zero, positive or plus infinity. *)
Definition nonneg (x : spec_float) : bool :=
  match x with
  | S754_zero _ | S754_finite false _ _ | S754_infinity false => true
  | _ => false
  end.

(** A period that is a positive finite number. *)
Definition positive_finite (x : spec_float) : bool :=
  match x with
  | S754_finite false _ _ => true
  | _ => false
  end.

(** ** A library and inputs for the worked examples *)

(** A stand-in for the three library calls: the screen is the x-y plane,
    the camera stays where it is, a glyph is as wide as the font size. *)
Definition flat_screen : Raylib :=
  {| GetWorldToScreen v _ := {| v2x := v3x v; v2y := v3y v |};
     UpdateCamera _ c := c;
     MeasureText s size := size * Z.of_nat (String.length s) |}.

Definition still : Pointer := {| mouse := {| v2x := f0; v2y := f0 |}; wheel := 0 |}.

Definition no_key : Input :=
  {| KEY_H := false; KEY_L := false; KEY_LEFT := false; KEY_RIGHT := false;
     pointer := still |}.

Definition press_LEFT : Input :=
  {| KEY_H := false; KEY_L := false; KEY_LEFT := true; KEY_RIGHT := false;
     pointer := still |}.

Definition press_L : Input :=
  {| KEY_H := false; KEY_L := true; KEY_LEFT := false; KEY_RIGHT := false;
     pointer := still |}.

(** The stored orbital angle of a body after a run, if there is one. *)
Definition angle_of (r : result Main) (p : addr) : option spec_float :=
  match r with
  | Ok m => orbitPosition <$> heap (st m) !! p
  | Err _ => None
  end.

#[global] Instance spec_float_eq_dec : EqDecision spec_float.
Proof. solve_decision. Defined.

(** The state in which the loop of [main] starts. *)
Definition default_main : Main :=
  match main_init with
  | Ok m => m
  | Err _ =>
      {| st := {| heap := ∅; rotationSpeed := f0; matrix := []; matrixStack := [];
                  trace := [] |};
         camera := initial_camera; showHelpMenu := false; showBodyLabels := true |}
  end.

(** Fuel for the scene of [main]. *)
Definition fuel_default : nat := fuel_for solar_system.

(** A sun with eleven attaches, for the capacity of the array. *)
Definition crowded : list (addr * addr) :=
  map (fun c => (sun, c)) [moon; mercury; venus; earth; mars; jupiter; saturn;
                           uranus; neptune; pluto; moon].

Definition created : State :=
  {| heap := created_bodies; rotationSpeed := flit 2 10; matrix := [];
     matrixStack := []; trace := [] |}.

(** The moon as [main] creates it (it has no children of its own). *)
Definition moon_created : Body :=
  CreateBody (flit 2 100) (flit 200 1000) (F32.of_int 24) "moon" "2k_moon".

(** The scene of [main] with the speed set to zero. *)
Definition halted : Main :=
  {| st := with_rotationSpeed (S754_zero false) (st default_main);
     camera := camera default_main;
     showHelpMenu := showHelpMenu default_main;
     showBodyLabels := showBodyLabels default_main |}.

(** The sun with ten children attached. *)
Definition full_sun : State :=
  match attach_all (take 10 crowded) created with
  | Ok s => s
  | Err _ => created
  end.

(** ** What a traversal draws *)

(** The rotation, translation and counter-rotation that [DrawBody] composes
    onto the matrix of the parent before it draws the child [c]. *)
Definition orbit_ops (c : Body) : list MatrixOp :=
  [Rotatef (orbitPosition c) (flit 0 1) (flit 1 1) (flit 0 1);
   Translatef (orbitRadius c) (flit 0 1) (flit 0 1);
   Rotatef (F32.neg (orbitPosition c)) (flit 0 1) (flit 1 1) (flit 0 1)].

Definition orbit_of (h : gmap addr Body) (q : addr) : list MatrixOp :=
  match h !! q with
  | Some c => orbit_ops c
  | None => []
  end.

(** The bodies of a tree in pre-order, each with the matrix composed along
    its path from the root, which is under [mx]: the orbit of every body
    on the path, as the bodies of [h] have it. *)
Fixpoint placed (h : gmap addr Body) (t : tree) (mx : Matrix) : list (addr * Matrix) :=
  match t with
  | Node p kids =>
      (p, mx) :: flat_map (fun k => placed h k (mx ++ orbit_of h (root k))) kids
  end.

(** The bodies of a tree that have a parent, each with the matrix of its
    parent and after the bodies below it. *)
Fixpoint ringed (h : gmap addr Body) (t : tree) (mx : Matrix) : list (addr * Matrix) :=
  match t with
  | Node p kids =>
      flat_map (fun k => ringed h k (mx ++ orbit_of h (root k)) ++ [(root k, mx)]) kids
  end.

(** [DrawModel(body->model, origin, body->radius, WHITE)] under [mx]. *)
Definition model_event (h : gmap addr Body) (p : addr) (mx : Matrix) : list Event :=
  match h !! p with
  | Some b => [E_DrawModel (model b) (vec3 f0 f0 f0) (radius b) WHITE mx]
  | None => []
  end.

(** [DrawCircle3D(origin, child->orbitRadius, (1, 0, 0), 90, GRAY)] under [mx]. *)
Definition ring_event (h : gmap addr Body) (c : addr) (mx : Matrix) : list Event :=
  match h !! c with
  | Some b =>
      [E_DrawCircle3D (vec3 f0 f0 f0) (orbitRadius b) (vec3 f1 f0 f0) (F32.of_int 90) GRAY mx]
  | None => []
  end.

(** The events of a draw pass over [t] under [mx], read off the bodies as
    the pass leaves them. *)
Fixpoint events (h : gmap addr Body) (t : tree) (mx : Matrix) : list Event :=
  match t with
  | Node p kids =>
      E_Enter InDrawBody p :: model_event h p mx
      ++ flat_map (fun k => events h k (mx ++ orbit_of h (root k))
                            ++ ring_event h (root k) mx) kids
  end.

Definition is_DrawModel (e : Event) : bool :=
  match e with E_DrawModel _ _ _ _ _ => true | _ => false end.

Definition is_DrawCircle3D (e : Event) : bool :=
  match e with E_DrawCircle3D _ _ _ _ _ _ => true | _ => false end.

Definition is_DrawText (e : Event) : bool :=
  match e with E_DrawText _ _ _ _ _ => true | _ => false end.

(** The events of the draw pass, and those of the label pass. *)
Definition in_3D (e : Event) : bool :=
  match e with
  | E_Enter InDrawBody _ | E_DrawModel _ _ _ _ _ | E_DrawCircle3D _ _ _ _ _ _ => true
  | _ => false
  end.

Definition in_labels (e : Event) : bool :=
  match e with
  | E_Enter InDrawBodyLabel _ | E_DrawText _ _ _ _ _ => true
  | _ => false
  end.

(** The event [e] is the model of the body at [qm.1], as [h] has it, drawn
    under the matrix [qm.2]. *)
Definition is_model_of (h : gmap addr Body) (e : Event) (qm : addr * Matrix) : Prop :=
  exists b, h !! qm.1 = Some b
    /\ e = E_DrawModel (model b) (vec3 f0 f0 f0) (radius b) WHITE qm.2.

(** The event [e] is the orbit ring of the body at [qm.1], drawn under the
    matrix [qm.2]. *)
Definition is_ring_of (h : gmap addr Body) (e : Event) (qm : addr * Matrix) : Prop :=
  exists c, h !! qm.1 = Some c
    /\ e = E_DrawCircle3D (vec3 f0 f0 f0) (orbitRadius c) (vec3 f1 f0 f0)
             (F32.of_int 90) GRAY qm.2.

(** What a traversal that emits [evs] and leaves the heap [h'] does to a
    state. *)
Record passed (evs : list Event) (h' : gmap addr Body) (s s' : State) : Prop := {
  passed_heap : heap s' = h';
  passed_speed : rotationSpeed s' = rotationSpeed s;
  passed_matrix : matrix s' = matrix s;
  passed_stack : matrixStack s' = matrixStack s;
  passed_trace : trace s' = trace s ++ evs
}.

(** The events of the loop of [DrawBody] over the children [kids], the
    heap moving on as in [draw_heap]. *)
Definition kids_trace (rec : tree -> gmap addr Body -> Matrix -> list Event)
    (dh : tree -> gmap addr Body -> gmap addr Body)
    (speed : spec_float) (mx : Matrix) : list tree -> gmap addr Body -> list Event :=
  fix loop (kids : list tree) (h : gmap addr Body) {struct kids} : list Event :=
    match kids with
    | [] => []
    | k :: kids' =>
        let h1 := alter (advance speed) (root k) h in
        rec k h1 (mx ++ orbit_of h1 (root k))
        ++ ring_event (dh k h1) (root k) mx
        ++ loop kids' (dh k h1)
    end.

(** The two keys that [main] reads for the speed. *)
Definition speed_keys (inp : Input) : bool * bool := (KEY_LEFT inp, KEY_RIGHT inp).

(** The array of a body to which [cs] were attached in turn, from none. *)
Definition attached (cs : list addr) : list (option addr) :=
  (Some <$> take 10 cs) ++ replicate (10 - length cs) None.

(** The body at [a] has itself as its first child, and a period that is
    not zero. *)
Definition own_child (a : addr) (s : State) : Prop :=
  exists b, heap s !! a = Some b
    /\ children b !! 0%nat = Some (Some a)
    /\ 0 < childrenCount b
    /\ F32.is_zero (orbitPeriod b) = false.

#[global] Instance Texture2D_eq_dec : EqDecision Texture2D.
Proof. solve_decision. Defined.

(** A body whose [texture] and [rotationPeriod] are the zeros of
    [Body body = { 0 }], and whose model is the sphere with a mipmapped
    texture. *)
Definition as_created (b : Body) : bool :=
  bool_decide (texture b = NoTexture)
  && bool_decide (rotationPeriod b = S754_zero false)
  && match model b with
     | Mesh f (Texture _ mipmaps) =>
         bool_decide (f = "resources/solar_system/sphere.obj") && mipmaps
     | _ => false
     end.

(** The scene of [main] with the moon attached to the sun as well. *)
Definition shared_moon : State :=
  match attach_all [(sun, earth); (earth, moon); (sun, moon)] created with
  | Ok s => s
  | Err _ => created
  end.

Definition two_paths : tree :=
  Node sun [Node earth [Node moon []]; Node moon []].



Definition press_H : Input :=
  {| KEY_H := true; KEY_L := false; KEY_LEFT := false; KEY_RIGHT := false;
     pointer := still |}.

Definition press_RIGHT : Input :=
  {| KEY_H := false; KEY_L := false; KEY_LEFT := false; KEY_RIGHT := true;
     pointer := still |}.

(** LEFT pressed while the mouse is away from the origin. *)
Definition drag_LEFT : Input :=
  {| KEY_H := true; KEY_L := true; KEY_LEFT := true; KEY_RIGHT := false;
     pointer := {| mouse := {| v2x := f1; v2y := f1 |}; wheel := 1 |} |}.

(** The sun as [main] creates it. *)
Definition sun_created : Body :=
  CreateBody (flit 2 10) (flit 0 10) (F32.of_int 0) "sun" "2k_sun".

(** A second stand-in for the library: the screen is the x-z plane and the
    camera follows the mouse. *)
Definition top_view : Raylib :=
  {| GetWorldToScreen v _ := {| v2x := v3x v; v2y := v3z v |};
     UpdateCamera ptr c :=
       {| position := position c;
          target := vec3 (v2x (mouse ptr)) (v2y (mouse ptr)) f0;
          up := up c; fovy := fovy c; type := type c |};
     MeasureText s size := size |}.

Section Drawing.
Context `{Raylib}.

(** The events of [DrawBody] on a tree, in program order. *)
Fixpoint draw_trace (camera : Camera) (speed : spec_float) (t : tree)
    (h : gmap addr Body) (mx : Matrix) {struct t} : list Event :=
  match t with
  | Node p kids =>
      E_Enter InDrawBody p :: model_event h p mx
      ++ kids_trace (draw_trace camera speed) (draw_heap camera speed) speed mx
           kids (alter (anchor camera) p h)
  end.

(** [DrawText(body->label, body->labelPosition.x - MeasureText(body->label, 20)/2,
    body->labelPosition.y, 20, WHITE)]. *)
Definition label_text (b : Body) : Event :=
  E_DrawText (Plain (label b))
    (F32.to_int (F32.sub (v2x (labelPosition b))
                   (F32.of_int (Z.quot (MeasureText (label b) 20) 2))))
    (F32.to_int (v2y (labelPosition b))) 20 WHITE.

Definition text_event (h : gmap addr Body) (q : addr) : list Event :=
  match h !! q with
  | Some b => [label_text b]
  | None => []
  end.

(** The event [e] is the label of the body at [q], as [h] has it. *)
Definition is_label_of (h : gmap addr Body) (e : Event) (q : addr) : Prop :=
  exists b, h !! q = Some b /\ e = label_text b.

(** The events of [DrawBodyLabel] on a tree. *)
Fixpoint label_trace (h : gmap addr Body) (t : tree) : list Event :=
  match t with
  | Node p kids =>
      E_Enter InDrawBodyLabel p :: text_event h p ++ flat_map (label_trace h) kids
  end.

(** The recursive call a loop iteration needs, with its events. *)
Definition traces_subtree (rec : addr -> Camera -> State -> result State)
    (cam : Camera) (k : tree) : Prop :=
  forall s, is_tree_at (heap s) k = true ->
    forallb (period_ok (heap s)) (descendants k) = true ->
    exists s', rec (root k) cam s = Ok s'
      /\ passed (draw_trace cam (rotationSpeed s) k (heap s) (matrix s))
           (draw_heap cam (rotationSpeed s) k (heap s)) s s'.

Definition writes_subtree (rec : addr -> State -> result State) (k : tree) : Prop :=
  forall s, is_tree_at (heap s) k = true ->
    exists s', rec (root k) s = Ok s' /\ passed (label_trace (heap s) k) (heap s) s s'.


(** What the help line of a frame says. *)
Definition help_line (shown : bool) : Event :=
  E_DrawText (Plain (if shown then help_text else "Press [h] for help")) 10 40 10 GREEN.

End Drawing.

(** * Proofs *)

(** ** Trees and skeletons *)

Lemma tree_induction (P : tree -> Prop) :
  (forall p kids, Forall P kids -> P (Node p kids)) -> forall t, P t.
Proof.
  intros step. fix IH 1. intros [p kids]. apply step.
  induction kids as [|k kids IHk]; constructor; [apply IH | exact IHk].
Qed.

Lemma bind_Ok {A B} (m : result A) (k : A -> result B) b :
  bind m k = Ok b -> exists a, m = Ok a /\ k a = Ok b.
Proof. destruct m; simpl; [eauto | discriminate]. Qed.

Lemma visits_app f tr1 tr2 : visits f (tr1 ++ tr2) = visits f tr1 ++ visits f tr2.
Proof. apply omap_app. Qed.

Lemma visits_emit_other f e tr :
  (forall g p, e <> E_Enter g p) -> visits f (tr ++ [e]) = visits f tr.
Proof.
  intros He. rewrite visits_app. unfold visits at 2. simpl.
  destruct e; try (destruct f; simpl; rewrite ?app_nil_r; reflexivity).
  exfalso. eapply He. reflexivity.
Qed.

Global Instance same_skeleton_equiv : Equivalence same_skeleton.
Proof.
  split.
  - intros h q. reflexivity.
  - intros h h' E q. symmetry. apply E.
  - intros h1 h2 h3 E1 E2 q. rewrite E1. apply E2.
Qed.

Lemma same_skeleton_insert h p b b' :
  h !! p = Some b -> skeleton b' = skeleton b -> same_skeleton h (<[p := b']> h).
Proof.
  intros Hp Hb q. rewrite lookup_insert. case_decide as E.
  - subst q. rewrite Hp. simpl. congruence.
  - reflexivity.
Qed.

Lemma same_skeleton_alter h p (f : Body -> Body) :
  (forall b, skeleton (f b) = skeleton b) -> same_skeleton h (alter f p h).
Proof.
  intros Hf q. rewrite lookup_alter. case_decide as E; [subst q|reflexivity].
  destruct (h !! p); simpl; [|reflexivity]. now rewrite Hf.
Qed.

Lemma same_skeleton_field {A} (f : Body -> A) h h' q :
  (forall b, f (skeleton b) = f b) ->
  same_skeleton h h' -> f <$> h !! q = f <$> h' !! q.
Proof.
  intros Hf E. specialize (E q).
  destruct (h !! q) as [b|], (h' !! q) as [b'|]; try discriminate; [|reflexivity].
  apply (inj Some) in E. change (Some (f b) = Some (f b')).
  rewrite <- (Hf b), <- (Hf b'). now rewrite E.
Qed.

Lemma is_tree_at_skeleton h h' t :
  same_skeleton h h' -> is_tree_at h t = is_tree_at h' t.
Proof.
  intros E. induction t as [p kids IH] using tree_induction. simpl.
  pose proof (same_skeleton_field childrenCount h h' p (fun _ => eq_refl) E) as Hc.
  pose proof (same_skeleton_field children h h' p (fun _ => eq_refl) E) as Hk.
  destruct (h !! p) as [b|], (h' !! p) as [b'|]; simpl in *; try congruence.
  injection Hc as ->. injection Hk as ->. f_equal.
  induction IH as [|k kids Hk _ IHk]; simpl; [reflexivity|]. now rewrite Hk, IHk.
Qed.

Lemma period_ok_skeleton h h' q :
  same_skeleton h h' -> period_ok h q = period_ok h' q.
Proof.
  intros E. unfold period_ok.
  pose proof (same_skeleton_field orbitPeriod h h' q (fun _ => eq_refl) E) as Hc.
  destruct (h !! q) as [b|], (h' !! q) as [b'|]; simpl in *; try congruence.
Qed.

Lemma forallb_agree {A} (f g : A -> bool) (l : list A) :
  (forall x, f x = g x) -> forallb f l = forallb g l.
Proof. intros E. induction l as [|x l IH]; simpl; [reflexivity|]. now rewrite E, IH. Qed.

Lemma well_formed_skeleton h h' t :
  same_skeleton h h' -> well_formed h t = well_formed h' t.
Proof.
  intros E. unfold well_formed. rewrite (is_tree_at_skeleton h h' t E).
  f_equal. f_equal. apply forallb_agree. intros q. now apply period_ok_skeleton.
Qed.

(** ** The traversals on a tree *)

Section Traversal.
Context `{Raylib}.

Lemma insert_as_alter (h : gmap addr Body) p b (f : Body -> Body) :
  h !! p = Some b -> <[p := f b]> h = alter f p h.
Proof.
  intros Hp. apply map_eq. intros q. rewrite lookup_insert, lookup_alter.
  case_decide as E; [subst q; now rewrite Hp | reflexivity].
Qed.

Lemma skeleton_advance S b : skeleton (advance S b) = skeleton b.
Proof. reflexivity. Qed.

Lemma skeleton_anchor cam b : skeleton (anchor cam b) = skeleton b.
Proof. reflexivity. Qed.

Lemma draw_heap_skeleton cam S t : forall h, same_skeleton h (draw_heap cam S t h).
Proof.
  induction t as [p kids IH] using tree_induction. intros h. simpl.
  assert (E : same_skeleton h (alter (anchor cam) p h))
    by (apply same_skeleton_alter, skeleton_anchor).
  revert E. generalize (alter (anchor cam) p h) as h0.
  induction IH as [|k kids Hk _ IHk]; intros h0 E; simpl; [exact E|].
  apply IHk. etransitivity; [exact E|]. etransitivity; [|apply Hk].
  apply same_skeleton_alter, skeleton_advance.
Qed.

Lemma same_skeleton_lookup h h' q b :
  same_skeleton h h' -> h !! q = Some b -> exists b', h' !! q = Some b' /\ skeleton b' = skeleton b.
Proof.
  intros E Hq. specialize (E q). rewrite Hq in E.
  destruct (h' !! q) as [b'|]; [|discriminate]. exists b'. split; [reflexivity|].
  simpl in E. congruence.
Qed.

Lemma is_tree_at_lookup h t :
  is_tree_at h t = true -> exists b, h !! root t = Some b.
Proof. destruct t as [p kids]. simpl. destruct (h !! p); [eauto | discriminate]. Qed.

Lemma lookup_map {A B} (f : A -> B) (l : list A) i :
  map f l !! i = f <$> l !! i.
Proof. revert i. induction l as [|x l IH]; intros [|i]; simpl; auto. Qed.

Lemma is_tree_at_inv h p kids :
  is_tree_at h (Node p kids) = true ->
  exists b, h !! p = Some b
    /\ (length kids <= 10)%nat
    /\ childrenCount b = Z.of_nat (length kids)
    /\ (forall i k, kids !! i = Some k -> children b !! i = Some (Some (root k)))
    /\ Forall (fun k => is_tree_at h k = true) kids.
Proof.
  simpl. destruct (h !! p) as [b|]; [|discriminate]. intros Ht.
  apply andb_prop in Ht as [Ht Hkids]. apply andb_prop in Ht as [Ht Htake].
  apply andb_prop in Ht as [Hlen Hcount].
  apply bool_decide_eq_true in Htake.
  exists b. split; [reflexivity|]. split; [unfold MAX_BODY_CHILDREN in Hlen; lia|].
  split; [lia|]. split.
  - intros i k Hi.
    assert (Hlt : (i < length kids)%nat) by (eapply lookup_lt_Some; eauto).
    rewrite <- (lookup_take_lt (children b) (length kids) i) by exact Hlt.
    rewrite Htake, lookup_map, Hi. reflexivity.
  - apply Forall_forall. intros k Hk. rewrite forallb_forall in Hkids.
    apply Hkids. now apply list_elem_of_In.
Qed.

Lemma load_Some p s b : heap s !! p = Some b -> load p s = Ok b.
Proof. unfold load. now intros ->. Qed.

Lemma child_at_Some b i c :
  (i < 10)%nat -> children b !! i = Some (Some c) -> child_at b (Z.of_nat i) = Ok c.
Proof.
  intros Hi Hc. unfold child_at, MAX_BODY_CHILDREN.
  replace (Z.of_nat i <? 0) with false by (symmetry; apply Z.ltb_ge; lia).
  replace (10 <=? Z.of_nat i) with false by (symmetry; apply Z.leb_gt; lia).
  simpl. now rewrite Nat2Z.id, Hc.
Qed.

Lemma DrawBody_child_ok rec cam p i s b k :
  heap s !! p = Some b ->
  (i < 10)%nat ->
  children b !! i = Some (Some (root k)) ->
  is_tree_at (heap s) k = true ->
  forallb (period_ok (heap s)) (nodes k) = true ->
  draws_subtree rec cam k ->
  exists s', DrawBody_child rec p cam (Z.of_nat i) s = Ok s'
    /\ drawn InDrawBody (nodes k)
         (draw_heap cam (rotationSpeed s) k
            (alter (advance (rotationSpeed s)) (root k) (heap s))) s s'.
Proof.
  intros Hp Hi Hc Ht Hper Hrec.
  destruct (is_tree_at_lookup _ _ Ht) as [c Hk].
  assert (Hz : F32.is_zero (orbitPeriod c) = false).
  { destruct k as [q kids]. simpl in Hper, Hk. apply andb_prop in Hper as [Hq _].
    unfold period_ok in Hq. rewrite Hk in Hq. now apply negb_true_iff in Hq. }
  assert (Hdesc : forallb (period_ok (heap s)) (descendants k) = true).
  { destruct k as [q kids]. simpl in Hper |- *. now apply andb_prop in Hper as [_ ?]. }
  unfold DrawBody_child.
  rewrite (load_Some _ _ _ Hp). simpl.
  rewrite (child_at_Some _ _ _ Hi Hc). simpl.
  rewrite (load_Some _ _ _ Hk). simpl.
  unfold fdiv. rewrite Hz. simpl.
  set (c' := set_orbitPosition _ c).
  assert (Eh : <[root k := c']> (heap s) = alter (advance (rotationSpeed s)) (root k) (heap s)).
  { apply (insert_as_alter _ _ _ (advance (rotationSpeed s)) Hk). }
  unfold load at 1. simpl. rewrite lookup_insert_eq. simpl.
  match goal with |- context [rec (root k) cam ?x] => set (s2 := x) end.
  assert (E2 : same_skeleton (heap s) (heap s2)).
  { simpl. now apply same_skeleton_insert with (b := c). }
  destruct (Hrec s2) as (s3 & Hs3 & D3).
  { now rewrite <- (is_tree_at_skeleton _ _ k E2). }
  { rewrite <- Hdesc. apply forallb_agree. intros q. symmetry. now apply period_ok_skeleton. }
  rewrite Hs3. simpl.
  destruct D3 as [D3h D3s D3m D3k D3v D3o]. simpl in D3h, D3s, D3m, D3k, D3v.
  assert (E3 : same_skeleton (heap s2) (heap s3)).
  { rewrite D3h. apply draw_heap_skeleton. }
  destruct (same_skeleton_lookup _ _ _ _ (transitivity E2 E3) Hk) as (c3 & Hc3 & _).
  unfold rlPopMatrix. rewrite D3k. simpl.
  unfold load. simpl. rewrite Hc3. simpl.
  eexists. split; [reflexivity|].
  split; simpl.
  - rewrite D3h. now rewrite Eh.
  - exact D3s.
  - reflexivity.
  - reflexivity.
  - rewrite visits_emit_other by discriminate. exact D3v.
  - intros g Hg. rewrite visits_emit_other by discriminate. now apply D3o.
Qed.

Lemma more_children_Some p i s b :
  heap s !! p = Some b -> more_children p i s = Ok (i <? childrenCount b).
Proof. intros Hp. unfold more_children. now rewrite (load_Some _ _ _ Hp). Qed.

Lemma drawn_refl f s : drawn f [] (heap s) s s.
Proof. split; auto using app_nil_r. Qed.

Lemma drawn_trans f vs1 vs2 h1 h2 s1 s2 s3 :
  drawn f vs1 h1 s1 s2 -> drawn f vs2 h2 s2 s3 -> drawn f (vs1 ++ vs2) h2 s1 s3.
Proof.
  intros [a1 a2 a3 a4 a5 a6] [b1 b2 b3 b4 b5 b6]. split; try congruence.
  - now rewrite b5, a5, app_assoc.
  - intros g Hg. now rewrite b6, a6.
Qed.

Lemma DrawBody_loop_ok rec cam p :
  forall rest done s n,
    is_tree_at (heap s) (Node p (done ++ rest)) = true ->
    forallb (period_ok (heap s)) (flat_map nodes rest) = true ->
    Forall (draws_subtree rec cam) rest ->
    (length rest < n)%nat ->
    exists s',
      for_loop (more_children p) (DrawBody_child rec p cam) n
               (Z.of_nat (length done)) s = Ok s'
      /\ drawn InDrawBody (flat_map nodes rest)
           (fold_left
              (fun h k => draw_heap cam (rotationSpeed s) k
                            (alter (advance (rotationSpeed s)) (root k) h))
              rest (heap s)) s s'.
Proof.
  induction rest as [|k rest IH]; intros done s n Ht Hper Hrec Hn.
  - destruct n as [|n]; [simpl in Hn; lia|].
    destruct (is_tree_at_inv _ _ _ Ht) as (b & Hp & _ & Hcount & _).
    simpl. rewrite (more_children_Some _ _ _ _ Hp). simpl.
    rewrite app_nil_r in Hcount. rewrite Hcount, Z.ltb_irrefl.
    eexists. split; [reflexivity|]. apply drawn_refl.
  - destruct n as [|n]; [simpl in Hn; lia|].
    destruct (is_tree_at_inv _ _ _ Ht) as (b & Hp & Hlen & Hcount & Hkids & Hsub).
    rewrite length_app in Hlen, Hcount. simpl in Hlen, Hcount.
    simpl. rewrite (more_children_Some _ _ _ _ Hp). simpl.
    replace (Z.of_nat (length done) <? childrenCount b) with true
      by (symmetry; apply Z.ltb_lt; lia).
    simpl in Hper. rewrite forallb_app in Hper. apply andb_prop in Hper as [Hperk Hperr].
    inversion Hrec as [|? ? Hreck Hrecr]; subst.
    destruct (DrawBody_child_ok rec cam p (length done) s b k) as (s1 & Hs1 & D1); auto.
    { lia. }
    { apply Hkids. rewrite lookup_app_r by lia. now rewrite Nat.sub_diag. }
    { rewrite Forall_app in Hsub. destruct Hsub as [_ Hsub]. now inversion Hsub. }
    rewrite Hs1. simpl.
    assert (E1 : same_skeleton (heap s) (heap s1)).
    { rewrite (drawn_heap _ _ _ _ _ D1). etransitivity; [|apply draw_heap_skeleton].
      apply same_skeleton_alter, skeleton_advance. }
    destruct (IH (done ++ [k]) s1 n) as (s2 & Hs2 & D2).
    { rewrite <- app_assoc, <- (is_tree_at_skeleton _ _ _ E1). exact Ht. }
    { rewrite <- Hperr. apply forallb_agree. intros q. symmetry. now apply period_ok_skeleton. }
    { exact Hrecr. }
    { simpl in Hn. lia. }
    rewrite length_app in Hs2. simpl in Hs2.
    replace (Z.of_nat (length done) + 1) with (Z.of_nat (length done + 1)) by lia.
    rewrite Hs2. eexists. split; [reflexivity|].
    rewrite (drawn_speed _ _ _ _ _ D1), (drawn_heap _ _ _ _ _ D1) in D2.
    exact (drawn_trans _ _ _ _ _ _ _ _ D1 D2).
Qed.

Lemma fold_max_bound (base fuel : nat) (kids : list tree) :
  (fold_right (fun k n => Nat.max (fuel_for k) n) base kids <= fuel)%nat ->
  (base <= fuel)%nat /\ Forall (fun k => (fuel_for k <= fuel)%nat) kids.
Proof.
  induction kids as [|k kids IH]; cbn [fold_right]; intros Hf; [split; [lia | constructor]|].
  destruct IH as [IH1 IH2]; [lia|]. split; [lia|]. constructor; [lia | exact IH2].
Qed.

Lemma fuel_for_kids p kids fuel :
  (fuel_for (Node p kids) <= S fuel)%nat ->
  (length kids < fuel)%nat /\ Forall (fun k => (fuel_for k <= fuel)%nat) kids.
Proof.
  cbn [fuel_for]. intros Hf. apply le_S_n in Hf.
  destruct (fold_max_bound _ _ _ Hf) as [Hb Hk]. split; [lia | exact Hk].
Qed.

Lemma DrawBody_self_ok p cam s b :
  heap s !! p = Some b ->
  exists s', DrawBody_self p cam s = Ok s'
    /\ drawn InDrawBody [p] (alter (anchor cam) p (heap s)) s s'.
Proof.
  intros Hp. unfold DrawBody_self, load. simpl. rewrite Hp. simpl.
  eexists. split; [reflexivity|]. split; simpl; try reflexivity.
  - apply (insert_as_alter _ _ _ (anchor cam) Hp).
  - rewrite !visits_app. simpl. now rewrite app_nil_r.
  - intros g Hg. rewrite !visits_app. destruct g; [congruence|]. simpl.
    now rewrite !app_nil_r.
Qed.

Lemma DrawBody_S fuel p cam s :
  DrawBody (S fuel) p cam s =
  bind (DrawBody_self p cam s)
       (for_loop (more_children p) (DrawBody_child (DrawBody fuel) p cam) fuel 0).
Proof. reflexivity. Qed.

Lemma DrawBody_ok cam t :
  forall fuel s,
    is_tree_at (heap s) t = true ->
    forallb (period_ok (heap s)) (descendants t) = true ->
    (fuel_for t <= fuel)%nat ->
    exists s', DrawBody fuel (root t) cam s = Ok s'
      /\ drawn InDrawBody (nodes t) (draw_heap cam (rotationSpeed s) t (heap s)) s s'.
Proof.
  induction t as [p kids IH] using tree_induction. intros fuel s Ht Hper Hfuel.
  destruct fuel as [|fuel]; [simpl in Hfuel; lia|].
  destruct (fuel_for_kids _ _ _ Hfuel) as [Hlen Hkf].
  destruct (is_tree_at_lookup _ _ Ht) as [b Hp]. simpl in Hp.
  destruct (DrawBody_self_ok p cam s b Hp) as (s1 & Hs1 & D1).
  cbn [root]. rewrite DrawBody_S, Hs1. cbn [bind].
  assert (E1 : same_skeleton (heap s) (heap s1)).
  { rewrite (drawn_heap _ _ _ _ _ D1). apply same_skeleton_alter, skeleton_anchor. }
  destruct (DrawBody_loop_ok (DrawBody fuel) cam p kids [] s1 fuel) as (s2 & Hs2 & D2).
  - rewrite <- (is_tree_at_skeleton _ _ _ E1). exact Ht.
  - simpl in Hper. rewrite <- Hper. apply forallb_agree. intros q. symmetry.
    now apply period_ok_skeleton.
  - rewrite Forall_forall in IH, Hkf |- *. intros k Hk s' Hts Hps.
    apply IH; auto.
  - exact Hlen.
  - change (Z.of_nat (length [])) with 0 in Hs2. rewrite Hs2. eexists. split; [reflexivity|].
    rewrite (drawn_speed _ _ _ _ _ D1), (drawn_heap _ _ _ _ _ D1) in D2.
    exact (drawn_trans _ _ _ _ _ _ _ _ D1 D2).
Qed.

(** *** The label pass on a tree *)

Lemma DrawBodyLabel_S fuel p s :
  DrawBodyLabel (S fuel) p s =
  bind (DrawBodyLabel_self p s)
       (for_loop (more_children p) (DrawBodyLabel_child (DrawBodyLabel fuel) p) fuel 0).
Proof. reflexivity. Qed.

Lemma DrawBodyLabel_loop_ok rec p :
  forall rest done s n,
    is_tree_at (heap s) (Node p (done ++ rest)) = true ->
    Forall (labels_subtree rec) rest ->
    (length rest < n)%nat ->
    exists s',
      for_loop (more_children p) (DrawBodyLabel_child rec p) n
               (Z.of_nat (length done)) s = Ok s'
      /\ drawn InDrawBodyLabel (flat_map nodes rest) (heap s) s s'.
Proof.
  induction rest as [|k rest IH]; intros done s n Ht Hrec Hn.
  - destruct n as [|n]; [simpl in Hn; lia|].
    destruct (is_tree_at_inv _ _ _ Ht) as (b & Hp & _ & Hcount & _).
    cbn [for_loop]. rewrite (more_children_Some _ _ _ _ Hp). cbn [bind].
    rewrite app_nil_r in Hcount. rewrite Hcount, Z.ltb_irrefl.
    eexists. split; [reflexivity|]. apply drawn_refl.
  - destruct n as [|n]; [simpl in Hn; lia|].
    destruct (is_tree_at_inv _ _ _ Ht) as (b & Hp & Hlen & Hcount & Hkids & Hsub).
    rewrite length_app in Hlen, Hcount. cbn [length] in Hlen, Hcount.
    cbn [for_loop]. rewrite (more_children_Some _ _ _ _ Hp). cbn [bind].
    replace (Z.of_nat (length done) <? childrenCount b) with true
      by (symmetry; apply Z.ltb_lt; lia).
    inversion Hrec as [|? ? Hreck Hrecr]; subst.
    unfold DrawBodyLabel_child at 1. rewrite (load_Some _ _ _ Hp). cbn [bind].
    rewrite (child_at_Some b (length done) (root k)); [|lia|].
    2:{ apply Hkids. rewrite lookup_app_r by lia. now rewrite Nat.sub_diag. }
    cbn [bind].
    destruct (Hreck s) as (s1 & Hs1 & D1).
    { rewrite Forall_app in Hsub. destruct Hsub as [_ Hsub]. now inversion Hsub. }
    rewrite Hs1. cbn [bind].
    destruct (IH (done ++ [k]) s1 n) as (s2 & Hs2 & D2).
    { rewrite <- app_assoc, (drawn_heap _ _ _ _ _ D1). exact Ht. }
    { exact Hrecr. }
    { simpl in Hn. lia. }
    rewrite length_app in Hs2. cbn [length] in Hs2.
    replace (Z.of_nat (length done) + 1) with (Z.of_nat (length done + 1)) by lia.
    rewrite Hs2. eexists. split; [reflexivity|].
    rewrite (drawn_heap _ _ _ _ _ D1) in D2.
    exact (drawn_trans _ _ _ _ _ _ _ _ D1 D2).
Qed.

Lemma DrawBodyLabel_self_ok p s b :
  heap s !! p = Some b ->
  exists s', DrawBodyLabel_self p s = Ok s' /\ drawn InDrawBodyLabel [p] (heap s) s s'.
Proof.
  intros Hp. unfold DrawBodyLabel_self, load. simpl. rewrite Hp. simpl.
  eexists. split; [reflexivity|]. split; simpl; try reflexivity.
  - rewrite !visits_app. simpl. now rewrite app_nil_r.
  - intros g Hg. rewrite !visits_app. destruct g; [|congruence]. simpl.
    now rewrite !app_nil_r.
Qed.

Lemma DrawBodyLabel_ok t :
  forall fuel s,
    is_tree_at (heap s) t = true ->
    (fuel_for t <= fuel)%nat ->
    exists s', DrawBodyLabel fuel (root t) s = Ok s'
      /\ drawn InDrawBodyLabel (nodes t) (heap s) s s'.
Proof.
  induction t as [p kids IH] using tree_induction. intros fuel s Ht Hfuel.
  destruct fuel as [|fuel]; [simpl in Hfuel; lia|].
  destruct (fuel_for_kids _ _ _ Hfuel) as [Hlen Hkf].
  destruct (is_tree_at_lookup _ _ Ht) as [b Hp]. simpl in Hp.
  destruct (DrawBodyLabel_self_ok p s b Hp) as (s1 & Hs1 & D1).
  cbn [root]. rewrite DrawBodyLabel_S, Hs1. cbn [bind].
  destruct (DrawBodyLabel_loop_ok (DrawBodyLabel fuel) p kids [] s1 fuel) as (s2 & Hs2 & D2).
  - rewrite (drawn_heap _ _ _ _ _ D1). exact Ht.
  - rewrite Forall_forall in IH, Hkf |- *. intros k Hk s' Hts. apply IH; auto.
  - exact Hlen.
  - change (Z.of_nat (length [])) with 0 in Hs2. rewrite Hs2. eexists.
    split; [reflexivity|].
    rewrite (drawn_heap _ _ _ _ _ D1) in D2.
    exact (drawn_trans _ _ _ _ _ _ _ _ D1 D2).
Qed.

(** *** What the traversals leave alone, on any heap *)

Lemma for_loop_preserves (R : State -> State -> Prop) cond body :
  (forall s, R s s) ->
  (forall s1 s2 s3, R s1 s2 -> R s2 s3 -> R s1 s3) ->
  (forall i s s', body i s = Ok s' -> R s s') ->
  forall n i s s', for_loop cond body n i s = Ok s' -> R s s'.
Proof.
  intros Hrefl Htrans Hbody. induction n as [|n IH]; intros i s s' Hl; [discriminate|].
  cbn [for_loop] in Hl. apply bind_Ok in Hl as (c & _ & Hl).
  destruct c.
  - apply bind_Ok in Hl as (s1 & H1 & Hl). eauto.
  - injection Hl as <-. apply Hrefl.
Qed.

(** The label pass writes no body and not the speed. *)
Lemma DrawBodyLabel_reads_only fuel :
  forall p s s', DrawBodyLabel fuel p s = Ok s' ->
    heap s' = heap s /\ rotationSpeed s' = rotationSpeed s.
Proof.
  induction fuel as [|fuel IH]; intros p s s' Hd; [discriminate|].
  rewrite DrawBodyLabel_S in Hd. apply bind_Ok in Hd as (s1 & H1 & Hl).
  unfold DrawBodyLabel_self in H1. apply bind_Ok in H1 as (b & _ & H1).
  injection H1 as <-.
  apply (for_loop_preserves
           (fun s s' => heap s' = heap s /\ rotationSpeed s' = rotationSpeed s)) in Hl.
  - exact Hl.
  - auto.
  - intros ? ? ? [? ?] [? ?]. split; congruence.
  - intros i s2 s3 Hc. unfold DrawBodyLabel_child in Hc.
    apply bind_Ok in Hc as (b2 & _ & Hc). apply bind_Ok in Hc as (c & _ & Hc). eauto.
Qed.

(** The draw pass writes nothing but orbital angles and label anchors. *)
Lemma DrawBody_writes_only fuel cam :
  forall p s s', DrawBody fuel p cam s = Ok s' ->
    same_skeleton (heap s) (heap s') /\ rotationSpeed s' = rotationSpeed s.
Proof.
  induction fuel as [|fuel IH]; intros p s s' Hd; [discriminate|].
  rewrite DrawBody_S in Hd. apply bind_Ok in Hd as (s1 & H1 & Hl).
  unfold DrawBody_self in H1. apply bind_Ok in H1 as (b & Hb & H1).
  apply bind_Ok in H1 as (b' & Hb' & H1). injection H1 as <-.
  unfold load in Hb'. simpl in Hb'.
  destruct (heap s !! p) as [b0|] eqn:Hp; [|discriminate]. injection Hb' as <-.
  apply (for_loop_preserves
           (fun s s' => same_skeleton (heap s) (heap s')
                        /\ rotationSpeed s' = rotationSpeed s)) in Hl.
  - destruct Hl as [Hl1 Hl2]. split; [|exact Hl2].
    etransitivity; [|exact Hl1]. simpl. now apply same_skeleton_insert with (b := b0).
  - split; reflexivity.
  - intros ? ? ? [? ?] [? ?]. split; [etransitivity; eauto | congruence].
  - intros i s2 s3 Hc. unfold DrawBody_child in Hc.
    apply bind_Ok in Hc as (b2 & _ & Hc). apply bind_Ok in Hc as (c & _ & Hc).
    apply bind_Ok in Hc as (cb & Hcb & Hc). apply bind_Ok in Hc as (step & _ & Hc).
    apply bind_Ok in Hc as (cb' & _ & Hc). apply bind_Ok in Hc as (s4 & Hrec & Hc).
    apply bind_Ok in Hc as (cb3 & _ & Hc). injection Hc as <-.
    apply IH in Hrec as [Hr1 Hr2]. simpl in Hr1, Hr2. simpl.
    unfold load in Hcb. destruct (heap s2 !! c) as [c0|] eqn:Hc0; [|discriminate].
    injection Hcb as <-.
    assert (rotationSpeed (rlPopMatrix s4) = rotationSpeed s4 /\ heap (rlPopMatrix s4) = heap s4)
      as [-> ->] by (unfold rlPopMatrix; destruct (matrixStack s4); auto).
    split; [|exact Hr2].
    etransitivity; [|exact Hr1]. now apply same_skeleton_insert with (b := c0).
Qed.

Lemma root_in_nodes t : root t ∈ nodes t.
Proof. destruct t as [p kids]. simpl. apply list_elem_of_here. Qed.

Lemma descendants_in_nodes t q : q ∈ descendants t -> q ∈ nodes t.
Proof. destruct t as [p kids]. simpl. apply list_elem_of_further. Qed.

Lemma nodes_cases t q : q ∈ nodes t -> q = root t \/ q ∈ descendants t.
Proof. destruct t as [p kids]. simpl. intros Hq. apply elem_of_cons in Hq. exact Hq. Qed.

Lemma NoDup_root_not_descendant t : NoDup (nodes t) -> root t ∉ descendants t.
Proof. destruct t as [p kids]. simpl. intros Hn. now apply NoDup_cons in Hn as [? _]. Qed.

Lemma NoDup_descendants t : NoDup (nodes t) -> NoDup (descendants t).
Proof. destruct t as [p kids]. simpl. intros Hn. now apply NoDup_cons in Hn as [_ ?]. Qed.

Lemma draw_kids_lookup cam S kids :
  Forall (fun k => forall h q, NoDup (nodes k) ->
            draw_heap cam S k h !! q = pass_effect cam S k q <$> h !! q) kids ->
  forall h q, NoDup (flat_map nodes kids) ->
    fold_left (fun h k => draw_heap cam S k (alter (advance S) (root k) h)) kids h !! q
    = (if decide (q ∈ flat_map nodes kids)
       then fun b => anchor cam (advance S b) else fun b => b) <$> h !! q.
Proof.
  induction 1 as [|k kids Hk _ IH]; intros h q Hnd; cbn [fold_left flat_map].
  - case_decide as Hq; [now apply not_elem_of_nil in Hq | now destruct (h !! q)].
  - apply NoDup_app in Hnd as (Hndk & Hdisj & Hndr).
    rewrite IH by exact Hndr. rewrite Hk by exact Hndk.
    rewrite lookup_alter. unfold pass_effect.
    pose proof (root_in_nodes k) as Hroot.
    pose proof (descendants_in_nodes k q) as Hdesc.
    pose proof (nodes_cases k q) as Hcases.
    specialize (Hdisj q).
    pose proof (elem_of_app (nodes k) (flat_map nodes kids) q) as Happ.
    repeat case_decide; subst; try (now destruct (h !! _)); exfalso; tauto.
Qed.

Lemma draw_heap_lookup cam S t :
  forall h q, NoDup (nodes t) ->
    draw_heap cam S t h !! q = pass_effect cam S t q <$> h !! q.
Proof.
  induction t as [p kids IH] using tree_induction. intros h q Hnd.
  cbn [draw_heap]. rewrite (draw_kids_lookup cam S kids IH).
  2:{ now apply NoDup_descendants in Hnd. }
  pose proof (NoDup_root_not_descendant _ Hnd) as Hp. cbn [root descendants] in Hp.
  rewrite lookup_alter. unfold pass_effect. cbn [root descendants].
  repeat case_decide; subst; try (now destruct (h !! _)); exfalso; tauto.
Qed.

Lemma well_formed_inv h t :
  well_formed h t = true ->
  is_tree_at h t = true /\ forallb (period_ok h) (descendants t) = true /\ NoDup (nodes t).
Proof.
  unfold well_formed. intros Hw. apply andb_prop in Hw as [Hw Hn].
  apply andb_prop in Hw as [Ht Hp]. apply bool_decide_eq_true in Hn. auto.
Qed.

Lemma frame_ok t fuel inp m :
  well_formed (heap (st m)) t = true ->
  (fuel_for t <= fuel)%nat ->
  exists m', frame (root t) fuel inp m = Ok m' /\ framed t inp m m'.
Proof.
  intros Hw Hfuel. destruct (well_formed_inv _ _ Hw) as (Ht & Hp & _).
  unfold frame, EndMode3D, BeginMode3D, ClearBackground, BeginDrawing.
  match goal with |- context [DrawBody fuel (root t) ?c ?x] => set (s0 := x); set (cam := c) end.
  destruct (DrawBody_ok cam t fuel s0 Ht Hp Hfuel) as (s1 & Hs1 & D1).
  rewrite Hs1. cbn [bind].
  match goal with |- context [with_matrix [] (matrixStack s1) ?x] =>
    set (s2 := with_matrix [] (matrixStack s1) x) end.
  assert (E12 : same_skeleton (heap (st m)) (heap s2)).
  { simpl. rewrite (drawn_heap _ _ _ _ _ D1). apply draw_heap_skeleton. }
  destruct (DrawBodyLabel_ok t fuel s2) as (s3 & Hs3 & D3); [|exact Hfuel|].
  { now rewrite <- (is_tree_at_skeleton _ _ _ E12). }
  destruct D1 as [D1h D1s D1m D1k D1v D1o].
  specialize (D1o InDrawBodyLabel ltac:(discriminate)).
  destruct D3 as [D3h D3s D3m D3k D3v D3o].
  specialize (D3o InDrawBody ltac:(discriminate)).
  simpl in D1h, D1s, D1v, D1o, D3h, D3s, D3v, D3o.
  rewrite !visits_emit_other in D1v, D1o by discriminate.
  rewrite visits_emit_other in D3v, D3o by discriminate.
  destruct (if KEY_L inp then negb (showBodyLabels m) else showBodyLabels m) eqn:Hl;
    destruct (if KEY_H inp then negb (showHelpMenu m) else showHelpMenu m) eqn:Hh;
    rewrite ?Hs3; cbn [bind]; (eexists; split; [reflexivity|]);
    (split; cbn [camera st showBodyLabels showHelpMenu]; simpl;
     rewrite ?visits_emit_other by discriminate; rewrite ?app_nil_r;
     try reflexivity; congruence).
Qed.

Lemma main_loop_ok t fuel :
  forall inputs m,
    well_formed (heap (st m)) t = true ->
    (fuel_for t <= fuel)%nat ->
    exists m', main_loop (root t) fuel inputs m = Ok m'
      /\ heap (st m') = heap_after t inputs (camera m) (rotationSpeed (st m)) (heap (st m))
      /\ rotationSpeed (st m')
         = fold_left (fun x inp => speed_after inp x) inputs (rotationSpeed (st m))
      /\ well_formed (heap (st m')) t = true.
Proof.
  induction inputs as [|inp inputs IH]; intros m Hw Hfuel.
  - exists m. simpl. auto.
  - destruct (frame_ok t fuel inp m Hw Hfuel) as (m1 & Hm1 & F1).
    cbn [main_loop]. rewrite Hm1. cbn [bind].
    assert (Hw1 : well_formed (heap (st m1)) t = true).
    { rewrite <- Hw. symmetry. apply well_formed_skeleton.
      rewrite (framed_heap _ _ _ _ F1). apply draw_heap_skeleton. }
    destruct (IH m1 Hw1 Hfuel) as (m2 & Hm2 & Hh & Hs & Hw2).
    exists m2. split; [exact Hm2|]. split; [|split; [|exact Hw2]].
    + rewrite Hh. cbn [heap_after]. rewrite (framed_heap _ _ _ _ F1).
      now rewrite (framed_camera _ _ _ _ F1), (framed_speed _ _ _ _ F1).
    + rewrite Hs. cbn [fold_left]. now rewrite (framed_speed _ _ _ _ F1).
Qed.

Lemma speed_after_steady inp x : steady inp = true -> speed_after inp x = x.
Proof.
  unfold steady, speed_after. intros Hs. apply andb_prop in Hs as [Hl Hr].
  apply negb_true_iff in Hl, Hr. now rewrite Hl, Hr.
Qed.

Lemma pass_effect_orbitPeriod cam S t q b :
  orbitPeriod (pass_effect cam S t q b) = orbitPeriod b.
Proof. unfold pass_effect. repeat case_decide; reflexivity. Qed.

Lemma pass_effect_rotationPosition cam S t q b :
  rotationPosition (pass_effect cam S t q b) = rotationPosition b.
Proof. unfold pass_effect. repeat case_decide; reflexivity. Qed.

Lemma pass_effect_orbitPosition cam S t q b :
  NoDup (nodes t) ->
  orbitPosition (pass_effect cam S t q b)
  = if decide (q ∈ descendants t)
    then F32.add (orbitPosition b) (angular_step S (orbitPeriod b))
    else orbitPosition b.
Proof.
  intros Hn. pose proof (NoDup_root_not_descendant t Hn).
  unfold pass_effect. repeat case_decide; subst; try reflexivity. contradiction.
Qed.

Lemma pass_effect_labelPosition cam S t q b :
  q ∈ nodes t ->
  labelPosition (pass_effect cam S t q b)
  = GetWorldToScreen (vec3 (orbitRadius b) (radius b) (flit 0 1)) cam.
Proof.
  intros Hq. apply nodes_cases in Hq.
  unfold pass_effect. repeat case_decide; try reflexivity. tauto.
Qed.

Lemma accumulate_S n step a :
  accumulate (S n) step a = accumulate n step (F32.add a step).
Proof. unfold accumulate. now rewrite Nat.iter_succ_r. Qed.

(** After steady frames, a body with a parent holds its angle plus one
    step per frame; its period stays. *)
Lemma heap_after_steady t q :
  NoDup (nodes t) -> q ∈ descendants t ->
  forall inputs cam S h b,
    forallb steady inputs = true ->
    h !! q = Some b ->
    exists b', heap_after t inputs cam S h !! q = Some b'
      /\ orbitPeriod b' = orbitPeriod b
      /\ orbitPosition b'
         = accumulate (length inputs) (angular_step S (orbitPeriod b)) (orbitPosition b).
Proof.
  intros Hn Hq. induction inputs as [|inp inputs IH]; intros cam S h b Hst Hb.
  - exists b. simpl. auto.
  - cbn [forallb] in Hst. apply andb_prop in Hst as [Hs1 Hst].
    cbn [heap_after]. rewrite (speed_after_steady _ _ Hs1).
    set (cam' := UpdateCamera (pointer inp) cam).
    destruct (IH cam' S (draw_heap cam' S t h) (pass_effect cam' S t q b) Hst)
      as (b' & Hb' & Hper & Hpos).
    { rewrite draw_heap_lookup by exact Hn. now rewrite Hb. }
    exists b'. split; [exact Hb'|].
    rewrite pass_effect_orbitPeriod in Hper, Hpos.
    rewrite pass_effect_orbitPosition in Hpos by exact Hn.
    rewrite decide_True in Hpos by exact Hq.
    split; [exact Hper|]. cbn [length]. now rewrite accumulate_S.
Qed.

(** After any frames, a body with a parent holds its angle plus one step
    per frame, at the speed of the frame; its period stays. *)
Lemma heap_after_angle t q :
  NoDup (nodes t) -> q ∈ descendants t ->
  forall inputs cam S h b,
    h !! q = Some b ->
    exists b', heap_after t inputs cam S h !! q = Some b'
      /\ orbitPeriod b' = orbitPeriod b
      /\ orbitPosition b'
         = angle_after (orbitPeriod b) (speeds_of inputs S) (orbitPosition b).
Proof.
  intros Hn Hq. induction inputs as [|inp inputs IH]; intros cam S h b Hb.
  - exists b. simpl. auto.
  - cbn [heap_after speeds_of]. set (S' := speed_after inp S).
    set (cam' := UpdateCamera (pointer inp) cam).
    destruct (IH cam' S' (draw_heap cam' S' t h) (pass_effect cam' S' t q b))
      as (b' & Hb' & Hper & Hpos).
    { rewrite draw_heap_lookup by exact Hn. now rewrite Hb. }
    exists b'. split; [exact Hb'|].
    rewrite pass_effect_orbitPeriod in Hper, Hpos.
    rewrite pass_effect_orbitPosition in Hpos by exact Hn.
    rewrite decide_True in Hpos by exact Hq.
    split; [exact Hper|]. exact Hpos.
Qed.

End Traversal.

(** ** Attaching *)

Lemma AddBodyChildren_full parent child s p :
  heap s !! parent = Some p ->
  MAX_BODY_CHILDREN <= childrenCount p ->
  AddBodyChildren parent child s
  = Ok (TraceLog LOG_ERROR "ERROR: Body has too many children!" s).
Proof.
  intros Hp Hfull. unfold AddBodyChildren. rewrite (load_Some _ _ _ Hp). cbn [bind].
  now replace (MAX_BODY_CHILDREN <=? childrenCount p) with true
    by (symmetry; apply Z.leb_le; exact Hfull).
Qed.

Lemma AddBodyChildren_room parent child s p :
  heap s !! parent = Some p ->
  0 <= childrenCount p < MAX_BODY_CHILDREN ->
  AddBodyChildren parent child s
  = Ok (store parent
          (set_children (<[Z.to_nat (childrenCount p) := Some child]> (children p))
                        (childrenCount p + 1) p) s).
Proof.
  intros Hp Hroom. unfold AddBodyChildren. rewrite (load_Some _ _ _ Hp). cbn [bind].
  replace (MAX_BODY_CHILDREN <=? childrenCount p) with false
    by (symmetry; apply Z.leb_gt; lia).
  now replace (childrenCount p <? 0) with false by (symmetry; apply Z.ltb_ge; lia).
Qed.

Lemma AddBodyChildren_counts parent child s :
  counts_ok (heap s) -> is_Some (heap s !! parent) ->
  exists s', AddBodyChildren parent child s = Ok s'
    /\ counts_ok (heap s')
    /\ (forall q, is_Some (heap s' !! q) <-> is_Some (heap s !! q)).
Proof.
  intros Hc [p Hp]. pose proof (Hc _ _ Hp) as Hr.
  destruct (Z_lt_le_dec (childrenCount p) MAX_BODY_CHILDREN) as [Hlt|Hge].
  - rewrite (AddBodyChildren_room _ _ _ _ Hp) by lia. eexists. split; [reflexivity|].
    split.
    + intros q b. simpl. rewrite lookup_insert. case_decide as E.
      * intros [= <-]. simpl. lia.
      * apply Hc.
    + intros q. simpl. rewrite lookup_insert. case_decide as E; [subst q|tauto].
      rewrite Hp. split; eauto.
  - rewrite (AddBodyChildren_full _ _ _ _ Hp) by lia. eexists. split; [reflexivity|].
    split; [exact Hc | tauto].
Qed.

Lemma attach_all_counts ops :
  forall s, counts_ok (heap s) ->
    Forall (fun op => is_Some (heap s !! fst op)) ops ->
    exists s', attach_all ops s = Ok s' /\ counts_ok (heap s').
Proof.
  induction ops as [|[parent child] ops IH]; intros s Hc Hops.
  - exists s. auto.
  - inversion Hops as [|? ? Hp Hrest]; subst. simpl in Hp.
    destruct (AddBodyChildren_counts parent child s Hc Hp) as (s1 & Hs1 & Hc1 & Hdom).
    cbn [attach_all]. rewrite Hs1. cbn [bind]. apply IH; [exact Hc1|].
    eapply Forall_impl; [exact Hrest|]. intros op Hop. now apply Hdom.
Qed.

Lemma AddBodyChildren_skeleton_fields parent child s s' :
  AddBodyChildren parent child s = Ok s' ->
  forall q, rotationPosition <$> heap s' !! q = rotationPosition <$> heap s !! q.
Proof.
  unfold AddBodyChildren. intros Ha q. apply bind_Ok in Ha as (p & Hp & Ha).
  unfold load in Hp. destruct (heap s !! parent) as [p0|] eqn:Hp0; [|discriminate].
  injection Hp as <-.
  destruct (MAX_BODY_CHILDREN <=? childrenCount p0); [now injection Ha as <-|].
  destruct (childrenCount p0 <? 0); [discriminate|]. injection Ha as <-.
  simpl. rewrite lookup_insert. case_decide as E; [subst q; now rewrite Hp0 | reflexivity].
Qed.

(** ** Standing still *)

Lemma of_int_360 : F32.of_int 360 = S754_finite false 11796480 (-15).
Proof. reflexivity. Qed.

Lemma add_zero_step speed period a :
  F32.is_zero speed = true ->
  usable_period period = true ->
  not_negative_zero a = true ->
  F32.add a (angular_step speed period) = a.
Proof.
  unfold angular_step. rewrite of_int_360.
  destruct speed as [s| | |]; try discriminate. intros _.
  destruct period as [|sp| |sp mp ep]; try discriminate; intros _;
    destruct a as [[|]| | |]; try discriminate; intros _;
    destruct s, sp; reflexivity.
Qed.

(** ** Rounding in [SpecFloat], as integer arithmetic *)

Lemma digits2_size p : digits2_pos p = Pos.size p.
Proof. induction p; simpl; congruence. Qed.

Lemma Zdigits2_log2 p : Zdigits2 (Zpos p) = Z.log2 (Zpos p) + 1.
Proof.
  unfold Zdigits2. rewrite digits2_size. destruct p; simpl; try lia.
Qed.

Lemma Zdigits2_pos m : 0 < m -> 0 < Zdigits2 m.
Proof. destruct m; simpl; lia. Qed.

Lemma Zdigits2_bounds m :
  0 < m -> 2 ^ (Zdigits2 m - 1) <= m < 2 ^ Zdigits2 m.
Proof.
  intros Hm. destruct m as [|p|p]; try lia. rewrite Zdigits2_log2.
  replace (Z.log2 (Z.pos p) + 1 - 1) with (Z.log2 (Z.pos p)) by lia.
  replace (Z.log2 (Z.pos p) + 1) with (Z.succ (Z.log2 (Z.pos p))) by lia.
  now apply Z.log2_spec.
Qed.

Lemma Zdigits2_unique m d :
  0 < m -> 2 ^ (d - 1) <= m < 2 ^ d -> Zdigits2 m = d.
Proof.
  intros Hm Hd. destruct m as [|p|p]; try lia. rewrite Zdigits2_log2.
  assert (0 < d).
  { destruct (Z_lt_le_dec 0 d); [assumption|].
    assert (2 ^ d <= 2 ^ 0) by (apply Z.pow_le_mono_r; lia). simpl in *. lia. }
  rewrite (Z.log2_unique (Z.pos p) (d - 1)); try lia.
  replace (Z.succ (d - 1)) with d by lia. exact Hd.
Qed.

Lemma Zdigits2_mono a b : 0 < a -> a <= b -> Zdigits2 a <= Zdigits2 b.
Proof.
  intros Ha Hab. destruct a as [|p|p]; try lia. destruct b as [|q|q]; try lia.
  rewrite !Zdigits2_log2. apply Z.add_le_mono_r. now apply Z.log2_le_mono.
Qed.

Lemma Zdigits2_mul_pow2 a k :
  0 < a -> 0 <= k -> Zdigits2 (a * 2 ^ k) = Zdigits2 a + k.
Proof.
  intros Ha Hk. apply Zdigits2_unique.
  - apply Z.mul_pos_pos; [exact Ha | apply Z.pow_pos_nonneg; lia].
  - pose proof (Zdigits2_bounds a Ha) as [Hl Hu]. pose proof (Zdigits2_pos a Ha).
    replace (Zdigits2 a + k - 1) with ((Zdigits2 a - 1) + k) by lia.
    rewrite !Z.pow_add_r by lia.
    assert (0 < 2 ^ k) by (apply Z.pow_pos_nonneg; lia). nia.
Qed.

Lemma Zdigits2_le_pow m d : 0 < m -> m < 2 ^ d -> Zdigits2 m <= d.
Proof.
  intros Hm Hd. pose proof (Zdigits2_bounds m Hm) as [Hl _].
  destruct (Z_lt_le_dec d (Zdigits2 m)) as [Hlt|]; [|assumption].
  assert (2 ^ d <= 2 ^ (Zdigits2 m - 1)) by (apply Z.pow_le_mono_r; lia). lia.
Qed.

Lemma iter_pos_nat {A} (f : A -> A) p x :
  SpecFloat.iter_pos f p x = Nat.iter (Pos.to_nat p) f x.
Proof.
  revert x. induction p as [p IH|p IH|]; intros x; cbn [SpecFloat.iter_pos].
  - rewrite !IH, Pos2Nat.inj_xI, <- Nat.iter_add, <- Nat.iter_succ_r.
    f_equal. lia.
  - rewrite !IH, Pos2Nat.inj_xO, <- Nat.iter_add. f_equal. lia.
  - reflexivity.
Qed.

Lemma shr_1_m r : 0 <= shr_m r -> shr_m (shr_1 r) = shr_m r / 2.
Proof.
  destruct r as [m rb sb]. simpl. intros Hm.
  destruct m as [|[p|p|]|p]; simpl; try lia; try reflexivity.
  - rewrite Pos2Z.inj_xI. apply Z.div_unique with 1; lia.
  - rewrite Pos2Z.inj_xO. apply Z.div_unique with 0; lia.
Qed.

Lemma iter_shr_1_m n r :
  0 <= shr_m r -> shr_m (Nat.iter n shr_1 r) = shr_m r / 2 ^ Z.of_nat n.
Proof.
  intros Hm. induction n as [|n IH].
  - simpl. now rewrite Z.div_1_r.
  - rewrite Nat.iter_succ, shr_1_m.
    + rewrite IH, Nat2Z.inj_succ, Z.pow_succ_r by lia.
      rewrite Z.div_div by (try apply Z.pow_pos_nonneg; lia). f_equal. lia.
    + rewrite IH. apply Z.div_pos; [exact Hm | apply Z.pow_pos_nonneg; lia].
Qed.

Lemma shr_record_of_loc_m m l : shr_m (shr_record_of_loc m l) = m.
Proof. destruct l as [|[| |]]; reflexivity. Qed.

Section Format.
Variables prec emax : Z.
Hypothesis prec_pos : 0 < prec.

Lemma shr_fexp_shifted m e l :
  0 <= m ->
  let '(r, e') := shr_fexp prec emax m e l in
  (shr_m r, e') = shifted prec emax m e.
Proof.
  intros Hm. unfold shr_fexp, shifted, shr.
  set (E := fexp prec emax (Zdigits2 m + e)).
  destruct (E - e) as [|p|p] eqn:Hd.
  - rewrite shr_record_of_loc_m. replace (e <? E) with false; [reflexivity|].
    symmetry. apply Z.ltb_ge. lia.
  - replace (e <? E) with true by (symmetry; apply Z.ltb_lt; lia).
    rewrite iter_pos_nat, iter_shr_1_m by now rewrite shr_record_of_loc_m.
    rewrite shr_record_of_loc_m, positive_nat_Z. f_equal. lia.
  - rewrite shr_record_of_loc_m. replace (e <? E) with false; [reflexivity|].
    symmetry. apply Z.ltb_ge. lia.
Qed.

Lemma round_nearest_even_bounds m l :
  m <= round_nearest_even m l <= m + 1.
Proof. destruct l as [|[| |]]; simpl; try lia. destruct (Z.even m); lia. Qed.

Lemma binary_round_aux_packed s m e l :
  0 <= m ->
  exists m2,
    fst (shifted prec emax m e) <= m2 <= fst (shifted prec emax m e) + 1
    /\ (l = loc_Exact -> e >= fexp prec emax (Zdigits2 m + e) -> m2 = m)
    /\ binary_round_aux prec emax s m e l
       = packed prec emax s (fst (shifted prec emax m2 (snd (shifted prec emax m e))))
           (snd (shifted prec emax m2 (snd (shifted prec emax m e)))).
Proof.
  intros Hm. unfold binary_round_aux.
  pose proof (shr_fexp_shifted m e l Hm) as H1.
  destruct (shr_fexp prec emax m e l) as [r1 e1] eqn:Hs1.
  set (m2 := round_nearest_even (shr_m r1) (loc_of_shr_record r1)).
  assert (H0 : 0 <= shr_m r1).
  { replace (shr_m r1) with (fst (shifted prec emax m e)) by now rewrite <- H1.
    unfold shifted. destruct (e <? _) eqn:Hlt; simpl; [|exact Hm].
    apply Z.ltb_lt in Hlt.
    apply Z.div_pos; [exact Hm | apply Z.pow_pos_nonneg; lia]. }
  pose proof (round_nearest_even_bounds (shr_m r1) (loc_of_shr_record r1)) as Hb.
  fold m2 in Hb.
  assert (Hm2 : 0 <= m2) by lia.
  pose proof (shr_fexp_shifted m2 e1 loc_Exact Hm2) as H2.
  destruct (shr_fexp prec emax m2 e1 loc_Exact) as [r2 e2] eqn:Hs2.
  exists m2. rewrite <- H1. cbn [fst snd]. rewrite <- H2. cbn [fst snd].
  split; [exact Hb|]. split; [|reflexivity].
  intros -> He. unfold shr_fexp, shr in Hs1.
  destruct (fexp prec emax (Zdigits2 m + e) - e) eqn:Hd; try lia;
    injection Hs1 as <- <-; reflexivity.
Qed.

Lemma fexp_mono x y : x <= y -> fexp prec emax x <= fexp prec emax y.
Proof. unfold fexp. lia. Qed.

Lemma fexp_ge_emin x : emin prec emax <= fexp prec emax x.
Proof. unfold fexp. lia. Qed.

Lemma fexp_lt x : emin prec emax < x -> fexp prec emax x < x.
Proof. unfold fexp. lia. Qed.

Lemma shifted_fst_nonneg m e : 0 <= m -> 0 <= fst (shifted prec emax m e).
Proof.
  intros Hm. unfold shifted. destruct (e <? _) eqn:Hlt; cbn [fst]; [|exact Hm].
  apply Z.ltb_lt in Hlt. apply Z.div_pos; [exact Hm | apply Z.pow_pos_nonneg; lia].
Qed.

Lemma shifted_fst_pos m e :
  0 < m -> emin prec emax < Zdigits2 m + e -> 0 < fst (shifted prec emax m e).
Proof.
  intros Hm He. unfold shifted. destruct (e <? _) eqn:Hlt; cbn [fst]; [|exact Hm].
  apply Z.ltb_lt in Hlt. pose proof (fexp_lt _ He) as Hf.
  pose proof (Zdigits2_bounds m Hm) as [Hl _].
  apply Z.div_str_pos. split; [apply Z.pow_pos_nonneg; lia|].
  etransitivity; [|exact Hl]. apply Z.pow_le_mono_r; lia.
Qed.

Lemma shifted_snd m e :
  snd (shifted prec emax m e) = Z.max e (fexp prec emax (Zdigits2 m + e)).
Proof. unfold shifted. destruct (e <? _) eqn:Hlt; cbn [snd]; lia. Qed.

Lemma shifted_fst m e :
  fst (shifted prec emax m e) = m / 2 ^ (snd (shifted prec emax m e) - e).
Proof.
  unfold shifted. destruct (e <? _) eqn:Hlt; cbn [fst snd]; [reflexivity|].
  now rewrite Z.sub_diag, Z.div_1_r.
Qed.

Lemma bounded_inv m e :
  bounded prec emax m e = true ->
  fexp prec emax (Zdigits2 (Zpos m) + e) = e /\ e <= emax - prec.
Proof.
  unfold bounded, canonical_mantissa. intros Hb. apply andb_prop in Hb as [Hc He].
  apply Z.eqb_eq in Hc. apply Z.leb_le in He. auto.
Qed.

Lemma shl_align_fst mx ex ez :
  ez <= ex -> Zpos (fst (shl_align mx ex ez)) = Zpos mx * 2 ^ (ex - ez).
Proof.
  intros Hle. unfold shl_align. destruct (ez - ex) as [|d|d] eqn:Hd; try lia.
  - replace (ex - ez) with 0 by lia. cbn [fst]. lia.
  - cbn [fst]. replace (ex - ez) with (Zpos d) by lia.
    rewrite (Pos.iter_swap_gen _ _ Zpos xO (Z.mul 2)) by (intros; reflexivity).
    clear. induction d as [|d IH] using Pos.peano_ind.
    + simpl. lia.
    + rewrite Pos.iter_succ, IH, Pos2Z.inj_succ, Z.pow_succ_r by lia. lia.
Qed.

Lemma shl_align_snd mx ex ez : ez <= ex -> snd (shl_align mx ex ez) = ez.
Proof.
  intros Hle. unfold shl_align. destruct (ez - ex) as [|d|d] eqn:Hd; cbn [snd]; lia.
Qed.

(** [binary_round] on [m * 2^e]: which mantissa and exponent go into
    [binary_round_aux]. *)
Lemma binary_round_aligned s m e :
  let E := fexp prec emax (Zdigits2 (Zpos m) + e) in
  let e0 := Z.min e E in
  exists m0 : positive,
    Zpos m0 = Zpos m * 2 ^ (e - e0)
    /\ binary_round prec emax s m e = binary_round_aux prec emax s (Zpos m0) e0 loc_Exact.
Proof.
  intros E e0. unfold binary_round.
  change (fexp prec emax (Z.pos (digits2_pos m) + e)) with E.
  destruct (Z_le_gt_dec E e) as [Hle|Hgt].
  - pose proof (shl_align_fst m e E Hle) as Hf. pose proof (shl_align_snd m e E Hle) as Hs.
    destruct (shl_align m e E) as [mz ez]. cbn [fst snd] in Hf, Hs. subst ez.
    exists mz. replace e0 with E by lia. split; [exact Hf | reflexivity].
  - unfold shl_align. destruct (E - e) as [|d|d] eqn:Hd; try lia.
    exists m. replace e0 with e by lia. rewrite Z.sub_diag. split; [lia | reflexivity].
Qed.

(** [binary_round] on [m * 2^e], in full: with [E] the exponent the
    format gives the number, either [E <= e] and the result is exact, or
    the mantissa is cut at [E], rounded up by at most one, and cut again
    if the rounding made it too long. *)
Lemma binary_round_cases s m e :
  let E := fexp prec emax (Zdigits2 (Zpos m) + e) in
  exists m3 e3,
    binary_round prec emax s m e = packed prec emax s m3 e3
    /\ ((E <= e /\ m3 = Zpos m * 2 ^ (e - E) /\ e3 = E)
        \/ (e < E /\ exists m2,
               Zpos m / 2 ^ (E - e) <= m2 <= Zpos m / 2 ^ (E - e) + 1
               /\ m3 = fst (shifted prec emax m2 E)
               /\ e3 = snd (shifted prec emax m2 E))).
Proof.
  intros E. destruct (binary_round_aligned s m e) as (m0 & Hm0 & Hr).
  rewrite Hr. clear Hr. fold E in Hm0 |- *.
  destruct (binary_round_aux_packed s (Zpos m0) (Z.min e E) loc_Exact ltac:(lia))
    as (m2 & Hb & Hex & ->).
  assert (HE : fexp prec emax (Zdigits2 (Zpos m0) + Z.min e E) = E).
  { rewrite Hm0, Zdigits2_mul_pow2 by lia. unfold E. f_equal. lia. }
  assert (Hs1 : snd (shifted prec emax (Zpos m0) (Z.min e E)) = E)
    by (rewrite shifted_snd, HE; lia).
  rewrite Hs1. eexists _, _. split; [reflexivity|].
  destruct (Z_le_gt_dec E e) as [Hle|Hgt].
  - left. split; [exact Hle|].
    assert (Hm2 : m2 = Zpos m0) by (apply Hex; [reflexivity | rewrite HE; lia]).
    assert (Hs2 : snd (shifted prec emax m2 E) = E).
    { rewrite shifted_snd, Hm2. replace E with (Z.min e E) at 2 by lia.
      rewrite HE. lia. }
    split; [|exact Hs2].
    rewrite shifted_fst, Hs2, Z.sub_diag, Z.div_1_r, Hm2, Hm0. f_equal. f_equal. lia.
  - right. split; [lia|]. exists m2. split; [|split; reflexivity].
    rewrite shifted_fst, Hs1, Hm0 in Hb. replace (Z.min e E) with e in Hb by lia.
    rewrite Z.sub_diag, Z.mul_1_r in Hb. exact Hb.
Qed.

Lemma leb_finite_pos ma ea m3 e3 :
  ea < e3 \/ (ea = e3 /\ Zpos ma <= Zpos m3) ->
  SFleb (S754_finite false ma ea) (S754_finite false m3 e3) = true.
Proof.
  intros Hc. unfold SFleb, SFcompare.
  destruct (Z.compare_spec ea e3) as [He|He|He]; try reflexivity; [|lia].
  change (Pos.compare_cont Eq ma m3) with (Pos.compare ma m3).
  destruct (Pos.compare_spec ma m3); try reflexivity. lia.
Qed.

Lemma leb_finite_neg ma ea m3 e3 :
  e3 < ea \/ (ea = e3 /\ Zpos m3 <= Zpos ma) ->
  SFleb (S754_finite true ma ea) (S754_finite true m3 e3) = true.
Proof.
  intros Hc. unfold SFleb, SFcompare.
  destruct (Z.compare_spec ea e3) as [He|He|He]; try reflexivity; [|lia].
  change (Pos.compare_cont Eq ma m3) with (Pos.compare ma m3).
  destruct (Pos.compare_spec ma m3); try reflexivity. lia.
Qed.

Lemma leb_neg_packed_pos ma ea m e :
  0 <= m -> SFleb (S754_finite true ma ea) (packed prec emax false m e) = true.
Proof.
  intros Hm. unfold packed. destruct m as [|p|p]; try lia; [reflexivity|].
  now destruct (e <=? emax - prec).
Qed.

Lemma binary_round_nonneg m e ma ea :
  SFleb (S754_finite true ma ea) (binary_round prec emax false m e) = true.
Proof.
  destruct (binary_round_cases false m e) as (m3 & e3 & -> & Hc).
  apply leb_neg_packed_pos.
  destruct Hc as [(_ & -> & _)|(Hlt & m2 & Hb & -> & _)]; [lia|].
  apply shifted_fst_nonneg.
  assert (0 <= Zpos m / 2 ^ (fexp prec emax (Zdigits2 (Zpos m) + e) - e))
    by (apply Z.div_pos; [lia | apply Z.pow_pos_nonneg; lia]).
  lia.
Qed.

(** Rounding a number that is not below a number of the format does not
    go below it. *)
Lemma round_ge ma ea M ez :
  bounded prec emax ma ea = true ->
  ez <= ea ->
  Zpos ma * 2 ^ (ea - ez) <= Zpos M ->
  SFleb (S754_finite false ma ea) (binary_round prec emax false M ez) = true.
Proof.
  intros Hb Hez HM. destruct (bounded_inv _ _ Hb) as [Hca Hmax].
  destruct (binary_round_cases false M ez) as (m3 & e3 & -> & Hc).
  set (E := fexp prec emax (Zdigits2 (Zpos M) + ez)) in *.
  assert (Hpow : 0 < 2 ^ (ea - ez)) by (apply Z.pow_pos_nonneg; lia).
  assert (HdM : Zdigits2 (Zpos ma) + ea <= Zdigits2 (Zpos M) + ez).
  { pose proof (Zdigits2_mono (Zpos ma * 2 ^ (ea - ez)) (Zpos M) ltac:(lia) HM) as Hd.
    rewrite Zdigits2_mul_pow2 in Hd by lia. lia. }
  assert (HE : ea <= E) by (rewrite <- Hca; now apply fexp_mono).
  pose proof (fexp_ge_emin (Zdigits2 (Zpos ma) + ea)) as Hemin. rewrite Hca in Hemin.
  pose proof (Zdigits2_pos (Zpos ma) ltac:(lia)) as Hda.
  destruct Hc as [(Hle & -> & ->)|(Hlt & m2 & Hb2 & -> & ->)].
  - assert (ez = ea) by lia. subst ez. replace (ea - E) with 0 by lia.
    replace E with ea by lia. rewrite Z.sub_diag in HM.
    rewrite Z.mul_1_r in *. unfold packed.
    replace (ea <=? emax - prec) with true by (symmetry; apply Z.leb_le; lia).
    apply leb_finite_pos. right. split; [reflexivity | lia].
  - assert (Hm1 : 0 < Zpos M / 2 ^ (E - ez)).
    { pose proof (shifted_fst_pos (Zpos M) ez ltac:(lia) ltac:(lia)) as Hp.
      unfold shifted in Hp. fold E in Hp.
      replace (ez <? E) with true in Hp by (symmetry; apply Z.ltb_lt; lia).
      exact Hp. }
    assert (Hm2 : 0 < m2) by lia.
    pose proof (Zdigits2_pos m2 Hm2) as Hd2.
    pose proof (shifted_fst_pos m2 E Hm2 ltac:(lia)) as Hm3.
    pose proof (shifted_snd m2 E) as He3.
    pose proof (shifted_fst m2 E) as Hf3.
    destruct (fst (shifted prec emax m2 E)) as [|m3|m3] eqn:Hm3e; try lia.
    set (e3 := snd (shifted prec emax m2 E)) in *.
    unfold packed. destruct (e3 <=? emax - prec); [|reflexivity].
    apply leb_finite_pos.
    destruct (Z_lt_le_dec ea e3) as [?|Hge]; [now left|right].
    assert (e3 = ea) by lia. assert (E = ea) by lia. split; [lia|].
    rewrite Hf3. replace (e3 - E) with 0 by lia. rewrite Z.div_1_r.
    assert (Zpos ma <= Zpos M / 2 ^ (E - ez)); [|lia].
    apply Z.div_le_lower_bound; [apply Z.pow_pos_nonneg; lia|].
    replace (E - ez) with (ea - ez) by lia. lia.
Qed.

Lemma leb_neg_packed ma ea m3 e3 :
  m3 = 0
  \/ (0 < m3 /\ e3 <= emax - prec /\ (e3 < ea \/ (ea = e3 /\ m3 <= Zpos ma))) ->
  SFleb (S754_finite true ma ea) (packed prec emax true m3 e3) = true.
Proof.
  intros [->|(Hm & He & Hc)]; [reflexivity|].
  unfold packed. destruct m3 as [|p|p]; try lia.
  replace (e3 <=? emax - prec) with true by (symmetry; apply Z.leb_le; lia).
  now apply leb_finite_neg.
Qed.

(** Rounding a number that is below a number of the format does not go
    above it (stated on magnitudes, for the negative floats). *)
Lemma round_le ma ea M ez :
  bounded prec emax ma ea = true ->
  ez <= ea ->
  Zpos M < Zpos ma * 2 ^ (ea - ez) ->
  SFleb (S754_finite true ma ea) (binary_round prec emax true M ez) = true.
Proof.
  intros Hb Hez HM. destruct (bounded_inv _ _ Hb) as [Hca Hmax].
  destruct (binary_round_cases true M ez) as (m3 & e3 & -> & Hc).
  set (E := fexp prec emax (Zdigits2 (Zpos M) + ez)) in *.
  assert (Hpow : 0 < 2 ^ (ea - ez)) by (apply Z.pow_pos_nonneg; lia).
  assert (HdM : Zdigits2 (Zpos M) + ez <= Zdigits2 (Zpos ma) + ea).
  { pose proof (Zdigits2_mono (Zpos M) (Zpos ma * 2 ^ (ea - ez)) ltac:(lia) ltac:(lia)) as Hd.
    rewrite Zdigits2_mul_pow2 in Hd by lia. lia. }
  assert (HE : E <= ea) by (rewrite <- Hca; now apply fexp_mono).
  pose proof (fexp_ge_emin (Zdigits2 (Zpos M) + ez)) as Hemin. fold E in Hemin.
  assert (HEd : Zdigits2 (Zpos M) + ez - prec <= E) by (unfold E, fexp; lia).
  apply leb_neg_packed.
  destruct Hc as [(Hle & -> & ->)|(Hlt & m2 & Hb2 & -> & ->)].
  - right. assert (0 < 2 ^ (ez - E)) by (apply Z.pow_pos_nonneg; lia).
    split; [lia|]. split; [lia|].
    destruct (Z_lt_le_dec E ea) as [?|Hge]; [now left|right].
    assert (ez = ea) by lia. subst ez. split; [lia|].
    replace (ea - E) with 0 by lia. rewrite Z.sub_diag in HM. simpl in *. lia.
  - set (m1 := Zpos M / 2 ^ (E - ez)) in *.
    assert (Hp1 : 0 < 2 ^ (E - ez)) by (apply Z.pow_pos_nonneg; lia).
    assert (Hm1 : 0 <= m1) by (apply Z.div_pos; lia).
    assert (Hm1u : m1 < 2 ^ prec).
    { apply Z.div_lt_upper_bound; [exact Hp1|].
      rewrite <- Z.pow_add_r by lia.
      pose proof (Zdigits2_bounds (Zpos M) ltac:(lia)) as [_ Hu].
      eapply Z.lt_le_trans; [exact Hu|]. apply Z.pow_le_mono_r; lia. }
    destruct (Z.eq_dec m2 0) as [->|Hm2].
    { left. unfold shifted. destruct (E <? _); reflexivity. }
    assert (Hm2p : 0 < m2) by lia.
    pose proof (Zdigits2_pos m2 Hm2p) as Hd2.
    assert (Hd2u : Zdigits2 m2 <= prec + 1).
    { apply Zdigits2_le_pow; [exact Hm2p|]. rewrite Z.pow_add_r by lia. lia. }
    pose proof (shifted_snd m2 E) as He3. pose proof (shifted_fst m2 E) as Hf3.
    pose proof (shifted_fst_nonneg m2 E ltac:(lia)) as Hm3.
    set (e3 := snd (shifted prec emax m2 E)) in *.
    set (m3 := fst (shifted prec emax m2 E)) in *.
    destruct (Z.eq_dec m3 0) as [?|Hm30]; [now left|right].
    split; [lia|].
    assert (He3u : e3 <= E + 1) by (rewrite He3; unfold fexp; lia).
    assert (He3l : E <= e3) by lia.
    destruct (Z_lt_le_dec E ea) as [HEa|HEa].
    + split; [lia|].
      destruct (Z_lt_le_dec e3 ea) as [?|Hge]; [now left|right].
      assert (e3 = ea) by lia. split; [lia|].
      assert (Hda : Zdigits2 (Zpos ma) = prec) by (unfold fexp in Hca; lia).
      pose proof (Zdigits2_bounds (Zpos ma) ltac:(lia)) as [Hl _]. rewrite Hda in Hl.
      etransitivity; [|exact Hl]. rewrite Hf3. replace (e3 - E) with 1 by lia.
      apply Z.div_le_upper_bound; [simpl; lia|].
      rewrite <- Z.pow_add_r by lia. replace (1 + (prec - 1)) with prec by lia. lia.
    + assert (E = ea) by lia.
      assert (Hm1a : m1 < Zpos ma).
      { apply Z.div_lt_upper_bound; [exact Hp1|].
        replace (E - ez) with (ea - ez) by lia. lia. }
      assert (Hd2a : Zdigits2 m2 <= Zdigits2 (Zpos ma)) by (apply Zdigits2_mono; lia).
      assert (e3 = ea).
      { rewrite He3. pose proof (fexp_mono (Zdigits2 m2 + E) (Zdigits2 (Zpos ma) + ea)
                                   ltac:(lia)). lia. }
      split; [lia|]. right. split; [lia|].
      rewrite Hf3. replace (e3 - E) with 0 by lia. rewrite Z.div_1_r. lia.
Qed.

Lemma binary_round_aux_nonneg m e l :
  0 <= m -> nonneg (binary_round_aux prec emax false m e l) = true.
Proof.
  intros Hm.
  destruct (binary_round_aux_packed false m e l Hm) as (m2 & Hb & _ & ->).
  pose proof (shifted_fst_nonneg m e Hm) as H1.
  pose proof (shifted_fst_nonneg m2 (snd (shifted prec emax m e)) ltac:(lia)) as H3.
  unfold packed. destruct (fst (shifted prec emax m2 _)) as [|p|p]; try lia;
    [reflexivity|]. now destruct (_ <=? _).
Qed.

End Format.


(** ** Adding a step that is not negative *)

Lemma leb_zero_nonneg x : F32.leb f0 x = true -> nonneg x = true.
Proof. destruct x as [s|[|]| |[|] m e]; simpl; auto; discriminate. Qed.

Lemma mul_nonneg x m e :
  nonneg x = true -> nonneg (F32.mul x (S754_finite false m e)) = true.
Proof.
  destruct x as [s|[|]| |[|] mx ex]; try discriminate; intros _; try reflexivity.
  unfold F32.mul, SFmul. cbn [xorb]. apply binary_round_aux_nonneg. lia.
Qed.

Lemma div_nonneg x m e :
  nonneg x = true -> nonneg (F32.div x (S754_finite false m e)) = true.
Proof.
  destruct x as [s|[|]| |[|] mx ex]; try discriminate; intros _; try reflexivity.
  unfold F32.div, SFdiv. cbn [xorb].
  destruct (SFdiv_core_binary F32.prec F32.emax (Z.pos mx) ex (Z.pos m) e)
    as [[mz ez] lz] eqn:Hd.
  apply binary_round_aux_nonneg.
  unfold SFdiv_core_binary in Hd.
  match type of Hd with context [Z.div_eucl ?a ?b] =>
    pose proof (Z_div_mod a b ltac:(lia)) as Hq;
    assert (Ha : 0 <= a);
    [| destruct (Z.div_eucl a b) as [q r]; injection Hd as <- _ _; nia]
  end.
  destruct (_ - _ - _) as [|p|p]; try lia. apply Z.shiftl_nonneg. lia.
Qed.

Lemma angular_step_nonneg speed period :
  F32.leb f0 speed = true ->
  positive_finite period = true ->
  nonneg (angular_step speed period) = true.
Proof.
  intros Hs Hp. destruct period as [| | |[|] m e]; try discriminate.
  unfold angular_step. rewrite of_int_360. apply div_nonneg, mul_nonneg.
  now apply leb_zero_nonneg.
Qed.

Lemma leb_finite_refl s m e : SFleb (S754_finite s m e) (S754_finite s m e) = true.
Proof.
  destruct s; [apply leb_finite_neg | apply leb_finite_pos]; right; split; lia.
Qed.

(** A binary32 sum with a step that is not negative is not below its
    first term. *)
Lemma add_nonneg_ge a s :
  angle_ok a = true -> nonneg s = true -> F32.leb a (F32.add a s) = true.
Proof.
  intros Ha Hs.
  destruct a as [sa|[|]| |sa ma ea]; try discriminate;
    destruct s as [ss|[|]| |[|] ms es]; try discriminate; try reflexivity;
    try (destruct sa, ss; reflexivity); try (destruct sa; reflexivity).
  - apply leb_finite_refl.
  - cbn [angle_ok] in Ha. unfold F32.leb, F32.add, SFadd.
    set (ez := Z.min ea es).
    pose proof (shl_align_fst ma ea ez ltac:(lia)) as HA.
    pose proof (shl_align_fst ms es ez ltac:(lia)) as HS.
    assert (0 < 2 ^ (es - ez)) by (apply Z.pow_pos_nonneg; lia).
    destruct sa; cbn [cond_Zopp].
    + destruct (- Z.pos (fst (shl_align ma ea ez)) + Z.pos (fst (shl_align ms es ez)))
        as [|p|p] eqn:Hsum; cbn [binary_normalize].
      * reflexivity.
      * apply binary_round_nonneg.
      * apply round_le; [reflexivity | exact Ha | lia | lia].
    + cbn [Z.add binary_normalize].
      apply round_ge; [reflexivity | exact Ha | lia |].
      rewrite Pos2Z.inj_add. lia.
Qed.

(** ** The results of rounding are numbers of the format *)

Lemma Zdigits2_div_pow2 m k :
  0 <= k -> 0 < m / 2 ^ k -> Zdigits2 (m / 2 ^ k) = Zdigits2 m - k.
Proof.
  intros Hk Hq.
  assert (Hp : 0 < 2 ^ k) by (apply Z.pow_pos_nonneg; lia).
  assert (Hm : 0 < m).
  { destruct (Z_lt_le_dec 0 m) as [|Hle]; [assumption|].
    assert (m / 2 ^ k <= 0) by (apply Z.div_le_upper_bound; lia). lia. }
  pose proof (Zdigits2_bounds m Hm) as [Hl Hu].
  assert (Hmk : 2 ^ k <= m).
  { destruct (Z_lt_le_dec m (2 ^ k)) as [Hlt|]; [|assumption].
    rewrite Z.div_small in Hq by lia. lia. }
  assert (Hdk : k < Zdigits2 m).
  { destruct (Z_lt_le_dec k (Zdigits2 m)) as [|Hle]; [assumption|].
    assert (2 ^ Zdigits2 m <= 2 ^ k) by (apply Z.pow_le_mono_r; lia). lia. }
  apply Zdigits2_unique; [exact Hq|]. split.
  - apply Z.div_le_lower_bound; [exact Hp|].
    rewrite <- Z.pow_add_r by lia.
    replace (k + (Zdigits2 m - k - 1)) with (Zdigits2 m - 1) by lia. exact Hl.
  - apply Z.div_lt_upper_bound; [exact Hp|].
    rewrite <- Z.pow_add_r by lia.
    replace (k + (Zdigits2 m - k)) with (Zdigits2 m) by lia. exact Hu.
Qed.

Section Validity.
Variables prec emax : Z.
Hypothesis prec_pos : 0 < prec.

Lemma packed_valid s m e :
  0 <= m ->
  (0 < m -> fexp prec emax (Zdigits2 m + e) = e) ->
  valid_binary prec emax (packed prec emax s m e) = true.
Proof.
  intros Hm Hc. unfold packed. destruct m as [|p|p]; try lia; [reflexivity|].
  destruct (e <=? emax - prec) eqn:He; [|reflexivity].
  cbn [valid_binary]. unfold bounded, canonical_mantissa.
  rewrite He, andb_true_r. apply Z.eqb_eq. apply Hc. lia.
Qed.

(** Cutting a mantissa that the format would cut anyway, rounding it up
    by at most one and cutting again leaves a canonical mantissa. *)
Lemma shifted_twice_canonical m e m2 :
  0 <= m ->
  e <= fexp prec emax (Zdigits2 m + e) ->
  fst (shifted prec emax m e) <= m2 <= fst (shifted prec emax m e) + 1 ->
  let E := snd (shifted prec emax m e) in
  0 < fst (shifted prec emax m2 E) ->
  fexp prec emax (Zdigits2 (fst (shifted prec emax m2 E)) + snd (shifted prec emax m2 E))
  = snd (shifted prec emax m2 E).
Proof.
  intros Hm He Hb E Hm3.
  assert (HE : E = fexp prec emax (Zdigits2 m + e)) by (unfold E; rewrite shifted_snd; lia).
  pose proof (shifted_fst prec emax m e) as Hm1. fold E in Hm1.
  set (m1 := fst (shifted prec emax m e)) in *.
  assert (Hm1n : 0 <= m1) by now apply shifted_fst_nonneg.
  pose proof (shifted_snd prec emax m2 E) as He3.
  pose proof (shifted_fst prec emax m2 E) as Hf3.
  set (e3 := snd (shifted prec emax m2 E)) in *.
  set (m3 := fst (shifted prec emax m2 E)) in *.
  set (E2 := fexp prec emax (Zdigits2 m2 + E)) in *.
  assert (Hm2 : 0 < m2).
  { destruct (Z_lt_le_dec 0 m2) as [|Hle]; [assumption|].
    assert (m2 = 0) by lia. subst m2. rewrite Z.div_0_l in Hf3; [lia|].
    apply Z.pow_nonzero; lia. }
  destruct (Z_lt_le_dec E E2) as [Hlt|Hge].
  - assert (e3 = E2) by lia.
    rewrite Hf3, Zdigits2_div_pow2 by (try rewrite <- Hf3; lia).
    replace (Zdigits2 m2 - (e3 - E) + e3) with (Zdigits2 m2 + E) by lia. fold E2. lia.
  - assert (e3 = E) by lia.
    assert (m3 = m2) by (rewrite Hf3; replace (e3 - E) with 0 by lia; apply Z.div_1_r).
    replace m3 with m2 by congruence. replace e3 with E by congruence. fold E2.
    assert (E <= E2); [|lia].
    destruct (Z.eq_dec m1 0) as [Hz|Hnz].
    + assert (HEmin : E = emin prec emax).
      { destruct (Z.eq_dec m 0) as [->|Hmz].
        - cbn [Zdigits2] in HE, He. unfold fexp in HE, He. lia.
        - assert (Hlt : m < 2 ^ (E - e)).
          { destruct (Z_lt_le_dec m (2 ^ (E - e))) as [|Hle]; [assumption|].
            assert (0 < m / 2 ^ (E - e)); [|lia].
            apply Z.div_str_pos. split; [apply Z.pow_pos_nonneg; lia | exact Hle]. }
          pose proof (Zdigits2_le_pow m (E - e) ltac:(lia) Hlt) as Hd.
          unfold fexp in HE. lia. }
      unfold E2. pose proof (fexp_ge_emin prec emax (Zdigits2 m2 + E)). lia.
    + assert (Hd1 : Zdigits2 m1 = Zdigits2 m - (E - e))
        by (rewrite Hm1; apply Zdigits2_div_pow2; [lia | rewrite <- Hm1; lia]).
      pose proof (Zdigits2_mono m1 m2 ltac:(lia) ltac:(lia)) as Hd.
      pose proof (fexp_mono prec emax (Zdigits2 m1 + E) (Zdigits2 m2 + E) ltac:(lia)) as Hf.
      fold E2 in Hf. replace (Zdigits2 m1 + E) with (Zdigits2 m + e) in Hf by lia. lia.
Qed.

Lemma binary_round_aux_valid s m e l :
  0 <= m ->
  e <= fexp prec emax (Zdigits2 m + e) ->
  valid_binary prec emax (binary_round_aux prec emax s m e l) = true.
Proof.
  intros Hm He.
  destruct (binary_round_aux_packed prec emax s m e l Hm) as (m2 & Hb & _ & ->).
  pose proof (shifted_fst_nonneg prec emax m e Hm).
  apply packed_valid; [apply shifted_fst_nonneg; lia|].
  now apply shifted_twice_canonical.
Qed.

Lemma binary_round_valid s m e :
  valid_binary prec emax (binary_round prec emax s m e) = true.
Proof.
  destruct (binary_round_aligned prec emax s m e) as (m0 & Hm0 & ->).
  apply binary_round_aux_valid; [lia|].
  rewrite Hm0, Zdigits2_mul_pow2 by lia.
  replace (Zdigits2 (Z.pos m) + (e - Z.min e (fexp prec emax (Zdigits2 (Z.pos m) + e)))
           + Z.min e (fexp prec emax (Zdigits2 (Z.pos m) + e)))
    with (Zdigits2 (Z.pos m) + e) by lia.
  lia.
Qed.

Lemma Zdigits2_pow2 k : 0 <= k -> Zdigits2 (2 ^ k) = k + 1.
Proof.
  intros Hk. apply Zdigits2_unique; [apply Z.pow_pos_nonneg; lia|].
  replace (k + 1 - 1) with k by lia. split; [lia|].
  apply Z.pow_lt_mono_r; lia.
Qed.

Lemma Zdigits2_mul_ge a b :
  0 < a -> 0 < b -> Zdigits2 a + Zdigits2 b - 1 <= Zdigits2 (a * b).
Proof.
  intros Ha Hb.
  pose proof (Zdigits2_bounds a Ha) as [Hla _]. pose proof (Zdigits2_bounds b Hb) as [Hlb _].
  pose proof (Zdigits2_pos a Ha). pose proof (Zdigits2_pos b Hb).
  assert (Hp : 2 ^ (Zdigits2 a + Zdigits2 b - 2) <= a * b).
  { replace (Zdigits2 a + Zdigits2 b - 2) with ((Zdigits2 a - 1) + (Zdigits2 b - 1)) by lia.
    rewrite Z.pow_add_r by lia.
    assert (0 < 2 ^ (Zdigits2 a - 1)) by (apply Z.pow_pos_nonneg; lia).
    assert (0 < 2 ^ (Zdigits2 b - 1)) by (apply Z.pow_pos_nonneg; lia). nia. }
  assert (Hpp : 0 < 2 ^ (Zdigits2 a + Zdigits2 b - 2)) by (apply Z.pow_pos_nonneg; lia).
  pose proof (Zdigits2_mono _ _ Hpp Hp) as Hd.
  rewrite Zdigits2_pow2 in Hd by lia. lia.
Qed.

Lemma Zdigits2_div_ge a b :
  0 < b -> 0 < a / b -> Zdigits2 a - Zdigits2 b <= Zdigits2 (a / b).
Proof.
  intros Hb Hq.
  assert (Ha : 0 < a).
  { destruct (Z_lt_le_dec 0 a) as [|Hle]; [assumption|].
    assert (a / b <= 0) by (apply Z.div_le_upper_bound; lia). lia. }
  pose proof (Zdigits2_bounds a Ha) as [Hla _]. pose proof (Zdigits2_bounds b Hb) as [_ Hub].
  pose proof (Zdigits2_pos (a / b) Hq).
  destruct (Z_lt_le_dec (Zdigits2 a - Zdigits2 b - 1) 0) as [Hneg|Hk]; [lia|].
  assert (Hp : 2 ^ (Zdigits2 a - Zdigits2 b - 1) <= a / b).
  { apply Z.div_le_lower_bound; [exact Hb|].
    assert (0 < 2 ^ (Zdigits2 a - Zdigits2 b - 1)) by (apply Z.pow_pos_nonneg; lia).
    assert (b * 2 ^ (Zdigits2 a - Zdigits2 b - 1)
            <= 2 ^ Zdigits2 b * 2 ^ (Zdigits2 a - Zdigits2 b - 1)) by nia.
    rewrite <- Z.pow_add_r in * by (pose proof (Zdigits2_pos b Hb); lia).
    replace (Zdigits2 b + (Zdigits2 a - Zdigits2 b - 1)) with (Zdigits2 a - 1) in * by lia.
    lia. }
  assert (Hpp : 0 < 2 ^ (Zdigits2 a - Zdigits2 b - 1)) by (apply Z.pow_pos_nonneg; lia).
  pose proof (Zdigits2_mono _ _ Hpp Hp) as Hd.
  rewrite Zdigits2_pow2 in Hd by lia. lia.
Qed.

Lemma SFmul_valid x sy my ey :
  Zdigits2 (Zpos my) = prec ->
  valid_binary prec emax (SFmul prec emax x (S754_finite sy my ey)) = true.
Proof.
  intros Hdy. destruct x as [sx|sx| |sx mx ex]; try reflexivity.
  unfold SFmul. apply binary_round_aux_valid; [lia|].
  pose proof (Zdigits2_mul_ge (Zpos mx) (Zpos my) ltac:(lia) ltac:(lia)) as Hd.
  pose proof (Zdigits2_pos (Zpos mx) ltac:(lia)).
  rewrite Pos2Z.inj_mul. unfold fexp. lia.
Qed.

Lemma SFdiv_valid x y : valid_binary prec emax (SFdiv prec emax x y) = true.
Proof.
  destruct x as [sx|sx| |sx mx ex], y as [sy|sy| |sy my ey]; try reflexivity.
  unfold SFdiv, SFdiv_core_binary.
  set (x0 := Zdigits2 (Z.pos mx) + ex - (Zdigits2 (Z.pos my) + ey)).
  set (e' := Z.min (fexp prec emax x0) (ex - ey)).
  set (m' := match ex - ey - e' with
             | 0 => Z.pos mx
             | Z.pos _ => Z.shiftl (Z.pos mx) (ex - ey - e')
             | Z.neg _ => 0
             end).
  assert (Hm' : m' = Z.pos mx * 2 ^ (ex - ey - e')).
  { unfold m'. destruct (ex - ey - e') as [|p|p] eqn:Hs; try lia.
    now rewrite Z.shiftl_mul_pow2 by lia. }
  assert (Hp : 0 < 2 ^ (ex - ey - e')) by (apply Z.pow_pos_nonneg; lia).
  destruct (Z.div_eucl m' (Z.pos my)) as [q r] eqn:Hde.
  assert (Hq : q = m' / Z.pos my) by (unfold Z.div; now rewrite Hde).
  assert (Hq0 : 0 <= q) by (rewrite Hq; apply Z.div_pos; lia).
  apply binary_round_aux_valid; [exact Hq0|].
  assert (Hdm' : Zdigits2 m' = Zdigits2 (Z.pos mx) + (ex - ey - e'))
    by (rewrite Hm'; apply Zdigits2_mul_pow2; lia).
  destruct (Z.eq_dec q 0) as [->|Hqn].
  - cbn [Zdigits2 Z.add].
    assert (Hlt : m' < Z.pos my).
    { destruct (Z_lt_le_dec m' (Z.pos my)) as [|Hle]; [assumption|].
      assert (0 < m' / Z.pos my) by (apply Z.div_str_pos; lia). lia. }
    pose proof (Zdigits2_mono m' (Z.pos my) ltac:(lia) ltac:(lia)) as Hd.
    unfold fexp in *. lia.
  - pose proof (Zdigits2_div_ge m' (Z.pos my) ltac:(lia) ltac:(lia)) as Hd.
    rewrite <- Hq in Hd.
    pose proof (fexp_mono prec emax x0 (Zdigits2 q + e') ltac:(unfold x0; lia)). lia.
Qed.

End Validity.

(** ** Sums of angles stay angles, and the order is transitive *)

Lemma angular_step_valid speed period :
  valid_binary F32.prec F32.emax (angular_step speed period) = true.
Proof. apply SFdiv_valid. reflexivity. Qed.

Lemma add_angle_ok a s :
  angle_ok a = true -> nonneg s = true ->
  valid_binary F32.prec F32.emax s = true ->
  angle_ok (F32.add a s) = true.
Proof.
  intros Ha Hs Hv. pose proof (add_nonneg_ge a s Ha Hs) as Hle.
  destruct a as [sa|[|]| |sa ma ea]; try discriminate;
    destruct s as [ss|[|]| |[|] ms es]; try discriminate; try reflexivity;
    try exact Hv; try exact Ha; try (destruct sa, ss; reflexivity).
  assert (Hval : valid_binary F32.prec F32.emax
                   (F32.add (S754_finite sa ma ea) (S754_finite false ms es)) = true).
  { unfold F32.add, SFadd, binary_normalize.
    destruct (_ + _) as [|p|p]; [reflexivity | |]; apply binary_round_valid; reflexivity. }
  destruct (F32.add (S754_finite sa ma ea) (S754_finite false ms es)) as [|[|]| |];
    try reflexivity; try exact Hval; destruct sa; discriminate.
Qed.

Lemma leb_trans a b c :
  F32.leb a b = true -> F32.leb b c = true -> F32.leb a c = true.
Proof.
  unfold F32.leb, SFleb.
  destruct a as [sa|sa| |sa ma ea], b as [sb|sb| |sb mb eb], c as [sc|sc| |sc mc ec];
    cbn [SFcompare]; try discriminate; try reflexivity;
    try (destruct sa; try discriminate; try reflexivity;
         destruct sb; try discriminate; try reflexivity;
         destruct sc; try discriminate; reflexivity);
    try (destruct sa, sb; try discriminate; reflexivity);
    try (destruct sb, sc; try discriminate; reflexivity);
    try (destruct sa, sc; try discriminate; reflexivity).
  destruct sa, sb, sc; try discriminate; try reflexivity;
    destruct (Z.compare_spec ea eb), (Z.compare_spec eb ec), (Z.compare_spec ea ec);
    try discriminate; try reflexivity; try lia; subst;
    change (Pos.compare_cont Eq) with Pos.compare;
    destruct (Pos.compare_spec ma mb), (Pos.compare_spec mb mc), (Pos.compare_spec ma mc);
    try discriminate; try reflexivity; try lia.
Qed.


(** Frames at speeds that are not negative: the angle of a body with a
    positive finite period does not go down, and stays an angle. *)
Lemma angle_after_ge period speeds :
  positive_finite period = true ->
  forallb (F32.leb f0) speeds = true ->
  forall a, angle_ok a = true ->
    F32.leb a (angle_after period speeds a) = true
    /\ angle_ok (angle_after period speeds a) = true.
Proof.
  intros Hp. induction speeds as [|S speeds IH]; intros Hs a Ha.
  - split; [|exact Ha]. destruct a as [sa|[|]| |sa ma ea]; try discriminate;
      try reflexivity. apply leb_finite_refl.
  - cbn [forallb] in Hs. apply andb_prop in Hs as [HS Hs].
    pose proof (angular_step_nonneg S period HS Hp) as Hn.
    pose proof (angular_step_valid S period) as Hv.
    destruct (IH Hs (F32.add a (angular_step S period))
                (add_angle_ok _ _ Ha Hn Hv)) as [Hle Hok].
    split; [|exact Hok].
    eapply leb_trans; [|exact Hle]. now apply add_nonneg_ge.
Qed.

Lemma main_init_default : main_init = Ok default_main.
Proof. vm_compute. reflexivity. Qed.

Lemma default_well_formed : well_formed (heap (st default_main)) solar_system = true.
Proof. vm_compute. reflexivity. Qed.

Section Claims.
Context `{Raylib}.

(** *** Frames write only angles and anchors *)

Lemma frame_writes_only root fuel inp m m' :
  frame root fuel inp m = Ok m' -> same_skeleton (heap (st m)) (heap (st m')).
Proof.
  unfold frame. intros Hf. apply bind_Ok in Hf as (s1 & H1 & Hf).
  apply bind_Ok in Hf as (s2 & H2 & Hf). injection Hf as <-.
  apply DrawBody_writes_only in H1 as [E1 _]. simpl in E1.
  assert (E2 : heap s2 = heap s1).
  { destruct (if KEY_L inp then _ else _).
    - apply DrawBodyLabel_reads_only in H2 as [E2 _]. exact E2.
    - now injection H2 as <-. }
  destruct (if KEY_H inp then _ else _); simpl; now rewrite E2.
Qed.

Lemma main_loop_writes_only root fuel inputs :
  forall m m', main_loop root fuel inputs m = Ok m' ->
    same_skeleton (heap (st m)) (heap (st m')).
Proof.
  induction inputs as [|inp inputs IH]; intros m m' Hl.
  - injection Hl as <-. reflexivity.
  - cbn [main_loop] in Hl. apply bind_Ok in Hl as (m1 & H1 & Hl).
    etransitivity; [eapply frame_writes_only; eauto | eauto].
Qed.

(** *** Runs that differ in the label key *)

Lemma heap_after_without_L t inputs :
  forall cam S h,
    heap_after t (map without_L inputs) cam S h = heap_after t inputs cam S h.
Proof.
  induction inputs as [|inp inputs IH]; intros cam S h; [reflexivity|].
  cbn [map heap_after]. now rewrite IH.
Qed.

Lemma speeds_without_L inputs :
  forall S,
    fold_left (fun x inp => speed_after inp x) (map without_L inputs) S
    = fold_left (fun x inp => speed_after inp x) inputs S.
Proof.
  induction inputs as [|inp inputs IH]; intros S; [reflexivity|].
  cbn [map fold_left]. now rewrite IH.
Qed.

(** *** Frames at speed zero *)

Lemma heap_after_rest t :
  NoDup (nodes t) ->
  forall inputs cam S h,
    F32.is_zero S = true ->
    forallb steady inputs = true ->
    forallb (can_rest h) (descendants t) = true ->
    forall q b, h !! q = Some b ->
      exists b', heap_after t inputs cam S h !! q = Some b'
        /\ orbitPosition b' = orbitPosition b
        /\ rotationPosition b' = rotationPosition b.
Proof.
  intros Hn. induction inputs as [|inp inputs IH]; intros cam S h HS Hst Hrest q b Hb.
  - exists b. auto.
  - cbn [forallb] in Hst. apply andb_prop in Hst as [Hs1 Hst].
    cbn [heap_after]. rewrite (speed_after_steady _ _ Hs1).
    set (cam' := UpdateCamera (pointer inp) cam).
    assert (Hone : forall q b, h !! q = Some b ->
              draw_heap cam' S t h !! q = Some (pass_effect cam' S t q b)
              /\ orbitPosition (pass_effect cam' S t q b) = orbitPosition b).
    { intros q0 b0 Hb0. rewrite draw_heap_lookup by exact Hn. rewrite Hb0.
      split; [reflexivity|]. rewrite pass_effect_orbitPosition by exact Hn.
      case_decide as Hd; [|reflexivity].
      rewrite forallb_forall in Hrest. apply list_elem_of_In, Hrest in Hd.
      unfold can_rest in Hd. rewrite Hb0 in Hd. apply andb_prop in Hd as [Hd1 Hd2].
      now apply add_zero_step. }
    destruct (Hone q b Hb) as [Hq1 Hq2].
    destruct (IH cam' S (draw_heap cam' S t h) HS Hst) with (q := q)
      (b := pass_effect cam' S t q b) as (b' & Hb' & Hpos & Hrot).
    + rewrite <- Hrest. apply forallb_agree. intros q0. unfold can_rest.
      rewrite draw_heap_lookup by exact Hn.
      destruct (h !! q0) as [b0|] eqn:Hb0; [|reflexivity]. simpl.
      destruct (Hone q0 b0 Hb0) as [_ ->]. now rewrite pass_effect_orbitPeriod.
    + exact Hq1.
    + exists b'. split; [exact Hb'|]. split; [congruence|].
      rewrite Hrot. apply pass_effect_rotationPosition.
Qed.

(** ** The claims *)

(** C1 (as the code has it).  After any number of frames in which no
    speed key is pressed, the stored orbital angle of a body that has a
    parent (in a tree whose bodies below the root have nonzero periods) is
    its angle before them plus one binary32 addition per frame of the step
    (speed * 360) / orbitPeriod: the accumulated sum itself, not reduced
    modulo 360. *)
Theorem C1_angle_is_accumulated_sum t fuel inputs m q b :
  well_formed (heap (st m)) t = true ->
  (fuel_for t <= fuel)%nat ->
  forallb steady inputs = true ->
  q ∈ descendants t ->
  heap (st m) !! q = Some b ->
  exists m' b',
    main_loop (root t) fuel inputs m = Ok m'
    /\ heap (st m') !! q = Some b'
    /\ orbitPosition b'
       = accumulate (length inputs)
           (angular_step (rotationSpeed (st m)) (orbitPeriod b)) (orbitPosition b).
Proof.
  intros Hw Hfuel Hst Hq Hb. destruct (well_formed_inv _ _ Hw) as (_ & _ & Hn).
  destruct (main_loop_ok t fuel inputs m Hw Hfuel) as (m' & Hm' & Hh & _).
  destruct (heap_after_steady t q Hn Hq inputs (camera m) (rotationSpeed (st m))
              (heap (st m)) b Hst Hb) as (b' & Hb' & _ & Hpos).
  exists m', b'. split; [exact Hm'|]. split; [now rewrite Hh | exact Hpos].
Qed.

(** C2.  Attaching to a parent that holds 10 children changes no body (so
    neither the child list nor the count), reports an error and returns;
    and whatever is attached to whichever parents, in any order, every
    attach returns and no stored count leaves the range 0..10. *)
Theorem C2_attach_beyond_capacity :
  (forall parent child s p,
      heap s !! parent = Some p ->
      childrenCount p = MAX_BODY_CHILDREN ->
      exists s', AddBodyChildren parent child s = Ok s'
        /\ heap s' = heap s
        /\ trace s' = trace s ++ [E_TraceLog LOG_ERROR "ERROR: Body has too many children!"])
  /\ (forall ops s,
      counts_ok (heap s) ->
      Forall (fun op => is_Some (heap s !! fst op)) ops ->
      exists s', attach_all ops s = Ok s' /\ counts_ok (heap s')).
Proof.
  split.
  - intros parent child s p Hp Hfull.
    rewrite (AddBodyChildren_full _ _ _ _ Hp) by lia.
    eexists. split; [reflexivity|]. split; reflexivity.
  - intros ops s. apply attach_all_counts.
Qed.

(** C3 (what the code does).  The label anchor that [DrawBody] stores for
    a body of the tree is the projection of the point (orbit radius, own
    radius, 0) as it stands: whatever matrix is active when the traversal
    starts, and whatever the traversal composes onto it on the way to the
    body, the point handed to the projection is the same. *)
Theorem C3_anchor_ignores_active_matrix t fuel cam s q b mx stack :
  well_formed (heap s) t = true ->
  (fuel_for t <= fuel)%nat ->
  q ∈ nodes t ->
  heap s !! q = Some b ->
  exists s' b',
    DrawBody fuel (root t) cam (with_matrix mx stack s) = Ok s'
    /\ heap s' !! q = Some b'
    /\ labelPosition b'
       = GetWorldToScreen (vec3 (orbitRadius b) (radius b) (S754_zero false)) cam.
Proof.
  intros Hw Hfuel Hq Hb. destruct (well_formed_inv _ _ Hw) as (Ht & Hp & Hn).
  destruct (DrawBody_ok cam t fuel (with_matrix mx stack s) Ht Hp Hfuel) as (s' & Hs' & D).
  exists s'. eexists. split; [exact Hs'|].
  rewrite (drawn_heap _ _ _ _ _ D), draw_heap_lookup by exact Hn.
  cbn [heap with_matrix]. rewrite Hb. split; [reflexivity|].
  now rewrite pass_effect_labelPosition by exact Hq.
Qed.

(** C4 (as the code has it).  Over any frames in each of which the
    speed, after the keys of the frame, is not negative, the stored orbital
    angle of a body that has a parent and a positive finite period does not
    decrease.  The angle after the frames is the angle before them plus one
    step (speed * 360) / orbitPeriod per frame, at the speed of that frame:
    nothing but the global speed and the body's own period enters.  (The
    angle is the stored one, not reduced modulo 360; with a negative speed,
    which the LEFT key reaches, it decreases.) *)
Theorem C4_angle_nondecreasing t fuel inputs m q b :
  well_formed (heap (st m)) t = true ->
  (fuel_for t <= fuel)%nat ->
  q ∈ descendants t ->
  heap (st m) !! q = Some b ->
  positive_finite (orbitPeriod b) = true ->
  angle_ok (orbitPosition b) = true ->
  forallb (F32.leb f0) (speeds_of inputs (rotationSpeed (st m))) = true ->
  exists m' b',
    main_loop (root t) fuel inputs m = Ok m'
    /\ heap (st m') !! q = Some b'
    /\ orbitPeriod b' = orbitPeriod b
    /\ orbitPosition b'
       = angle_after (orbitPeriod b) (speeds_of inputs (rotationSpeed (st m)))
           (orbitPosition b)
    /\ F32.leb (orbitPosition b) (orbitPosition b') = true
    /\ angle_ok (orbitPosition b') = true.
Proof.
  intros Hw Hfuel Hq Hb Hper Hang Hspeeds.
  destruct (well_formed_inv _ _ Hw) as (_ & _ & Hn).
  destruct (main_loop_ok t fuel inputs m Hw Hfuel) as (m' & Hm' & Hh & _).
  destruct (heap_after_angle t q Hn Hq inputs (camera m) (rotationSpeed (st m))
              (heap (st m)) b Hb) as (b' & Hb' & Hp' & Hpos).
  destruct (angle_after_ge _ _ Hper Hspeeds _ Hang) as [Hle Hok].
  exists m', b'. split; [exact Hm'|]. split; [now rewrite Hh|].
  split; [exact Hp'|]. split; [exact Hpos|]. rewrite Hpos. auto.
Qed.

(** C5.  When every body that has a parent has a nonzero orbit period
    (the root's period may be zero), the traversal finishes without a zero
    divisor, and it advances only the bodies that have a parent: the
    orbital angle of the root, as of any body that is no descendant of it,
    is what it was. *)
Theorem C5_no_zero_divisor t fuel cam s :
  well_formed (heap s) t = true ->
  (fuel_for t <= fuel)%nat ->
  exists s', DrawBody fuel (root t) cam s = Ok s'
    /\ (forall b, heap s !! root t = Some b ->
          exists b', heap s' !! root t = Some b' /\ orbitPosition b' = orbitPosition b)
    /\ (forall q b, q ∉ descendants t -> heap s !! q = Some b ->
          exists b', heap s' !! q = Some b' /\ orbitPosition b' = orbitPosition b).
Proof.
  intros Hw Hfuel. destruct (well_formed_inv _ _ Hw) as (Ht & Hp & Hn).
  destruct (DrawBody_ok cam t fuel s Ht Hp Hfuel) as (s' & Hs' & D).
  exists s'. split; [exact Hs'|].
  assert (Hrest : forall q b, q ∉ descendants t -> heap s !! q = Some b ->
            exists b', heap s' !! q = Some b' /\ orbitPosition b' = orbitPosition b).
  { intros q b Hq Hb. rewrite (drawn_heap _ _ _ _ _ D), draw_heap_lookup by exact Hn.
    rewrite Hb. eexists. split; [reflexivity|].
    rewrite pass_effect_orbitPosition by exact Hn. now rewrite decide_False by exact Hq. }
  split; [|exact Hrest].
  intros b Hb. apply Hrest; [|exact Hb]. now apply NoDup_root_not_descendant.
Qed.

(** C6.  On a tree, the draw pass and the label pass each call their
    traversal on the bodies of the tree in pre-order: every body once, no
    body twice, no other body.  In the scene of [main] that is 6 calls per
    pass in a frame (the label pass when labels are shown). *)
Theorem C6_every_node_once t fuel cam s :
  well_formed (heap s) t = true ->
  (fuel_for t <= fuel)%nat ->
  (exists s', DrawBody fuel (root t) cam s = Ok s'
     /\ visits InDrawBody (trace s') = visits InDrawBody (trace s) ++ nodes t)
  /\ (exists s', DrawBodyLabel fuel (root t) s = Ok s'
     /\ visits InDrawBodyLabel (trace s') = visits InDrawBodyLabel (trace s) ++ nodes t)
  /\ NoDup (nodes t)
  /\ (forall inp, exists m',
        frame sun fuel_default inp default_main = Ok m'
        /\ length (visits InDrawBody (trace (st m'))) = 6%nat
        /\ length (visits InDrawBodyLabel (trace (st m')))
           = if showBodyLabels m' then 6%nat else 0%nat).
Proof.
  intros Hw Hfuel. destruct (well_formed_inv _ _ Hw) as (Ht & Hp & Hn).
  split; [|split; [|split; [exact Hn|]]].
  - destruct (DrawBody_ok cam t fuel s Ht Hp Hfuel) as (s' & Hs' & D).
    exists s'. split; [exact Hs' | apply (drawn_visits _ _ _ _ _ D)].
  - destruct (DrawBodyLabel_ok t fuel s Ht Hfuel) as (s' & Hs' & D).
    exists s'. split; [exact Hs' | apply (drawn_visits _ _ _ _ _ D)].
  - intros inp.
    destruct (frame_ok solar_system fuel_default inp default_main default_well_formed)
      as (m' & Hm' & F); [vm_compute; lia|].
    exists m'. split; [exact Hm'|].
    rewrite (framed_draws _ _ _ _ F), (framed_texts _ _ _ _ F).
    split; [reflexivity|]. now destruct (showBodyLabels m').
Qed.

(** C7.  With the rotation speed at zero and no speed key pressed, any
    number of frames leaves the orbital angle and the rotation angle of
    every body as they were (the orbit periods of the bodies that have a
    parent being numbers other than zero, and no stored angle being the
    negative zero, which adding a zero step would turn into the positive
    one). *)
Theorem C7_zero_speed_is_identity t fuel inputs m :
  well_formed (heap (st m)) t = true ->
  (fuel_for t <= fuel)%nat ->
  F32.is_zero (rotationSpeed (st m)) = true ->
  forallb steady inputs = true ->
  forallb (can_rest (heap (st m))) (descendants t) = true ->
  exists m', main_loop (root t) fuel inputs m = Ok m'
    /\ forall q b, heap (st m) !! q = Some b ->
         exists b', heap (st m') !! q = Some b'
           /\ orbitPosition b' = orbitPosition b
           /\ rotationPosition b' = rotationPosition b.
Proof.
  intros Hw Hfuel HS Hst Hrest. destruct (well_formed_inv _ _ Hw) as (_ & _ & Hn).
  destruct (main_loop_ok t fuel inputs m Hw Hfuel) as (m' & Hm' & Hh & _).
  exists m'. split; [exact Hm'|]. intros q b Hb. rewrite Hh.
  now apply heap_after_rest.
Qed.

(** C8.  The label pass reads the bodies and writes none of them, nor the
    speed; and two runs of the loop whose inputs differ only in the label
    key, from states that differ only in what is shown, end with the same
    bodies (so the same orbital and rotation angles) and the same speed. *)
Theorem C8_labels_do_not_move_bodies :
  (forall fuel body s s',
      DrawBodyLabel fuel body s = Ok s' ->
      heap s' = heap s /\ rotationSpeed s' = rotationSpeed s)
  /\ (forall t fuel inputs1 inputs2 m1 m2,
      well_formed (heap (st m1)) t = true ->
      (fuel_for t <= fuel)%nat ->
      map without_L inputs1 = map without_L inputs2 ->
      heap (st m2) = heap (st m1) ->
      rotationSpeed (st m2) = rotationSpeed (st m1) ->
      camera m2 = camera m1 ->
      exists r1 r2,
        main_loop (root t) fuel inputs1 m1 = Ok r1
        /\ main_loop (root t) fuel inputs2 m2 = Ok r2
        /\ heap (st r1) = heap (st r2)
        /\ rotationSpeed (st r1) = rotationSpeed (st r2)).
Proof.
  split; [apply DrawBodyLabel_reads_only|].
  intros t fuel inputs1 inputs2 m1 m2 Hw Hfuel Hin Hh Hs Hc.
  destruct (main_loop_ok t fuel inputs1 m1 Hw Hfuel) as (r1 & Hr1 & Hh1 & Hs1 & _).
  assert (Hw2 : well_formed (heap (st m2)) t = true) by now rewrite Hh.
  destruct (main_loop_ok t fuel inputs2 m2 Hw2 Hfuel) as (r2 & Hr2 & Hh2 & Hs2 & _).
  exists r1, r2. split; [exact Hr1|]. split; [exact Hr2|]. split.
  - rewrite Hh1, Hh2, Hh, Hs, Hc.
    rewrite <- (heap_after_without_L t inputs1), <- (heap_after_without_L t inputs2).
    now rewrite Hin.
  - rewrite Hs1, Hs2, Hs.
    rewrite <- (speeds_without_L inputs1), <- (speeds_without_L inputs2).
    now rewrite Hin.
Qed.

(** C9.  The rotation angle is 0 in a created body, no operation writes
    it (attach, draw traversal, label traversal), and it is 0 in every
    body of every state [main] reaches. *)
Theorem C9_rotationPosition_untouched :
  (forall r o p l tex, rotationPosition (CreateBody r o p l tex) = S754_zero false)
  /\ (forall parent child s s' q,
        AddBodyChildren parent child s = Ok s' ->
        rotationPosition <$> heap s' !! q = rotationPosition <$> heap s !! q)
  /\ (forall fuel body cam s s' q,
        DrawBody fuel body cam s = Ok s' ->
        rotationPosition <$> heap s' !! q = rotationPosition <$> heap s !! q)
  /\ (forall fuel body s s' q,
        DrawBodyLabel fuel body s = Ok s' ->
        rotationPosition <$> heap s' !! q = rotationPosition <$> heap s !! q)
  /\ (forall fuel inputs m q b,
        main fuel inputs = Ok m ->
        heap (st m) !! q = Some b ->
        rotationPosition b = S754_zero false).
Proof.
  split; [reflexivity|]. split; [|split; [|split]].
  - intros parent child s s' q Ha. eapply AddBodyChildren_skeleton_fields; eauto.
  - intros fuel body cam s s' q Hd. apply DrawBody_writes_only in Hd as [E _].
    symmetry. now apply (same_skeleton_field rotationPosition).
  - intros fuel body s s' q Hd. apply DrawBodyLabel_reads_only in Hd as [E _].
    now rewrite E.
  - intros fuel inputs m q b Hm Hq. unfold main in Hm.
    rewrite main_init_default in Hm. cbn [bind] in Hm.
    apply main_loop_writes_only in Hm.
    pose proof (same_skeleton_field rotationPosition _ _ q (fun _ => eq_refl) Hm) as E.
    rewrite Hq in E. simpl in E.
    assert (Hall : map_Forall (fun _ b0 => rotationPosition b0 = S754_zero false)
                     (heap (st default_main))).
    { apply (bool_decide_eq_true_1 (map_Forall _ _)). vm_compute. reflexivity. }
    destruct (heap (st default_main) !! q) as [b0|] eqn:Hq0; [|discriminate].
    injection E as E. rewrite <- E. exact (Hall _ _ Hq0).
Qed.

(** C10.  [CreateBody] stores ten times the radius and ten times the orbit
    radius it is given (the binary32 products [radius * 10] and
    [orbitRadius * 10]), stores the orbit period and the label as given,
    and leaves the child count and both angles at 0. *)
Theorem C10_CreateBody_fields (r o p : spec_float) (l tex : string) :
  let b := CreateBody r o p l tex in
  radius b = F32.mul r (F32.of_int 10)
  /\ orbitRadius b = F32.mul o (F32.of_int 10)
  /\ orbitPeriod b = p
  /\ label b = l
  /\ childrenCount b = 0
  /\ orbitPosition b = S754_zero false
  /\ rotationPosition b = S754_zero false.
Proof. cbv zeta. repeat split. Qed.

End Claims.

(** ** The claims on the scene of [main] *)

(** C1, at the moon: 121 frames at speed 0.2 leave 121 steps of 3 degrees. *)
Lemma C1_angle_is_accumulated_sum_witness :
  exists m' b',
    @main_loop flat_screen (root solar_system) fuel_default (repeat no_key 121) default_main
      = Ok m'
    /\ heap (st m') !! moon = Some b'
    /\ orbitPosition b'
       = accumulate (length (repeat no_key 121))
           (angular_step (rotationSpeed (st default_main)) (orbitPeriod moon_created))
           (orbitPosition moon_created).
Proof.
  apply (@C1_angle_is_accumulated_sum flat_screen solar_system fuel_default
           (repeat no_key 121) default_main moon moon_created).
  - vm_compute. reflexivity.
  - vm_compute. lia.
  - vm_compute. reflexivity.
  - apply (bool_decide_eq_true_1 (moon ∈ descendants solar_system)). vm_compute. reflexivity.
  - vm_compute. reflexivity.
Defined.

(** C1 as the spec words it fails at the moon: after 121 frames at speed
    0.2 the stored angle is 363, the accumulated sum itself, while the sum
    taken modulo 360 is 3. *)
Lemma C1_stored_angle_is_not_reduced :
  angle_of (@main flat_screen fuel_default (repeat no_key 121)) moon = Some (F32.of_int 363)
  /\ accumulate 121 (angular_step (flit 2 10) (F32.of_int 24)) F32.zero = F32.of_int 363
  /\ mod360 (F32.of_int 363) = F32.of_int 3
  /\ F32.of_int 363 <> F32.of_int 3.
Proof.
  split; [vm_compute; reflexivity|]. split; [vm_compute; reflexivity|].
  split; [vm_compute; reflexivity|]. vm_compute. discriminate.
Qed.

(** C2, at the sun: ten attaches fill it, the eleventh is reported and
    changes nothing, and the counts stay in range throughout. *)
Lemma C2_attach_beyond_capacity_witness :
  (exists s', AddBodyChildren sun moon full_sun = Ok s'
     /\ heap s' = heap full_sun
     /\ trace s' = trace full_sun ++ [E_TraceLog LOG_ERROR "ERROR: Body has too many children!"])
  /\ (exists s', attach_all crowded created = Ok s' /\ counts_ok (heap s')).
Proof.
  split.
  - destruct (heap full_sun !! sun) as [p|] eqn:Hp; [|vm_compute in Hp; discriminate].
    apply (proj1 C2_attach_beyond_capacity sun moon full_sun p Hp).
    vm_compute in Hp. injection Hp as <-. reflexivity.
  - apply (proj2 C2_attach_beyond_capacity crowded created).
    + intros p b Hb.
      assert (Hall : map_Forall
                (fun _ b0 => 0 <= childrenCount b0 <= MAX_BODY_CHILDREN) (heap created)).
      { apply (bool_decide_eq_true_1 (map_Forall _ _)). vm_compute. reflexivity. }
      exact (Hall p b Hb).
    + repeat constructor; vm_compute; eauto.
Defined.

(** C3, at the moon, which is drawn under the matrices of two orbits. *)
Lemma C3_anchor_ignores_active_matrix_witness :
  exists s' b',
    @DrawBody flat_screen fuel_default (root solar_system) initial_camera
      (with_matrix [] [] (st default_main)) = Ok s'
    /\ heap s' !! moon = Some b'
    /\ labelPosition b'
       = @GetWorldToScreen flat_screen
           (vec3 (orbitRadius moon_created) (radius moon_created) (S754_zero false))
           initial_camera.
Proof.
  apply (@C3_anchor_ignores_active_matrix flat_screen solar_system fuel_default
           initial_camera (st default_main) moon moon_created [] []).
  - vm_compute. reflexivity.
  - vm_compute. lia.
  - apply (bool_decide_eq_true_1 (moon ∈ nodes solar_system)). vm_compute. reflexivity.
  - vm_compute. reflexivity.
Defined.

(** C4 as the spec words it fails at the moon, in two ways.  LEFT pressed
    in three frames takes the speed from 0.2 below zero, and the angle, 1.5
    after the second frame, is 0 after the third (both are their own
    residues modulo 360).  And at the constant speed 0.2 the stored angle
    goes from 357 to 360 in the 120th frame, so its residue modulo 360
    falls from 357 to 0. *)
Lemma C4_angle_decreases :
  (angle_of (@main flat_screen fuel_default [press_LEFT; press_LEFT]) moon
     = Some (S754_finite false 12582912 (-23))
   /\ angle_of (@main flat_screen fuel_default [press_LEFT; press_LEFT; press_LEFT]) moon
     = Some (S754_zero false)
   /\ mod360 (S754_finite false 12582912 (-23)) = S754_finite false 12582912 (-23)
   /\ mod360 (S754_zero false) = S754_zero false
   /\ F32.ltb (S754_zero false) (S754_finite false 12582912 (-23)) = true
   /\ F32.ltb (speed_after press_LEFT
                 (speed_after press_LEFT (speed_after press_LEFT (flit 2 10))))
              (S754_zero false) = true)
  /\ (angle_of (@main flat_screen fuel_default (repeat no_key 119)) moon
       = Some (F32.of_int 357)
     /\ angle_of (@main flat_screen fuel_default (repeat no_key 120)) moon
       = Some (F32.of_int 360)
     /\ F32.ltb (mod360 (F32.of_int 360)) (mod360 (F32.of_int 357)) = true).
Proof. repeat split; vm_compute; reflexivity. Qed.

(** C4, at the moon, over three frames of [main] with LEFT pressed in the
    second (the speeds are 0.2, 0.1 and 0.1). *)
Lemma C4_angle_nondecreasing_witness :
  exists m' b',
    @main_loop flat_screen (root solar_system) fuel_default
      [no_key; press_LEFT; no_key] default_main = Ok m'
    /\ heap (st m') !! moon = Some b'
    /\ orbitPeriod b' = orbitPeriod moon_created
    /\ orbitPosition b'
       = angle_after (orbitPeriod moon_created)
           (speeds_of [no_key; press_LEFT; no_key] (rotationSpeed (st default_main)))
           (orbitPosition moon_created)
    /\ F32.leb (orbitPosition moon_created) (orbitPosition b') = true
    /\ angle_ok (orbitPosition b') = true.
Proof.
  apply (@C4_angle_nondecreasing flat_screen solar_system fuel_default
           [no_key; press_LEFT; no_key] default_main moon moon_created).
  - vm_compute. reflexivity.
  - vm_compute. lia.
  - apply (bool_decide_eq_true_1 (moon ∈ descendants solar_system)). vm_compute. reflexivity.
  - vm_compute. reflexivity.
  - vm_compute. reflexivity.
  - vm_compute. reflexivity.
  - vm_compute. reflexivity.
Defined.

(** C5, on the scene of [main], whose root has the period 0. *)
Lemma C5_no_zero_divisor_witness :
  exists s',
    @DrawBody flat_screen fuel_default (root solar_system) initial_camera (st default_main)
      = Ok s'
    /\ (forall b, heap (st default_main) !! root solar_system = Some b ->
          exists b', heap s' !! root solar_system = Some b'
                     /\ orbitPosition b' = orbitPosition b)
    /\ (forall q b, q ∉ descendants solar_system -> heap (st default_main) !! q = Some b ->
          exists b', heap s' !! q = Some b' /\ orbitPosition b' = orbitPosition b).
Proof.
  apply (@C5_no_zero_divisor flat_screen solar_system fuel_default initial_camera
           (st default_main)).
  - vm_compute. reflexivity.
  - vm_compute. lia.
Defined.

(** C6, on the scene of [main]. *)
Lemma C6_every_node_once_witness :
  (exists s',
      @DrawBody flat_screen fuel_default (root solar_system) initial_camera (st default_main)
        = Ok s'
      /\ visits InDrawBody (trace s')
         = visits InDrawBody (trace (st default_main)) ++ nodes solar_system)
  /\ (exists s',
      @DrawBodyLabel flat_screen fuel_default (root solar_system) (st default_main) = Ok s'
      /\ visits InDrawBodyLabel (trace s')
         = visits InDrawBodyLabel (trace (st default_main)) ++ nodes solar_system)
  /\ NoDup (nodes solar_system)
  /\ (forall inp, exists m',
        @frame flat_screen sun fuel_default inp default_main = Ok m'
        /\ length (visits InDrawBody (trace (st m'))) = 6%nat
        /\ length (visits InDrawBodyLabel (trace (st m')))
           = if showBodyLabels m' then 6%nat else 0%nat).
Proof.
  apply (@C6_every_node_once flat_screen solar_system fuel_default initial_camera
           (st default_main)).
  - vm_compute. reflexivity.
  - vm_compute. lia.
Defined.

(** C7, on the scene of [main] with the speed at zero, over three frames. *)
Lemma C7_zero_speed_is_identity_witness :
  exists m',
    @main_loop flat_screen (root solar_system) fuel_default [no_key; press_L; no_key] halted
      = Ok m'
    /\ forall q b, heap (st halted) !! q = Some b ->
         exists b', heap (st m') !! q = Some b'
           /\ orbitPosition b' = orbitPosition b
           /\ rotationPosition b' = rotationPosition b.
Proof.
  apply (@C7_zero_speed_is_identity flat_screen solar_system fuel_default
           [no_key; press_L; no_key] halted).
  - vm_compute. reflexivity.
  - vm_compute. lia.
  - vm_compute. reflexivity.
  - vm_compute. reflexivity.
  - vm_compute. reflexivity.
Defined.

(** C8, on the scene of [main]: labels toggled in the first frame or not. *)
Lemma C8_labels_do_not_move_bodies_witness :
  exists r1 r2,
    @main_loop flat_screen (root solar_system) fuel_default [press_L; no_key] default_main
      = Ok r1
    /\ @main_loop flat_screen (root solar_system) fuel_default [no_key; no_key] default_main
      = Ok r2
    /\ heap (st r1) = heap (st r2)
    /\ rotationSpeed (st r1) = rotationSpeed (st r2).
Proof.
  apply (proj2 (@C8_labels_do_not_move_bodies flat_screen) solar_system fuel_default
           [press_L; no_key] [no_key; no_key] default_main default_main).
  - vm_compute. reflexivity.
  - vm_compute. lia.
  - reflexivity.
  - reflexivity.
  - reflexivity.
  - reflexivity.
Defined.

(** C9, at the earth after two frames of [main]. *)
Lemma C9_rotationPosition_untouched_witness :
  match @main flat_screen fuel_default [no_key; press_LEFT] with
  | Ok m =>
      match heap (st m) !! earth with
      | Some b => rotationPosition b = S754_zero false
      | None => False
      end
  | Err _ => False
  end.
Proof.
  destruct (@main flat_screen fuel_default [no_key; press_LEFT]) as [m|] eqn:Hm;
    [|vm_compute in Hm; discriminate].
  destruct (heap (st m) !! earth) as [b|] eqn:Hb.
  - exact (proj2 (proj2 (proj2 (proj2 (@C9_rotationPosition_untouched flat_screen))))
             fuel_default [no_key; press_LEFT] m earth b Hm Hb).
  - vm_compute in Hm. injection Hm as <-. vm_compute in Hb. discriminate.
Defined.

(** C10, at two bodies of [main]: the sun's radius 0.2f is stored as 2,
    the moon's radius 0.02f as the binary32 number next below 0.2f (the
    product is rounded). *)
Example CreateBody_radius_of_sun_and_moon :
  radius (CreateBody (flit 2 10) (flit 0 10) (F32.of_int 0) "sun" "2k_sun") = F32.of_int 2
  /\ radius moon_created = S754_finite false 13421772 (-26)
  /\ flit 2 10 = S754_finite false 13421773 (-26).
Proof. repeat split; vm_compute; reflexivity. Qed.

(** A child with the period zero is the caller's fault: the traversal
    stops at the division. *)
Example zero_period_child_faults :
  @DrawBody flat_screen 3 0%nat initial_camera
    {| heap := <[1%nat := CreateBody f1 f1 (F32.of_int 0) "b" "b"]>
               (<[0%nat := set_children (<[0%nat := Some 1%nat]> no_children) 1
                              (CreateBody f1 f1 (F32.of_int 0) "a" "a")]> ∅);
       rotationSpeed := flit 2 10; matrix := []; matrixStack := []; trace := [] |}
  = Err DivisionByZero.
Proof. vm_compute. reflexivity. Qed.

(** * More of the example *)

(** ** The events of the traversals *)

Section Events.
Context `{Raylib}.

Lemma passed_refl s : passed [] (heap s) s s.
Proof. split; auto using app_nil_r. Qed.

Lemma passed_trans evs1 evs2 h1 h2 s1 s2 s3 :
  passed evs1 h1 s1 s2 -> passed evs2 h2 s2 s3 -> passed (evs1 ++ evs2) h2 s1 s3.
Proof.
  intros [a1 a2 a3 a4 a5] [b1 b2 b3 b4 b5]. split; try congruence.
  now rewrite b5, a5, app_assoc.
Qed.

Lemma kids_trace_cons rec dh S mx k kids h0 :
  kids_trace rec dh S mx (k :: kids) h0
  = rec k (alter (advance S) (root k) h0)
      (mx ++ orbit_of (alter (advance S) (root k) h0) (root k))
    ++ ring_event (dh k (alter (advance S) (root k) h0)) (root k) mx
    ++ kids_trace rec dh S mx kids (dh k (alter (advance S) (root k) h0)).
Proof. reflexivity. Qed.

Lemma draw_trace_Node cam S p kids h0 mx :
  draw_trace cam S (Node p kids) h0 mx
  = E_Enter InDrawBody p :: model_event h0 p mx
    ++ kids_trace (draw_trace cam S) (draw_heap cam S) S mx kids (alter (anchor cam) p h0).
Proof. reflexivity. Qed.

Lemma DrawBody_self_passed p cam s b :
  heap s !! p = Some b ->
  exists s', DrawBody_self p cam s = Ok s'
    /\ passed (E_Enter InDrawBody p :: model_event (heap s) p (matrix s))
         (alter (anchor cam) p (heap s)) s s'.
Proof.
  intros Hp. unfold DrawBody_self, load, model_event. simpl. rewrite Hp. simpl.
  eexists. split; [reflexivity|]. split; simpl; try reflexivity.
  - apply (insert_as_alter _ _ _ (anchor cam) Hp).
  - now rewrite <- app_assoc.
Qed.

Lemma DrawBody_child_passed rec cam p i s b k :
  heap s !! p = Some b ->
  (i < 10)%nat ->
  children b !! i = Some (Some (root k)) ->
  is_tree_at (heap s) k = true ->
  forallb (period_ok (heap s)) (nodes k) = true ->
  traces_subtree rec cam k ->
  let h1 := alter (advance (rotationSpeed s)) (root k) (heap s) in
  exists s', DrawBody_child rec p cam (Z.of_nat i) s = Ok s'
    /\ passed (draw_trace cam (rotationSpeed s) k h1 (matrix s ++ orbit_of h1 (root k))
               ++ ring_event (draw_heap cam (rotationSpeed s) k h1) (root k) (matrix s))
         (draw_heap cam (rotationSpeed s) k h1) s s'.
Proof.
  intros Hp Hi Hc Ht Hper Hrec h1.
  destruct (is_tree_at_lookup _ _ Ht) as [c Hk].
  assert (Hz : F32.is_zero (orbitPeriod c) = false).
  { destruct k as [q kids]. simpl in Hper, Hk. apply andb_prop in Hper as [Hq _].
    unfold period_ok in Hq. rewrite Hk in Hq. now apply negb_true_iff in Hq. }
  assert (Hdesc : forallb (period_ok (heap s)) (descendants k) = true).
  { destruct k as [q kids]. simpl in Hper |- *. now apply andb_prop in Hper as [_ ?]. }
  unfold DrawBody_child.
  rewrite (load_Some _ _ _ Hp). simpl.
  rewrite (child_at_Some _ _ _ Hi Hc). simpl.
  rewrite (load_Some _ _ _ Hk). simpl.
  unfold fdiv. rewrite Hz. simpl.
  set (c' := set_orbitPosition _ c).
  assert (Eh : <[root k := c']> (heap s) = h1).
  { apply (insert_as_alter _ _ _ (advance (rotationSpeed s)) Hk). }
  assert (Ho : orbit_of h1 (root k) = orbit_ops c').
  { unfold orbit_of. now rewrite <- Eh, lookup_insert_eq. }
  unfold load at 1. simpl. rewrite lookup_insert_eq. simpl.
  match goal with |- context [rec (root k) cam ?x] => set (s2 := x) end.
  assert (E2 : same_skeleton (heap s) (heap s2)).
  { simpl. now apply same_skeleton_insert with (b := c). }
  destruct (Hrec s2) as (s3 & Hs3 & D3).
  { now rewrite <- (is_tree_at_skeleton _ _ k E2). }
  { rewrite <- Hdesc. apply forallb_agree. intros q. symmetry. now apply period_ok_skeleton. }
  rewrite Hs3. simpl.
  destruct D3 as [D3h D3s D3m D3k D3t]. simpl in D3h, D3s, D3m, D3k, D3t.
  assert (E3 : same_skeleton (heap s2) (heap s3)).
  { rewrite D3h. apply draw_heap_skeleton. }
  destruct (same_skeleton_lookup _ _ _ _ (transitivity E2 E3) Hk) as (c3 & Hc3 & _).
  unfold rlPopMatrix. rewrite D3k. simpl.
  unfold load. simpl. rewrite Hc3. simpl.
  eexists. split; [reflexivity|].
  rewrite Eh in D3h, D3t.
  split; simpl.
  - exact D3h.
  - exact D3s.
  - reflexivity.
  - reflexivity.
  - rewrite D3t, <- app_assoc. f_equal. f_equal.
    + rewrite Ho. unfold orbit_ops. simpl. now rewrite <- !app_assoc.
    + unfold ring_event. now rewrite <- D3h, Hc3.
Qed.

Lemma DrawBody_loop_passed rec cam p :
  forall rest done s n,
    is_tree_at (heap s) (Node p (done ++ rest)) = true ->
    forallb (period_ok (heap s)) (flat_map nodes rest) = true ->
    Forall (traces_subtree rec cam) rest ->
    (length rest < n)%nat ->
    exists s',
      for_loop (more_children p) (DrawBody_child rec p cam) n
               (Z.of_nat (length done)) s = Ok s'
      /\ passed (kids_trace (draw_trace cam (rotationSpeed s))
                   (draw_heap cam (rotationSpeed s)) (rotationSpeed s) (matrix s)
                   rest (heap s))
           (fold_left
              (fun h k => draw_heap cam (rotationSpeed s) k
                            (alter (advance (rotationSpeed s)) (root k) h))
              rest (heap s)) s s'.
Proof.
  induction rest as [|k rest IH]; intros done s n Ht Hper Hrec Hn.
  - destruct n as [|n]; [simpl in Hn; lia|].
    destruct (is_tree_at_inv _ _ _ Ht) as (b & Hp & _ & Hcount & _).
    simpl. rewrite (more_children_Some _ _ _ _ Hp). simpl.
    rewrite app_nil_r in Hcount. rewrite Hcount, Z.ltb_irrefl.
    eexists. split; [reflexivity|]. apply passed_refl.
  - destruct n as [|n]; [simpl in Hn; lia|].
    destruct (is_tree_at_inv _ _ _ Ht) as (b & Hp & Hlen & Hcount & Hkids & Hsub).
    rewrite length_app in Hlen, Hcount. simpl in Hlen, Hcount.
    cbn [for_loop]. rewrite (more_children_Some _ _ _ _ Hp). cbn [bind].
    replace (Z.of_nat (length done) <? childrenCount b) with true
      by (symmetry; apply Z.ltb_lt; lia).
    cbn [flat_map] in Hper. rewrite forallb_app in Hper.
    apply andb_prop in Hper as [Hperk Hperr].
    inversion Hrec as [|? ? Hreck Hrecr]; subst.
    destruct (DrawBody_child_passed rec cam p (length done) s b k) as (s1 & Hs1 & D1); auto.
    { lia. }
    { apply Hkids. rewrite lookup_app_r by lia. now rewrite Nat.sub_diag. }
    { rewrite Forall_app in Hsub. destruct Hsub as [_ Hsub]. now inversion Hsub. }
    rewrite Hs1. cbn [bind].
    assert (E1 : same_skeleton (heap s) (heap s1)).
    { rewrite (passed_heap _ _ _ _ D1). etransitivity; [|apply draw_heap_skeleton].
      apply same_skeleton_alter, skeleton_advance. }
    destruct (IH (done ++ [k]) s1 n) as (s2 & Hs2 & D2).
    { rewrite <- app_assoc, <- (is_tree_at_skeleton _ _ _ E1). exact Ht. }
    { rewrite <- Hperr. apply forallb_agree. intros q. symmetry. now apply period_ok_skeleton. }
    { exact Hrecr. }
    { simpl in Hn. lia. }
    rewrite length_app in Hs2. cbn [length] in Hs2.
    replace (Z.of_nat (length done) + 1) with (Z.of_nat (length done + 1)) by lia.
    rewrite Hs2. eexists. split; [reflexivity|].
    rewrite (passed_speed _ _ _ _ D1), (passed_heap _ _ _ _ D1),
      (passed_matrix _ _ _ _ D1) in D2.
    rewrite kids_trace_cons. cbn [fold_left].
    rewrite app_assoc. exact (passed_trans _ _ _ _ _ _ _ D1 D2).
Qed.

Lemma DrawBody_passed cam t :
  forall fuel s,
    is_tree_at (heap s) t = true ->
    forallb (period_ok (heap s)) (descendants t) = true ->
    (fuel_for t <= fuel)%nat ->
    exists s', DrawBody fuel (root t) cam s = Ok s'
      /\ passed (draw_trace cam (rotationSpeed s) t (heap s) (matrix s))
           (draw_heap cam (rotationSpeed s) t (heap s)) s s'.
Proof.
  induction t as [p kids IH] using tree_induction. intros fuel s Ht Hper Hfuel.
  destruct fuel as [|fuel]; [simpl in Hfuel; lia|].
  destruct (fuel_for_kids _ _ _ Hfuel) as [Hlen Hkf].
  destruct (is_tree_at_lookup _ _ Ht) as [b Hp]. simpl in Hp.
  destruct (DrawBody_self_passed p cam s b Hp) as (s1 & Hs1 & D1).
  cbn [root]. rewrite DrawBody_S, Hs1. cbn [bind].
  assert (E1 : same_skeleton (heap s) (heap s1)).
  { rewrite (passed_heap _ _ _ _ D1). apply same_skeleton_alter, skeleton_anchor. }
  destruct (DrawBody_loop_passed (DrawBody fuel) cam p kids [] s1 fuel) as (s2 & Hs2 & D2).
  - rewrite <- (is_tree_at_skeleton _ _ _ E1). exact Ht.
  - simpl in Hper. rewrite <- Hper. apply forallb_agree. intros q. symmetry.
    now apply period_ok_skeleton.
  - rewrite Forall_forall in IH, Hkf |- *. intros k Hk s' Hts Hps.
    apply IH; auto.
  - exact Hlen.
  - change (Z.of_nat (length [])) with 0 in Hs2. rewrite Hs2. eexists. split; [reflexivity|].
    rewrite (passed_speed _ _ _ _ D1), (passed_heap _ _ _ _ D1),
      (passed_matrix _ _ _ _ D1) in D2.
    rewrite draw_trace_Node.
    change (E_Enter InDrawBody p :: model_event (heap s) p (matrix s) ++ ?x)
      with ((E_Enter InDrawBody p :: model_event (heap s) p (matrix s)) ++ x).
    exact (passed_trans _ _ _ _ _ _ _ D1 D2).
Qed.

(** *** The label pass *)

Lemma DrawBodyLabel_self_passed p s b :
  heap s !! p = Some b ->
  exists s', DrawBodyLabel_self p s = Ok s'
    /\ passed (E_Enter InDrawBodyLabel p :: text_event (heap s) p) (heap s) s s'.
Proof.
  intros Hp. unfold DrawBodyLabel_self, load, text_event. simpl. rewrite Hp. simpl.
  eexists. split; [reflexivity|]. split; simpl; try reflexivity.
  now rewrite <- app_assoc.
Qed.

Lemma DrawBodyLabel_loop_passed rec p :
  forall rest done s n,
    is_tree_at (heap s) (Node p (done ++ rest)) = true ->
    Forall (writes_subtree rec) rest ->
    (length rest < n)%nat ->
    exists s',
      for_loop (more_children p) (DrawBodyLabel_child rec p) n
               (Z.of_nat (length done)) s = Ok s'
      /\ passed (flat_map (label_trace (heap s)) rest) (heap s) s s'.
Proof.
  induction rest as [|k rest IH]; intros done s n Ht Hrec Hn.
  - destruct n as [|n]; [simpl in Hn; lia|].
    destruct (is_tree_at_inv _ _ _ Ht) as (b & Hp & _ & Hcount & _).
    cbn [for_loop]. rewrite (more_children_Some _ _ _ _ Hp). cbn [bind].
    rewrite app_nil_r in Hcount. rewrite Hcount, Z.ltb_irrefl.
    eexists. split; [reflexivity|]. apply passed_refl.
  - destruct n as [|n]; [simpl in Hn; lia|].
    destruct (is_tree_at_inv _ _ _ Ht) as (b & Hp & Hlen & Hcount & Hkids & Hsub).
    rewrite length_app in Hlen, Hcount. cbn [length] in Hlen, Hcount.
    cbn [for_loop]. rewrite (more_children_Some _ _ _ _ Hp). cbn [bind].
    replace (Z.of_nat (length done) <? childrenCount b) with true
      by (symmetry; apply Z.ltb_lt; lia).
    inversion Hrec as [|? ? Hreck Hrecr]; subst.
    unfold DrawBodyLabel_child at 1. rewrite (load_Some _ _ _ Hp). cbn [bind].
    rewrite (child_at_Some b (length done) (root k)); [|lia|].
    2:{ apply Hkids. rewrite lookup_app_r by lia. now rewrite Nat.sub_diag. }
    cbn [bind].
    destruct (Hreck s) as (s1 & Hs1 & D1).
    { rewrite Forall_app in Hsub. destruct Hsub as [_ Hsub]. now inversion Hsub. }
    rewrite Hs1. cbn [bind].
    destruct (IH (done ++ [k]) s1 n) as (s2 & Hs2 & D2).
    { rewrite <- app_assoc, (passed_heap _ _ _ _ D1). exact Ht. }
    { exact Hrecr. }
    { simpl in Hn. lia. }
    rewrite length_app in Hs2. cbn [length] in Hs2.
    replace (Z.of_nat (length done) + 1) with (Z.of_nat (length done + 1)) by lia.
    rewrite Hs2. eexists. split; [reflexivity|].
    rewrite (passed_heap _ _ _ _ D1) in D2.
    cbn [flat_map]. exact (passed_trans _ _ _ _ _ _ _ D1 D2).
Qed.

Lemma DrawBodyLabel_passed t :
  forall fuel s,
    is_tree_at (heap s) t = true ->
    (fuel_for t <= fuel)%nat ->
    exists s', DrawBodyLabel fuel (root t) s = Ok s'
      /\ passed (label_trace (heap s) t) (heap s) s s'.
Proof.
  induction t as [p kids IH] using tree_induction. intros fuel s Ht Hfuel.
  destruct fuel as [|fuel]; [simpl in Hfuel; lia|].
  destruct (fuel_for_kids _ _ _ Hfuel) as [Hlen Hkf].
  destruct (is_tree_at_lookup _ _ Ht) as [b Hp]. simpl in Hp.
  destruct (DrawBodyLabel_self_passed p s b Hp) as (s1 & Hs1 & D1).
  cbn [root]. rewrite DrawBodyLabel_S, Hs1. cbn [bind].
  destruct (DrawBodyLabel_loop_passed (DrawBodyLabel fuel) p kids [] s1 fuel)
    as (s2 & Hs2 & D2).
  - rewrite (passed_heap _ _ _ _ D1). exact Ht.
  - rewrite Forall_forall in IH, Hkf |- *. intros k Hk s' Hts. apply IH; auto.
  - exact Hlen.
  - change (Z.of_nat (length [])) with 0 in Hs2. rewrite Hs2. eexists.
    split; [reflexivity|].
    rewrite (passed_heap _ _ _ _ D1) in D2.
    cbn [label_trace].
    change (E_Enter InDrawBodyLabel p :: text_event (heap s) p ++ ?x)
      with ((E_Enter InDrawBodyLabel p :: text_event (heap s) p) ++ x).
    exact (passed_trans _ _ _ _ _ _ _ D1 D2).
Qed.

End Events.

(** ** The events of a draw pass, read off the bodies it leaves *)

Lemma flat_map_agree {A B} (f g : A -> list B) (l : list A) :
  Forall (fun x => f x = g x) l -> flat_map f l = flat_map g l.
Proof. induction 1 as [|x l Hx _ IH]; simpl; [reflexivity | now rewrite Hx, IH]. Qed.

Lemma fmap_same {A} (x : option A) : (fun b => b) <$> x = x.
Proof. now destruct x. Qed.

Lemma is_tree_at_nodes h0 t :
  is_tree_at h0 t = true -> forall q, q ∈ nodes t -> is_Some (h0 !! q).
Proof.
  induction t as [p kids IH] using tree_induction. intros Ht q Hq.
  destruct (is_tree_at_inv _ _ _ Ht) as (b & Hp & _ & _ & _ & Hsub).
  cbn [nodes] in Hq. apply elem_of_cons in Hq as [->|Hq]; [eauto|].
  apply list_elem_of_In, in_flat_map in Hq as (k & Hk & Hq).
  rewrite Forall_forall in IH, Hsub.
  apply list_elem_of_In in Hk, Hq. eapply IH; eauto.
Qed.

Lemma events_agree h1 h2 t :
  forall mx, (forall q, q ∈ nodes t -> h1 !! q = h2 !! q) ->
    events h1 t mx = events h2 t mx.
Proof.
  induction t as [p kids IH] using tree_induction. intros mx Hag.
  cbn [events]. f_equal.
  assert (Hp : h1 !! p = h2 !! p) by (apply Hag; cbn [nodes]; left).
  unfold model_event. rewrite Hp. f_equal.
  apply flat_map_agree. rewrite Forall_forall in IH |- *. intros k Hk.
  assert (Hin : forall q, q ∈ nodes k -> q ∈ nodes (Node p kids)).
  { intros q Hq. cbn [nodes]. right. apply list_elem_of_In, in_flat_map.
    exists k. split; apply list_elem_of_In; assumption. }
  assert (Hr : h1 !! root k = h2 !! root k) by (apply Hag, Hin, root_in_nodes).
  unfold orbit_of, ring_event. rewrite Hr. f_equal.
  apply IH; [exact Hk|]. intros q Hq. apply Hag, Hin, Hq.
Qed.

Section Events.
Context `{Raylib}.

Lemma draw_kids_keep cam S kids h0 q :
  NoDup (flat_map nodes kids) -> q ∉ flat_map nodes kids ->
  fold_left (fun h k => draw_heap cam S k (alter (advance S) (root k) h)) kids h0 !! q
  = h0 !! q.
Proof.
  intros Hn Hq. rewrite draw_kids_lookup; [|apply Forall_forall; intros k _ h1 q1;
                                             apply draw_heap_lookup | exact Hn].
  rewrite decide_False by exact Hq. apply fmap_same.
Qed.

Lemma kids_trace_events cam S mx kids :
  Forall (fun k => forall h0 mx, NoDup (nodes k) ->
            draw_trace cam S k h0 mx = events (draw_heap cam S k h0) k mx) kids ->
  NoDup (flat_map nodes kids) ->
  forall h0,
    kids_trace (draw_trace cam S) (draw_heap cam S) S mx kids h0
    = flat_map
        (fun k =>
           let hF := fold_left (fun h k => draw_heap cam S k (alter (advance S) (root k) h))
                       kids h0 in
           events hF k (mx ++ orbit_of hF (root k)) ++ ring_event hF (root k) mx)
        kids.
Proof.
  induction 1 as [|k kids Hk Hkids IH]; intros Hn h0; [reflexivity|].
  cbn [flat_map] in Hn. apply NoDup_app in Hn as (Hnk & Hdis & Hnr).
  rewrite kids_trace_cons. cbn [flat_map fold_left].
  set (h1 := alter (advance S) (root k) h0).
  set (h2 := draw_heap cam S k h1).
  set (hF := fold_left _ kids h2).
  assert (Hkeep : forall q, q ∈ nodes k -> hF !! q = h2 !! q).
  { intros q Hq. apply draw_kids_keep; [exact Hnr | now apply Hdis]. }
  assert (Hroot : h2 !! root k = anchor cam <$> h1 !! root k).
  { unfold h2. rewrite draw_heap_lookup by exact Hnk. unfold pass_effect.
    destruct (h1 !! root k); [|reflexivity]. simpl. now rewrite decide_True. }
  assert (Ho : orbit_of h1 (root k) = orbit_of hF (root k)).
  { unfold orbit_of. rewrite (Hkeep _ (root_in_nodes k)), Hroot.
    now destruct (h1 !! root k). }
  rewrite (Hk h1 _ Hnk). fold h2. rewrite Ho.
  rewrite (events_agree h2 hF k) by (intros q Hq; symmetry; now apply Hkeep).
  assert (Hring : ring_event h2 (root k) mx = ring_event hF (root k) mx).
  { unfold ring_event. now rewrite (Hkeep _ (root_in_nodes k)). }
  rewrite Hring, <- app_assoc. f_equal. f_equal.
  rewrite (IH Hnr h2). reflexivity.
Qed.

(** On a tree without shared bodies, the events of the pass are those
    read off the bodies it leaves. *)
Lemma draw_trace_events cam S t :
  forall h0 mx, NoDup (nodes t) ->
    draw_trace cam S t h0 mx = events (draw_heap cam S t h0) t mx.
Proof.
  induction t as [p kids IH] using tree_induction. intros h0 mx Hn.
  cbn [nodes] in Hn. apply NoDup_cons in Hn as [Hp Hn].
  rewrite draw_trace_Node. cbn [events draw_heap]. f_equal.
  set (hF := fold_left _ kids (alter (anchor cam) p h0)).
  assert (HFp : hF !! p = anchor cam <$> h0 !! p).
  { unfold hF. rewrite draw_kids_keep by assumption.
    rewrite lookup_alter. now rewrite decide_True. }
  assert (Hm : model_event h0 p mx = model_event hF p mx).
  { unfold model_event. rewrite HFp. now destruct (h0 !! p). }
  rewrite Hm. f_equal.
  rewrite (kids_trace_events cam S mx kids) by assumption. reflexivity.
Qed.

End Events.

(** *** Models and rings among the events *)

Lemma filter_flat_map {A B} (f : B -> bool) (g : A -> list B) (l : list A) :
  List.filter f (flat_map g l) = flat_map (fun x => List.filter f (g x)) l.
Proof.
  induction l as [|x l IH]; simpl; [reflexivity|]. now rewrite List.filter_app, IH.
Qed.

Lemma Forall2_flat_map {A B C} (P : B -> C -> Prop) (f : A -> list B) (g : A -> list C) l :
  Forall (fun x => Forall2 P (f x) (g x)) l -> Forall2 P (flat_map f l) (flat_map g l).
Proof.
  induction 1 as [|x l Hx _ IH]; simpl; [constructor | now apply Forall2_app].
Qed.

Lemma filter_ring_event f h0 c mx :
  (forall e, is_DrawCircle3D e = true -> f e = false) ->
  List.filter f (ring_event h0 c mx) = [].
Proof.
  intros Hf. unfold ring_event. destruct (h0 !! c); [|reflexivity].
  simpl. now rewrite Hf.
Qed.

Lemma filter_model_event f h0 p mx :
  (forall e, is_DrawModel e = true -> f e = false) ->
  List.filter f (model_event h0 p mx) = [].
Proof.
  intros Hf. unfold model_event. destruct (h0 !! p); [|reflexivity].
  simpl. now rewrite Hf.
Qed.

Lemma in_kid p kids k q : k ∈ kids -> q ∈ nodes k -> q ∈ nodes (Node p kids).
Proof.
  intros Hk Hq. cbn [nodes]. right. apply list_elem_of_In, in_flat_map.
  exists k. split; now apply list_elem_of_In.
Qed.

Lemma events_models h0 t :
  forall mx, (forall q, q ∈ nodes t -> is_Some (h0 !! q)) ->
    Forall2 (is_model_of h0) (List.filter is_DrawModel (events h0 t mx)) (placed h0 t mx).
Proof.
  induction t as [p kids IH] using tree_induction. intros mx Hall.
  destruct (Hall p) as [b Hb]; [cbn [nodes]; left|].
  cbn [events placed List.filter is_DrawModel]. rewrite List.filter_app.
  unfold model_event at 1. rewrite Hb. cbn [List.filter is_DrawModel app].
  constructor; [exists b; auto|].
  rewrite filter_flat_map. apply Forall2_flat_map.
  rewrite Forall_forall in IH |- *. intros k Hk.
  rewrite List.filter_app, filter_ring_event, app_nil_r by (now intros []).
  apply IH; [exact Hk|]. intros q Hq. apply Hall. eapply in_kid; eauto.
Qed.

Lemma events_rings h0 t :
  forall mx, (forall q, q ∈ nodes t -> is_Some (h0 !! q)) ->
    Forall2 (is_ring_of h0) (List.filter is_DrawCircle3D (events h0 t mx)) (ringed h0 t mx).
Proof.
  induction t as [p kids IH] using tree_induction. intros mx Hall.
  cbn [events ringed List.filter is_DrawCircle3D]. rewrite List.filter_app.
  rewrite filter_model_event by (now intros []). cbn [app].
  rewrite filter_flat_map. apply Forall2_flat_map.
  rewrite Forall_forall in IH |- *. intros k Hk.
  rewrite List.filter_app. apply Forall2_app.
  - apply IH; [exact Hk|]. intros q Hq. apply Hall. eapply in_kid; eauto.
  - destruct (Hall (root k)) as [c Hc]; [eapply in_kid; eauto using root_in_nodes|].
    unfold ring_event. rewrite Hc. cbn [List.filter is_DrawCircle3D].
    constructor; [exists c; auto | constructor].
Qed.

Lemma events_in_3D h0 t : forall mx, forallb in_3D (events h0 t mx) = true.
Proof.
  induction t as [p kids IH] using tree_induction. intros mx.
  cbn [events forallb in_3D andb]. rewrite forallb_app. apply andb_true_intro. split.
  - unfold model_event. now destruct (h0 !! p).
  - apply forallb_forall. intros e He. apply in_flat_map in He as (k & Hk & He).
    rewrite Forall_forall in IH. apply list_elem_of_In in Hk.
    apply in_app_or in He as [He|He].
    + specialize (IH k Hk (mx ++ orbit_of h0 (root k))).
      rewrite forallb_forall in IH. now apply IH.
    + unfold ring_event in He. destruct (h0 !! root k); [|destruct He].
      destruct He as [<-|[]]. reflexivity.
Qed.

Lemma Forall2_in_r {A B} (P : A -> B -> Prop) l k :
  Forall2 P l k -> Forall2 (fun x y => P x y /\ y ∈ k) l k.
Proof.
  intros HF.
  enough (forall k0, (forall y, y ∈ k -> y ∈ k0) ->
            Forall2 (fun x y => P x y /\ y ∈ k0) l k) as Hgen by (apply Hgen; auto).
  induction HF as [|x y l k Hxy _ IH]; intros k0 Hsub; constructor.
  - split; [exact Hxy | apply Hsub; left].
  - apply IH. intros z Hz. apply Hsub. now right.
Qed.

Section Labels.
Context `{Raylib}.

Lemma label_trace_in_labels h0 t : forallb in_labels (label_trace h0 t) = true.
Proof.
  induction t as [p kids IH] using tree_induction.
  cbn [label_trace forallb in_labels andb]. rewrite forallb_app. apply andb_true_intro. split.
  - unfold text_event. now destruct (h0 !! p).
  - apply forallb_forall. intros e He. apply in_flat_map in He as (k & Hk & He).
    rewrite Forall_forall in IH. apply list_elem_of_In in Hk. specialize (IH k Hk).
    rewrite forallb_forall in IH. now apply IH.
Qed.

Lemma label_trace_texts h0 t :
  (forall q, q ∈ nodes t -> is_Some (h0 !! q)) ->
  Forall2 (is_label_of h0) (List.filter is_DrawText (label_trace h0 t)) (nodes t).
Proof.
  induction t as [p kids IH] using tree_induction. intros Hall.
  destruct (Hall p) as [b Hb]; [cbn [nodes]; left|].
  cbn [label_trace nodes List.filter is_DrawText]. rewrite List.filter_app.
  unfold text_event at 1. rewrite Hb. cbn [List.filter is_DrawText label_text app].
  constructor; [exists b; auto|].
  rewrite filter_flat_map. apply Forall2_flat_map.
  rewrite Forall_forall in IH |- *. intros k Hk.
  apply IH; [exact Hk|]. intros q Hq. apply Hall. eapply in_kid; eauto.
Qed.

End Labels.

(** ** The matrix stack and the locals of [main], on any heap *)

Section Frames.
Context `{Raylib}.

Lemma DrawBody_balanced fuel cam :
  forall p s s', DrawBody fuel p cam s = Ok s' ->
    matrix s' = matrix s /\ matrixStack s' = matrixStack s.
Proof.
  induction fuel as [|fuel IH]; intros p s s' Hd; [discriminate|].
  rewrite DrawBody_S in Hd. apply bind_Ok in Hd as (s1 & H1 & Hl).
  unfold DrawBody_self in H1. apply bind_Ok in H1 as (b & Hb & H1).
  apply bind_Ok in H1 as (b' & Hb' & H1). injection H1 as <-.
  apply (for_loop_preserves
           (fun s s' => matrix s' = matrix s /\ matrixStack s' = matrixStack s)) in Hl.
  - exact Hl.
  - auto.
  - intros ? ? ? [? ?] [? ?]. split; congruence.
  - intros i s2 s3 Hc. unfold DrawBody_child in Hc.
    apply bind_Ok in Hc as (b2 & _ & Hc). apply bind_Ok in Hc as (c & _ & Hc).
    apply bind_Ok in Hc as (cb & Hcb & Hc). apply bind_Ok in Hc as (step & _ & Hc).
    apply bind_Ok in Hc as (cb' & _ & Hc). apply bind_Ok in Hc as (s4 & Hrec & Hc).
    apply bind_Ok in Hc as (cb3 & _ & Hc). injection Hc as <-.
    apply IH in Hrec as [Hr1 Hr2]. simpl in Hr1, Hr2.
    unfold rlPopMatrix. rewrite Hr2. simpl. auto.
Qed.

Lemma DrawBodyLabel_balanced fuel :
  forall p s s', DrawBodyLabel fuel p s = Ok s' ->
    matrix s' = matrix s /\ matrixStack s' = matrixStack s.
Proof.
  induction fuel as [|fuel IH]; intros p s s' Hd; [discriminate|].
  rewrite DrawBodyLabel_S in Hd. apply bind_Ok in Hd as (s1 & H1 & Hl).
  unfold DrawBodyLabel_self in H1. apply bind_Ok in H1 as (b & _ & H1).
  injection H1 as <-.
  apply (for_loop_preserves
           (fun s s' => matrix s' = matrix s /\ matrixStack s' = matrixStack s)) in Hl.
  - exact Hl.
  - auto.
  - intros ? ? ? [? ?] [? ?]. split; congruence.
  - intros i s2 s3 Hc. unfold DrawBodyLabel_child in Hc.
    apply bind_Ok in Hc as (b2 & _ & Hc). apply bind_Ok in Hc as (c & _ & Hc). eauto.
Qed.

Lemma frame_locals root fuel inp m m' :
  frame root fuel inp m = Ok m' ->
  camera m' = UpdateCamera (pointer inp) (camera m)
  /\ showHelpMenu m' = (if KEY_H inp then negb (showHelpMenu m) else showHelpMenu m)
  /\ showBodyLabels m' = (if KEY_L inp then negb (showBodyLabels m) else showBodyLabels m)
  /\ rotationSpeed (st m') = speed_after inp (rotationSpeed (st m))
  /\ matrixStack (st m') = matrixStack (st m).
Proof.
  unfold frame. intros Hf. apply bind_Ok in Hf as (s1 & H1 & Hf).
  apply bind_Ok in Hf as (s2 & H2 & Hf). injection Hf as <-.
  pose proof (DrawBody_balanced _ _ _ _ _ H1) as [_ K1].
  apply DrawBody_writes_only in H1 as [_ E1]. simpl in E1, K1.
  assert (E2 : rotationSpeed s2 = rotationSpeed s1 /\ matrixStack s2 = matrixStack s1).
  { destruct (if KEY_L inp then _ else _).
    - pose proof (DrawBodyLabel_balanced _ _ _ _ H2) as [_ K2].
      apply DrawBodyLabel_reads_only in H2 as [_ E2]. simpl in E2, K2. auto.
    - injection H2 as <-. auto. }
  destruct E2 as [E2 K2].
  destruct (if KEY_H inp then _ else _); simpl; rewrite E2, E1, K2, K1; auto.
Qed.

Lemma main_loop_locals root fuel inputs :
  forall m m', main_loop root fuel inputs m = Ok m' ->
    camera m' = fold_left (fun c inp => UpdateCamera (pointer inp) c) inputs (camera m)
    /\ showHelpMenu m'
       = xorb (showHelpMenu m) (Nat.odd (length (List.filter KEY_H inputs)))
    /\ showBodyLabels m'
       = xorb (showBodyLabels m) (Nat.odd (length (List.filter KEY_L inputs)))
    /\ rotationSpeed (st m')
       = fold_left (fun x inp => speed_after inp x) inputs (rotationSpeed (st m))
    /\ matrixStack (st m') = matrixStack (st m).
Proof.
  induction inputs as [|inp inputs IH]; intros m m' Hl.
  - injection Hl as <-. cbn. now rewrite !xorb_false_r.
  - cbn [main_loop] in Hl. apply bind_Ok in Hl as (m1 & H1 & Hl).
    apply frame_locals in H1 as (Hc & Hh & Hb & Hs & Hk).
    apply IH in Hl as (Hc' & Hh' & Hb' & Hs' & Hk').
    cbn [fold_left List.filter]. rewrite <- Hc, <- Hs, Hk', Hk.
    split; [exact Hc'|]. split; [|split; [|split; [exact Hs' | reflexivity]]].
    + rewrite Hh', Hh. destruct (KEY_H inp); [|reflexivity].
      cbn [length]. rewrite Nat.odd_succ, <- Nat.negb_odd.
      now destruct (showHelpMenu m), (Nat.odd (length (List.filter KEY_H inputs))).
    + rewrite Hb', Hb. destruct (KEY_L inp); [|reflexivity].
      cbn [length]. rewrite Nat.odd_succ, <- Nat.negb_odd.
      now destruct (showBodyLabels m), (Nat.odd (length (List.filter KEY_L inputs))).
Qed.

(** ** A zero period below the root *)





End Frames.

(** ** The bodies after a run *)

Lemma speeds_of_keys inputs1 :
  forall inputs2 S,
    map speed_keys inputs1 = map speed_keys inputs2 ->
    speeds_of inputs1 S = speeds_of inputs2 S
    /\ fold_left (fun x inp => speed_after inp x) inputs1 S
       = fold_left (fun x inp => speed_after inp x) inputs2 S.
Proof.
  induction inputs1 as [|i1 inputs1 IH]; intros [|i2 inputs2] S Hk; try discriminate.
  - auto.
  - cbn [map] in Hk. unfold speed_keys at 1 3 in Hk. injection Hk as Hl Hr Hk2.
    assert (E : speed_after i1 S = speed_after i2 S).
    { unfold speed_after. now rewrite Hl, Hr. }
    cbn [speeds_of fold_left]. rewrite E.
    destruct (IH inputs2 (speed_after i2 S) Hk2) as [-> ->]. auto.
Qed.

Lemma accumulate_add n1 n2 step a :
  accumulate (n1 + n2) step a = accumulate n2 step (accumulate n1 step a).
Proof.
  revert a. induction n1 as [|n1 IH]; intros a; [reflexivity|].
  cbn [Nat.add]. now rewrite !accumulate_S, IH.
Qed.

Section After.
Context `{Raylib}.

(** The angle of every body after a run on a tree without shared bodies,
    from its angle before. *)
Lemma heap_after_orbitPosition t :
  NoDup (nodes t) ->
  forall inputs cam S h0 q,
    orbitPosition <$> heap_after t inputs cam S h0 !! q
    = (fun b => if decide (q ∈ descendants t)
                then angle_after (orbitPeriod b) (speeds_of inputs S) (orbitPosition b)
                else orbitPosition b) <$> h0 !! q.
Proof.
  intros Hn. induction inputs as [|inp inputs IH]; intros cam S h0 q.
  - cbn [heap_after speeds_of angle_after fold_left]. destruct (h0 !! q); [|reflexivity].
    simpl. now destruct (decide _).
  - cbn [heap_after speeds_of]. rewrite IH, draw_heap_lookup by exact Hn.
    destruct (h0 !! q) as [b|]; [|reflexivity]. simpl. f_equal.
    rewrite pass_effect_orbitPeriod, pass_effect_orbitPosition by exact Hn.
    now destruct (decide _).
Qed.

Lemma heap_after_outside t :
  NoDup (nodes t) ->
  forall inputs cam S h0 q, q ∉ nodes t -> heap_after t inputs cam S h0 !! q = h0 !! q.
Proof.
  intros Hn. induction inputs as [|inp inputs IH]; intros cam S h0 q Hq; [reflexivity|].
  cbn [heap_after]. rewrite IH, draw_heap_lookup by assumption.
  unfold pass_effect. destruct (h0 !! q) as [b|]; [|reflexivity]. simpl.
  rewrite decide_False by (intros ->; apply Hq, root_in_nodes).
  rewrite decide_False by (intros Hd; apply Hq, descendants_in_nodes, Hd).
  reflexivity.
Qed.

Lemma main_loop_visits t fuel :
  forall inputs m,
    well_formed (heap (st m)) t = true ->
    (fuel_for t <= fuel)%nat ->
    exists m', main_loop (root t) fuel inputs m = Ok m'
      /\ visits InDrawBody (trace (st m'))
         = visits InDrawBody (trace (st m)) ++ concat (replicate (length inputs) (nodes t)).
Proof.
  induction inputs as [|inp inputs IH]; intros m Hw Hfuel.
  - exists m. cbn. now rewrite app_nil_r.
  - destruct (frame_ok t fuel inp m Hw Hfuel) as (m1 & Hm1 & F1).
    cbn [main_loop]. rewrite Hm1. cbn [bind].
    assert (Hw1 : well_formed (heap (st m1)) t = true).
    { rewrite <- Hw. symmetry. apply well_formed_skeleton.
      rewrite (framed_heap _ _ _ _ F1). apply draw_heap_skeleton. }
    destruct (IH m1 Hw1 Hfuel) as (m2 & Hm2 & Hv).
    exists m2. split; [exact Hm2|].
    rewrite Hv, (framed_draws _ _ _ _ F1). cbn [length replicate concat].
    now rewrite app_assoc.
Qed.

(** *** Bodies reached along several paths *)

Lemma draw_kids_count cam S kids :
  Forall (fun k => forall h0 q b, h0 !! q = Some b ->
            exists b', draw_heap cam S k h0 !! q = Some b'
              /\ orbitPeriod b' = orbitPeriod b
              /\ orbitPosition b'
                 = accumulate (count_occ Nat.eq_dec (descendants k) q)
                     (angular_step S (orbitPeriod b)) (orbitPosition b)) kids ->
  forall h0 q b, h0 !! q = Some b ->
    exists b',
      fold_left (fun h k => draw_heap cam S k (alter (advance S) (root k) h)) kids h0 !! q
      = Some b'
      /\ orbitPeriod b' = orbitPeriod b
      /\ orbitPosition b'
         = accumulate (count_occ Nat.eq_dec (flat_map nodes kids) q)
             (angular_step S (orbitPeriod b)) (orbitPosition b).
Proof.
  induction 1 as [|k kids Hk _ IH]; intros h0 q b Hq.
  - exists b. auto.
  - cbn [fold_left flat_map]. rewrite count_occ_app.
    set (h1 := alter (advance S) (root k) h0).
    assert (H1 : exists b1, h1 !! q = Some b1 /\ orbitPeriod b1 = orbitPeriod b
              /\ orbitPosition b1
                 = accumulate (if decide (root k = q) then 1 else 0)%nat
                     (angular_step S (orbitPeriod b)) (orbitPosition b)).
    { unfold h1. rewrite lookup_alter. repeat case_decide; try congruence.
      - subst q. rewrite Hq. eexists. split; [reflexivity|]. split; reflexivity.
      - exists b. auto. }
    destruct H1 as (b1 & Hb1 & Hp1 & Ho1).
    destruct (Hk h1 q b1 Hb1) as (b2 & Hb2 & Hp2 & Ho2).
    destruct (IH _ q b2 Hb2) as (b3 & Hb3 & Hp3 & Ho3).
    exists b3. split; [exact Hb3|]. split; [congruence|].
    rewrite Ho3, Hp2, Ho2, Hp1, Ho1, <- !accumulate_add. f_equal.
    destruct k as [r sub]. cbn [nodes descendants root] in *.
    case_decide as E.
    + now rewrite count_occ_cons_eq.
    + now rewrite count_occ_cons_neq.
Qed.

Lemma draw_heap_count cam S t :
  forall h0 q b, h0 !! q = Some b ->
    exists b', draw_heap cam S t h0 !! q = Some b'
      /\ orbitPeriod b' = orbitPeriod b
      /\ orbitPosition b'
         = accumulate (count_occ Nat.eq_dec (descendants t) q)
             (angular_step S (orbitPeriod b)) (orbitPosition b).
Proof.
  induction t as [p kids IH] using tree_induction. intros h0 q b Hq.
  cbn [draw_heap descendants].
  assert (H0 : exists b0, alter (anchor cam) p h0 !! q = Some b0
            /\ orbitPeriod b0 = orbitPeriod b /\ orbitPosition b0 = orbitPosition b).
  { rewrite lookup_alter. case_decide as E.
    - subst q. rewrite Hq. eexists. split; [reflexivity|]. split; reflexivity.
    - exists b. auto. }
  destruct H0 as (b0 & Hb0 & Hp0 & Ho0).
  destruct (draw_kids_count cam S kids IH _ q b0 Hb0) as (b' & Hb' & Hp' & Ho').
  exists b'. split; [exact Hb'|]. split; [congruence|]. now rewrite Ho', Hp0, Ho0.
Qed.

(** *** The events of a frame *)

Lemma frame_passed t fuel inp m :
  well_formed (heap (st m)) t = true ->
  (fuel_for t <= fuel)%nat ->
  exists m',
    frame (root t) fuel inp m = Ok m'
    /\ trace (st m')
       = trace (st m)
         ++ [E_BeginDrawing; E_ClearBackground BLACK; E_BeginMode3D (camera m')]
         ++ events (heap (st m')) t []
         ++ [E_EndMode3D]
         ++ (if showBodyLabels m' then label_trace (heap (st m')) t else [])
         ++ [E_DrawText (FormatFloat "FULL SOLAR SYSTEM - SPEED: %2.2f"
                           (rotationSpeed (st m'))) 120 10 20 LIME;
             help_line (showHelpMenu m'); E_DrawFPS 10 10; E_EndDrawing].
Proof.
  intros Hw Hfuel. destruct (well_formed_inv _ _ Hw) as (Ht & Hp & Hn).
  unfold frame, BeginMode3D, ClearBackground, BeginDrawing.
  match goal with |- context [DrawBody fuel (root t) ?c ?x] => set (s0 := x); set (cam := c) end.
  destruct (DrawBody_passed cam t fuel s0 Ht Hp Hfuel) as (s1 & Hs1 & D1).
  rewrite Hs1. cbn [bind].
  set (s2 := EndMode3D s1).
  assert (E12 : same_skeleton (heap (st m)) (heap s2)).
  { simpl. rewrite (passed_heap _ _ _ _ D1). apply draw_heap_skeleton. }
  destruct (DrawBodyLabel_passed t fuel s2) as (s3 & Hs3 & D3); [|exact Hfuel|].
  { now rewrite <- (is_tree_at_skeleton _ _ _ E12). }
  destruct D1 as [D1h D1s D1m D1k D1t].
  destruct D3 as [D3h D3s D3m D3k D3t].
  rewrite draw_trace_events in D1t by exact Hn.
  simpl in D1h, D1s, D1t, D3h, D3s, D3t. rewrite D1h in D3h, D3t. rewrite D1s in D3s.
  unfold help_line.
  destruct (if KEY_L inp then negb (showBodyLabels m) else showBodyLabels m) eqn:Hl;
    destruct (if KEY_H inp then negb (showHelpMenu m) else showHelpMenu m) eqn:Hh;
    rewrite ?Hs3; cbn [bind]; (eexists; split; [reflexivity|]);
    cbn [st camera showBodyLabels showHelpMenu]; simpl;
    rewrite ?D3t, ?D3h, ?D3s, ?D1t, ?D1h, ?D1s; simpl;
    repeat rewrite <- app_assoc; simpl; reflexivity.
Qed.

End After.

(** ** Attaching, once more *)

Lemma attached_snoc done c :
  (length done < 10)%nat ->
  <[length done := Some c]> (attached done) = attached (done ++ [c]).
Proof.
  intros Hlt. unfold attached.
  rewrite !take_ge by (rewrite ?length_app; simpl; lia).
  rewrite insert_app_r_alt by (rewrite length_fmap; lia).
  rewrite length_fmap, Nat.sub_diag, fmap_app, <- app_assoc, length_app. cbn [length].
  f_equal. destruct (10 - length done)%nat as [|n] eqn:E; [lia|].
  replace (10 - (length done + 1))%nat with n by lia. reflexivity.
Qed.

Lemma attached_full done c :
  (10 <= length done)%nat -> attached (done ++ [c]) = attached done.
Proof.
  intros Hge. unfold attached. rewrite take_app_le by lia.
  rewrite length_app. cbn [length].
  replace (10 - (length done + 1))%nat with 0%nat by lia.
  replace (10 - length done)%nat with 0%nat by lia. reflexivity.
Qed.

Lemma attach_all_same_parent a :
  forall cs done s b,
    heap s !! a = Some b ->
    childrenCount b = Z.of_nat (Nat.min (length done) 10) ->
    children b = attached done ->
    exists s',
      attach_all (map (fun c => (a, c)) cs) s = Ok s'
      /\ heap s' !! a
         = Some (set_children (attached (done ++ cs))
                   (Z.of_nat (Nat.min (length (done ++ cs)) 10)) b)
      /\ (forall q, q <> a -> heap s' !! q = heap s !! q)
      /\ trace s'
         = trace s
           ++ replicate ((length (done ++ cs) - 10) - (length done - 10))
                (E_TraceLog LOG_ERROR "ERROR: Body has too many children!")
      /\ rotationSpeed s' = rotationSpeed s.
Proof.
  induction cs as [|c cs IH]; intros done s b Hb Hcount Hch.
  - exists s. cbn [map attach_all]. rewrite app_nil_r, Nat.sub_diag.
    split; [reflexivity|]. split; [|split; [auto | split; [cbn; now rewrite app_nil_r | auto]]].
    rewrite Hb. f_equal. destruct b. cbn in *. now subst.
  - cbn [map attach_all].
    destruct (Nat.lt_ge_cases (length done) 10) as [Hlt|Hge].
    + rewrite (AddBodyChildren_room _ _ _ _ Hb)
        by (rewrite Hcount; unfold MAX_BODY_CHILDREN; lia).
      cbn [bind]. set (s1 := store a _ s).
      destruct (IH (done ++ [c]) s1
                  (set_children (attached (done ++ [c]))
                     (Z.of_nat (Nat.min (length (done ++ [c])) 10)) b))
        as (s' & Hs' & Hh' & Ho' & Ht' & Hr').
      { unfold s1, store. cbn [heap with_heap]. rewrite lookup_insert_eq. f_equal.
        rewrite Hch, Hcount. replace (Z.to_nat (Z.of_nat (Nat.min (length done) 10)))
          with (length done) by lia.
        rewrite attached_snoc by exact Hlt. f_equal.
        rewrite length_app. cbn [length]. lia. }
      { reflexivity. }
      { reflexivity. }
      rewrite <- app_assoc in Hh', Ht'. cbn [app] in Hh', Ht'.
      exists s'. split; [exact Hs'|]. split; [exact Hh'|]. split; [|split].
      * intros r Hr. rewrite Ho' by exact Hr. unfold s1, store. cbn [heap with_heap].
        now rewrite lookup_insert_ne by congruence.
      * rewrite Ht'. unfold s1, store. cbn [trace with_heap]. f_equal. f_equal.
        rewrite !length_app. cbn [length]. lia.
      * rewrite Hr'. reflexivity.
    + rewrite (AddBodyChildren_full _ _ _ _ Hb)
        by (rewrite Hcount; unfold MAX_BODY_CHILDREN; lia).
      cbn [bind]. set (s1 := TraceLog _ _ s).
      destruct (IH (done ++ [c]) s1 b) as (s' & Hs' & Hh' & Ho' & Ht' & Hr').
      { exact Hb. }
      { rewrite Hcount, length_app. cbn [length]. lia. }
      { now rewrite attached_full. }
      rewrite <- app_assoc in Hh', Ht'. cbn [app] in Hh', Ht'.
      exists s'. split; [exact Hs'|]. split; [exact Hh'|]. split; [|split].
      * intros r Hr. now rewrite Ho'.
      * rewrite Ht'. unfold s1, TraceLog, emit. cbn [trace]. rewrite <- app_assoc.
        f_equal. rewrite !length_app. cbn [length].
        replace (length done + S (length cs) - 10 - (length done - 10))%nat
          with (S (length done + S (length cs) - 10 - (length done + 1 - 10)))%nat by lia.
        reflexivity.
      * rewrite Hr'. reflexivity.
Qed.

(** ** A body that is its own child *)

Section Cycle.
Context `{Raylib}.

Lemma own_child_store a s b b' :
  heap s !! a = Some b -> skeleton b' = skeleton b -> own_child a s ->
  own_child a (store a b' s).
Proof.
  intros Hb Hsk (b0 & Hb0 & Hc & Hn & Hz). rewrite Hb in Hb0. injection Hb0 as <-.
  exists b'. unfold store. cbn [heap with_heap]. rewrite lookup_insert_eq.
  split; [reflexivity|].
  assert (E1 : children b' = children b) by (apply (f_equal children) in Hsk; exact Hsk).
  assert (E2 : childrenCount b' = childrenCount b)
    by (apply (f_equal childrenCount) in Hsk; exact Hsk).
  assert (E3 : orbitPeriod b' = orbitPeriod b)
    by (apply (f_equal orbitPeriod) in Hsk; exact Hsk).
  now rewrite E1, E2, E3.
Qed.

Lemma DrawBody_own_child cam a :
  forall fuel s, own_child a s -> DrawBody fuel a cam s = Err OutOfFuel.
Proof.
  induction fuel as [|fuel IH]; intros s Hown; [reflexivity|].
  rewrite DrawBody_S. unfold DrawBody_self.
  destruct Hown as (b & Hb & Hc & Hn & Hz).
  assert (Hown : own_child a s) by (exists b; auto).
  unfold load at 1. cbn [heap emit]. rewrite Hb. cbn [bind].
  unfold load at 1. cbn [heap emit DrawModel]. rewrite Hb. cbn [bind].
  match goal with |- context [store a ?x ?y] => set (b1 := x); set (s0 := y) end.
  assert (Hown1 : own_child a (store a b1 s0)).
  { apply own_child_store with (b := b); [exact Hb | reflexivity|].
    exists b; auto. }
  set (s1 := store a b1 s0) in *.
  destruct fuel as [|fuel]; [reflexivity|].
  cbn [for_loop].
  destruct Hown1 as (b2 & Hb2 & Hc2 & Hn2 & Hz2).
  rewrite (more_children_Some _ _ _ _ Hb2). cbn [bind].
  replace (0 <? childrenCount b2) with true by (symmetry; apply Z.ltb_lt; lia).
  unfold DrawBody_child at 1.
  rewrite (load_Some _ _ _ Hb2). cbn [bind].
  assert (Hca : child_at b2 0 = Ok a) by (apply (child_at_Some b2 0 a); [lia | exact Hc2]).
  rewrite Hca. cbn [bind].
  rewrite (load_Some _ _ _ Hb2). cbn [bind].
  unfold fdiv. rewrite Hz2. cbn [bind].
  unfold load at 1. cbn [heap rlPushMatrix with_matrix store with_heap].
  rewrite lookup_insert_eq. cbn [bind].
  rewrite IH; [reflexivity|].
  eexists. cbn [heap rlRotatef rlTranslatef rlPushMatrix with_matrix store with_heap].
  rewrite lookup_insert_eq. split; [reflexivity|]. cbn. auto.
Qed.

Lemma DrawBodyLabel_own_child a :
  forall fuel s, own_child a s -> DrawBodyLabel fuel a s = Err OutOfFuel.
Proof.
  induction fuel as [|fuel IH]; intros s Hown; [reflexivity|].
  rewrite DrawBodyLabel_S. unfold DrawBodyLabel_self.
  destruct Hown as (b & Hb & Hc & Hn & Hz).
  unfold load at 1. cbn [heap emit]. rewrite Hb. cbn [bind].
  match goal with |- for_loop _ _ _ _ ?x = _ => set (s1 := x) end.
  assert (Hb1 : heap s1 !! a = Some b) by exact Hb.
  destruct fuel as [|fuel]; [reflexivity|].
  cbn [for_loop].
  rewrite (more_children_Some _ _ _ _ Hb1). cbn [bind].
  replace (0 <? childrenCount b) with true by (symmetry; apply Z.ltb_lt; lia).
  unfold DrawBodyLabel_child at 1.
  rewrite (load_Some _ _ _ Hb1). cbn [bind].
  assert (Hca : child_at b 0 = Ok a) by (apply (child_at_Some b 0 a); [lia | exact Hc]).
  rewrite Hca. cbn [bind].
  rewrite IH; [reflexivity|]. exists b. auto.
Qed.

End Cycle.

(** ** Further properties of the example *)

(** X1.  An attach to a parent with room appends: the child is read back
    at the old count, every other entry of the array reads as before, the
    count grows by one, nothing else of the parent and no other body
    changes, and nothing is reported. *)
Theorem X1_AddBodyChildren_appends parent child s p :
  heap s !! parent = Some p ->
  0 <= childrenCount p < MAX_BODY_CHILDREN ->
  length (children p) = Z.to_nat MAX_BODY_CHILDREN ->
  exists s' p',
    AddBodyChildren parent child s = Ok s'
    /\ heap s' !! parent = Some p'
    /\ childrenCount p' = childrenCount p + 1
    /\ child_at p' (childrenCount p) = Ok child
    /\ (forall i, i <> childrenCount p -> child_at p' i = child_at p i)
    /\ p' = set_children (children p') (childrenCount p') p
    /\ (forall q, q <> parent -> heap s' !! q = heap s !! q)
    /\ trace s' = trace s
    /\ rotationSpeed s' = rotationSpeed s.
Proof.
  intros Hp Hc Hlen. rewrite (AddBodyChildren_room _ _ _ _ Hp Hc).
  unfold MAX_BODY_CHILDREN in *.
  eexists. eexists. split; [reflexivity|]. unfold store.
  cbn [heap with_heap trace rotationSpeed]. rewrite lookup_insert_eq.
  split; [reflexivity|]. cbn [childrenCount children set_children].
  split; [reflexivity|]. split; [|split; [|split; [reflexivity|split; [|split; reflexivity]]]].
  - unfold child_at, MAX_BODY_CHILDREN. cbn [children set_children].
    replace (childrenCount p <? 0) with false by (symmetry; apply Z.ltb_ge; lia).
    replace (10 <=? childrenCount p) with false by (symmetry; apply Z.leb_gt; lia).
    cbn [orb]. rewrite list_lookup_insert_eq by lia. reflexivity.
  - intros i Hi. unfold child_at, MAX_BODY_CHILDREN. cbn [children set_children].
    destruct ((i <? 0) || (10 <=? i)) eqn:Hb; [reflexivity|].
    apply orb_false_elim in Hb as [H1 H2]. apply Z.ltb_ge in H1. apply Z.leb_gt in H2.
    rewrite list_lookup_insert_ne by lia. reflexivity.
  - intros q Hq. now rewrite lookup_insert_ne by congruence.
Qed.

(** X2.  Attaching the bodies [cs] in turn to a body as [CreateBody]
    returns it fills the array with the first ten of them, in order; the
    count ends as the smaller of their number and ten; each attach beyond
    the tenth is reported once and changes nothing; no other body
    changes. *)
Theorem X2_created_body_takes_ten a s r o p l tex cs :
  heap s !! a = Some (CreateBody r o p l tex) ->
  exists s',
    attach_all (map (fun c => (a, c)) cs) s = Ok s'
    /\ heap s' !! a
       = Some (set_children (attached cs) (Z.of_nat (Nat.min (length cs) 10))
                 (CreateBody r o p l tex))
    /\ (forall q, q <> a -> heap s' !! q = heap s !! q)
    /\ trace s'
       = trace s ++ replicate (length cs - 10)
                      (E_TraceLog LOG_ERROR "ERROR: Body has too many children!").
Proof.
  intros Ha.
  destruct (attach_all_same_parent a cs [] s _ Ha eq_refl eq_refl)
    as (s' & Hs' & Hh & Ho & Ht & _).
  cbn [app length] in Hh, Ht. rewrite Nat.sub_0_r in Ht. eauto.
Qed.

(** X3.  Attaches to two different parents commute: done in either
    order they return, and leave the same bodies and the same reports (as
    in [main], where the earth is attached to the sun before the moon is
    attached to the earth).  The order matters among the children of one
    parent only. *)
Theorem X3_attaches_to_different_parents_commute p1 c1 p2 c2 s b1 b2 :
  p1 <> p2 ->
  heap s !! p1 = Some b1 ->
  heap s !! p2 = Some b2 ->
  0 <= childrenCount b1 ->
  0 <= childrenCount b2 ->
  exists s',
    (let? s1 := AddBodyChildren p1 c1 s in AddBodyChildren p2 c2 s1) = Ok s'
    /\ (let? s2 := AddBodyChildren p2 c2 s in AddBodyChildren p1 c1 s2) = Ok s'.
Proof.
  intros Hne H1 H2 Hn1 Hn2.
  destruct (Z.lt_ge_cases (childrenCount b1) MAX_BODY_CHILDREN) as [Hr1|Hf1];
    destruct (Z.lt_ge_cases (childrenCount b2) MAX_BODY_CHILDREN) as [Hr2|Hf2].
  - rewrite (AddBodyChildren_room p1 c1 s b1), (AddBodyChildren_room p2 c2 s b2) by auto.
    cbn [bind].
    rewrite (AddBodyChildren_room p2 c2 _ b2), (AddBodyChildren_room p1 c1 _ b1);
      try (unfold store; cbn [heap with_heap]; now rewrite lookup_insert_ne by congruence);
      try lia.
    eexists. split; [reflexivity|]. f_equal. unfold store, with_heap. cbn.
    f_equal. now apply insert_insert_ne.
  - rewrite (AddBodyChildren_room p1 c1 s b1), (AddBodyChildren_full p2 c2 s b2) by auto.
    cbn [bind].
    rewrite (AddBodyChildren_full p2 c2 _ b2), (AddBodyChildren_room p1 c1 _ b1);
      try (unfold store; cbn [heap with_heap]; now rewrite lookup_insert_ne by congruence);
      try exact H1; try lia.
    eexists. split; reflexivity.
  - rewrite (AddBodyChildren_full p1 c1 s b1), (AddBodyChildren_room p2 c2 s b2) by auto.
    cbn [bind].
    rewrite (AddBodyChildren_room p2 c2 _ b2), (AddBodyChildren_full p1 c1 _ b1);
      try (unfold store; cbn [heap with_heap]; now rewrite lookup_insert_ne by congruence);
      try exact H2; try lia.
    eexists. split; reflexivity.
  - rewrite (AddBodyChildren_full p1 c1 s b1), (AddBodyChildren_full p2 c2 s b2) by auto.
    cbn [bind].
    rewrite (AddBodyChildren_full p2 c2 _ b2), (AddBodyChildren_full p1 c1 _ b1);
      try exact H1; try exact H2; try lia.
    eexists. split; reflexivity.
Qed.

Section Bodies.
Context `{Raylib}.

(** X4.  [AddBodyChildren] accepts a body as its own child: it tests the
    count only.  On such a body (its period not zero) neither traversal
    returns: whatever the fuel, the recursion uses it up. *)
Theorem X4_own_child_never_returns a s b :
  heap s !! a = Some b ->
  childrenCount b = 0 ->
  length (children b) = Z.to_nat MAX_BODY_CHILDREN ->
  F32.is_zero (orbitPeriod b) = false ->
  exists s',
    AddBodyChildren a a s = Ok s'
    /\ forall fuel cam,
         DrawBody fuel a cam s' = Err OutOfFuel
         /\ DrawBodyLabel fuel a s' = Err OutOfFuel.
Proof.
  intros Ha Hc Hlen Hz.
  rewrite (AddBodyChildren_room _ _ _ _ Ha) by (rewrite Hc; unfold MAX_BODY_CHILDREN; lia).
  eexists. split; [reflexivity|].
  assert (Hown : own_child a
            (store a (set_children (<[Z.to_nat (childrenCount b) := Some a]> (children b))
                        (childrenCount b + 1) b) s)).
  { eexists. unfold store. cbn [heap with_heap]. rewrite lookup_insert_eq.
    split; [reflexivity|]. cbn [children childrenCount orbitPeriod set_children].
    rewrite Hc. split; [|split; [lia | exact Hz]].
    apply list_lookup_insert_eq. rewrite Hlen. unfold MAX_BODY_CHILDREN. lia. }
  intros fuel cam. split.
  - now apply DrawBody_own_child.
  - now apply DrawBodyLabel_own_child.
Qed.

(** X5.  No function assigns the fields [texture] and [rotationPeriod] of
    a body.  [CreateBody] puts the texture it loads (mipmaps generated)
    into the diffuse map of the model only; both fields are the zeros of
    [Body body = { 0 }] in a created body and in every body of every state
    [main] reaches, where every model is the sphere with a mipmapped
    texture. *)
Theorem X5_texture_is_kept_in_the_model_only :
  (forall r o p l name,
      texture (CreateBody r o p l name) = NoTexture
      /\ rotationPeriod (CreateBody r o p l name) = S754_zero false
      /\ model (CreateBody r o p l name)
         = Mesh "resources/solar_system/sphere.obj"
             (Texture ("resources/solar_system/" +:+ name +:+ ".png") true))
  /\ (forall fuel inputs m q b,
        main fuel inputs = Ok m ->
        heap (st m) !! q = Some b ->
        texture b = NoTexture
        /\ rotationPeriod b = S754_zero false
        /\ exists file, model b = Mesh "resources/solar_system/sphere.obj" (Texture file true)).
Proof.
  split; [intros; repeat split|].
  intros fuel inputs m q b Hm Hq. unfold main in Hm.
  rewrite main_init_default in Hm. cbn [bind] in Hm.
  apply main_loop_writes_only in Hm.
  pose proof (same_skeleton_field texture _ _ q (fun _ => eq_refl) Hm) as E1.
  pose proof (same_skeleton_field rotationPeriod _ _ q (fun _ => eq_refl) Hm) as E2.
  pose proof (same_skeleton_field model _ _ q (fun _ => eq_refl) Hm) as E3.
  rewrite Hq in E1, E2, E3.
  assert (Hall : map_Forall (fun _ b0 => as_created b0 = true) (heap (st default_main))).
  { apply (bool_decide_eq_true_1 (map_Forall _ _)). vm_compute. reflexivity. }
  destruct (heap (st default_main) !! q) as [b0|] eqn:Hq0; [|discriminate].
  specialize (Hall _ _ Hq0). cbn in E1, E2, E3.
  injection E1 as E1. injection E2 as E2. injection E3 as E3.
  unfold as_created in Hall. apply andb_prop in Hall as [Hall H3].
  apply andb_prop in Hall as [H1 H2].
  apply bool_decide_eq_true in H1, H2. rewrite <- E1, <- E2, <- E3.
  split; [exact H1|]. split; [exact H2|].
  destruct (model b0) as [|f [|file mip]]; try discriminate.
  apply andb_prop in H3 as [Hf Hmip]. apply bool_decide_eq_true in Hf.
  exists file. now rewrite Hf, Hmip.
Qed.

(** X6.  Whatever the bodies and pointers are, a traversal that returns
    leaves the active matrix and the matrix stack as it found them: every
    [rlPushMatrix] of [DrawBody] is matched by its [rlPopMatrix], and
    [DrawBodyLabel] touches neither. *)
Theorem X6_traversals_restore_the_matrix :
  (forall fuel body cam s s',
      DrawBody fuel body cam s = Ok s' ->
      matrix s' = matrix s /\ matrixStack s' = matrixStack s)
  /\ (forall fuel body s s',
        DrawBodyLabel fuel body s = Ok s' ->
        matrix s' = matrix s /\ matrixStack s' = matrixStack s).
Proof.
  split.
  - intros fuel body cam s s'. apply DrawBody_balanced.
  - intros fuel body s s'. apply DrawBodyLabel_balanced.
Qed.

(** X7.  The draw pass draws the model of every body of the tree once, in
    pre-order, at the local origin, scaled by the radius of the body, under
    the matrix composed along the path from the root: the matrix the pass
    started under, then for every body on the path the rotation by its
    orbital angle, the translation by its orbit radius and the rotation
    back, with the angle as the pass leaves it stored. *)
Theorem X7_models_are_drawn_along_the_path t fuel cam s :
  well_formed (heap s) t = true ->
  (fuel_for t <= fuel)%nat ->
  exists s' evs,
    DrawBody fuel (root t) cam s = Ok s'
    /\ trace s' = trace s ++ evs
    /\ Forall2 (is_model_of (heap s')) (List.filter is_DrawModel evs)
         (placed (heap s') t (matrix s)).
Proof.
  intros Hw Hfuel. destruct (well_formed_inv _ _ Hw) as (Ht & Hp & Hn).
  destruct (DrawBody_passed cam t fuel s Ht Hp Hfuel) as (s' & Hs' & D).
  exists s'. eexists. split; [exact Hs'|]. split; [exact (passed_trace _ _ _ _ D)|].
  rewrite draw_trace_events by exact Hn. rewrite <- (passed_heap _ _ _ _ D).
  apply events_models. apply is_tree_at_nodes.
  rewrite <- Ht. symmetry. apply is_tree_at_skeleton.
  rewrite (passed_heap _ _ _ _ D). apply draw_heap_skeleton.
Qed.

(** X8.  The draw pass draws one orbit ring for every body that has a
    parent, after the bodies below it: a circle of the body's orbit radius
    about the origin, under the matrix of its parent. *)
Theorem X8_rings_are_drawn_around_the_parent t fuel cam s :
  well_formed (heap s) t = true ->
  (fuel_for t <= fuel)%nat ->
  exists s' evs,
    DrawBody fuel (root t) cam s = Ok s'
    /\ trace s' = trace s ++ evs
    /\ Forall2 (is_ring_of (heap s')) (List.filter is_DrawCircle3D evs)
         (ringed (heap s') t (matrix s)).
Proof.
  intros Hw Hfuel. destruct (well_formed_inv _ _ Hw) as (Ht & Hp & Hn).
  destruct (DrawBody_passed cam t fuel s Ht Hp Hfuel) as (s' & Hs' & D).
  exists s'. eexists. split; [exact Hs'|]. split; [exact (passed_trace _ _ _ _ D)|].
  rewrite draw_trace_events by exact Hn. rewrite <- (passed_heap _ _ _ _ D).
  apply events_rings. apply is_tree_at_nodes.
  rewrite <- Ht. symmetry. apply is_tree_at_skeleton.
  rewrite (passed_heap _ _ _ _ D). apply draw_heap_skeleton.
Qed.


(** X10.  A body is advanced once for every path on which the pass reaches
    it from the root: attached twice (to two parents, or twice to one), it
    is drawn twice and its angle grows by two steps in one pass. *)
Theorem X10_advanced_once_per_path t fuel cam s q b :
  is_tree_at (heap s) t = true ->
  forallb (period_ok (heap s)) (descendants t) = true ->
  (fuel_for t <= fuel)%nat ->
  heap s !! q = Some b ->
  exists s' b',
    DrawBody fuel (root t) cam s = Ok s'
    /\ heap s' !! q = Some b'
    /\ orbitPosition b'
       = accumulate (count_occ Nat.eq_dec (descendants t) q)
           (angular_step (rotationSpeed s) (orbitPeriod b)) (orbitPosition b)
    /\ visits InDrawBody (trace s') = visits InDrawBody (trace s) ++ nodes t.
Proof.
  intros Ht Hp Hfuel Hq.
  destruct (DrawBody_ok cam t fuel s Ht Hp Hfuel) as (s' & Hs' & D).
  destruct (draw_heap_count cam (rotationSpeed s) t (heap s) q b Hq) as (b' & Hb' & _ & Ho).
  exists s', b'. split; [exact Hs'|]. rewrite (drawn_heap _ _ _ _ _ D).
  split; [exact Hb'|]. split; [exact Ho | exact (drawn_visits _ _ _ _ _ D)].
Qed.

(** X11.  The label pass draws the label of every body of the tree once,
    in pre-order, in white at font size 20: its x is the stored anchor's x
    less half the width of the text (a float subtraction, truncated), its y
    the anchor's y truncated.  It emits nothing else. *)
Theorem X11_labels_are_centred_on_the_anchors t fuel s :
  is_tree_at (heap s) t = true ->
  (fuel_for t <= fuel)%nat ->
  exists s' evs,
    DrawBodyLabel fuel (root t) s = Ok s'
    /\ trace s' = trace s ++ evs
    /\ Forall2 (is_label_of (heap s)) (List.filter is_DrawText evs) (nodes t)
    /\ forallb in_labels evs = true.
Proof.
  intros Ht Hfuel.
  destruct (DrawBodyLabel_passed t fuel s Ht Hfuel) as (s' & Hs' & D).
  exists s'. eexists. split; [exact Hs'|]. split; [exact (passed_trace _ _ _ _ D)|].
  split; [|apply label_trace_in_labels].
  apply label_trace_texts. now apply is_tree_at_nodes.
Qed.

(** X12.  Whatever the bodies and pointers are, a run of the loop creates
    and removes no body and writes two fields only: every body ends as it
    began but for [orbitPosition] and [labelPosition]. *)
Theorem X12_frames_write_two_fields root fuel inputs m m' q :
  main_loop root fuel inputs m = Ok m' ->
  match heap (st m) !! q, heap (st m') !! q with
  | Some b, Some b' =>
      b' = set_labelPosition (labelPosition b') (set_orbitPosition (orbitPosition b') b)
  | None, None => True
  | _, _ => False
  end.
Proof.
  intros Hm. apply main_loop_writes_only in Hm. specialize (Hm q).
  destruct (heap (st m) !! q) as [b|], (heap (st m') !! q) as [b'|];
    try discriminate; [|exact I].
  destruct b, b'. unfold skeleton, set_labelPosition, set_orbitPosition in *.
  cbn in *. congruence.
Qed.

(** X13.  A body outside the tree of the root that is drawn (in [main]:
    jupiter to pluto, which are created and not attached) is not written by
    any frame. *)
Theorem X13_bodies_outside_the_tree_are_untouched t fuel inputs m q :
  well_formed (heap (st m)) t = true ->
  (fuel_for t <= fuel)%nat ->
  q ∉ nodes t ->
  exists m', main_loop (root t) fuel inputs m = Ok m'
    /\ heap (st m') !! q = heap (st m) !! q.
Proof.
  intros Hw Hfuel Hq. destruct (well_formed_inv _ _ Hw) as (_ & _ & Hn).
  destruct (main_loop_ok t fuel inputs m Hw Hfuel) as (m' & Hm' & Hh & _).
  exists m'. split; [exact Hm'|]. rewrite Hh. now apply heap_after_outside.
Qed.

(** X14.  [main] runs without a fault for every sequence of inputs and
    every library: no null or dangling pointer, no index outside an array,
    no zero divisor.  Each frame draws the six attached bodies, the sun
    first, and the scene stays a tree whose attached bodies have nonzero
    periods. *)
Theorem X14_main_runs_without_fault fuel inputs :
  (fuel_default <= fuel)%nat ->
  exists m,
    main fuel inputs = Ok m
    /\ well_formed (heap (st m)) solar_system = true
    /\ visits InDrawBody (trace (st m))
       = concat (replicate (length inputs) [sun; mercury; venus; earth; moon; mars]).
Proof.
  intros Hfuel. unfold main. rewrite main_init_default. cbn [bind].
  destruct (main_loop_visits solar_system fuel inputs default_main default_well_formed Hfuel)
    as (m & Hm & Hv).
  destruct (main_loop_ok solar_system fuel inputs default_main default_well_formed Hfuel)
    as (m2 & Hm2 & _ & _ & Hw).
  assert (m2 = m) by congruence. subst m2.
  exists m. split; [exact Hm|]. split; [exact Hw | exact Hv].
Qed.

End Bodies.

(** X15.  The orbital angles and the speed after a run depend on the
    arrow keys alone: two runs from the same bodies and speed whose inputs
    agree on LEFT and RIGHT in every frame end with the same angle for
    every body and the same speed, whatever the other keys, the pointer,
    the cameras and the library's projection and camera control are. *)
Theorem X15_angles_follow_the_arrow_keys_only (R1 R2 : Raylib)
    t fuel inputs1 inputs2 m1 m2 :
  well_formed (heap (st m1)) t = true ->
  (fuel_for t <= fuel)%nat ->
  map speed_keys inputs1 = map speed_keys inputs2 ->
  heap (st m2) = heap (st m1) ->
  rotationSpeed (st m2) = rotationSpeed (st m1) ->
  exists r1 r2,
    @main_loop R1 (root t) fuel inputs1 m1 = Ok r1
    /\ @main_loop R2 (root t) fuel inputs2 m2 = Ok r2
    /\ (forall q, orbitPosition <$> heap (st r1) !! q = orbitPosition <$> heap (st r2) !! q)
    /\ rotationSpeed (st r1) = rotationSpeed (st r2).
Proof.
  intros Hw Hfuel Hk Hh Hs.
  destruct (well_formed_inv _ _ Hw) as (_ & _ & Hn).
  destruct (@main_loop_ok R1 t fuel inputs1 m1 Hw Hfuel) as (r1 & Hr1 & Hh1 & Hs1 & _).
  assert (Hw2 : well_formed (heap (st m2)) t = true) by now rewrite Hh.
  destruct (@main_loop_ok R2 t fuel inputs2 m2 Hw2 Hfuel) as (r2 & Hr2 & Hh2 & Hs2 & _).
  destruct (speeds_of_keys inputs1 inputs2 (rotationSpeed (st m1)) Hk) as [E1 E2].
  exists r1, r2. split; [exact Hr1|]. split; [exact Hr2|]. split.
  - intros q. rewrite Hh1, Hh2, Hh, Hs.
    rewrite (@heap_after_orbitPosition R1 t Hn), (@heap_after_orbitPosition R2 t Hn).
    now rewrite E1.
  - now rewrite Hs1, Hs2, Hs, E2.
Qed.

Section Frame.
Context `{Raylib}.

(** X16.  Whatever the bodies are, after a run of the loop the two flags
    are what they were, flipped once per press of their key (so by the
    parity of the presses); the camera is the old one updated once per
    frame; the speed is the old one after the arrow keys of each frame in
    turn, and nothing else writes it. *)
Theorem X16_locals_follow_the_keys root fuel inputs m m' :
  main_loop root fuel inputs m = Ok m' ->
  showHelpMenu m' = xorb (showHelpMenu m) (Nat.odd (length (List.filter KEY_H inputs)))
  /\ showBodyLabels m' = xorb (showBodyLabels m) (Nat.odd (length (List.filter KEY_L inputs)))
  /\ camera m' = fold_left (fun c inp => UpdateCamera (pointer inp) c) inputs (camera m)
  /\ rotationSpeed (st m')
     = fold_left (fun x inp => speed_after inp x) inputs (rotationSpeed (st m)).
Proof.
  intros Hm. apply main_loop_locals in Hm as (Hc & Hh & Hb & Hs & _). auto.
Qed.

(** X17.  A frame draws in this order: [BeginDrawing], the clearing to
    black, [BeginMode3D] with the camera as updated in this frame, the
    events of the draw pass and nothing else, [EndMode3D], the events of
    the label pass and nothing else (none when labels are hidden), the
    speed line with the speed after the keys of this frame, the help text
    or the hint as the flag says after the keys, the frame rate, and
    [EndDrawing]. *)
Theorem X17_frame_draws_in_order t fuel inp m :
  well_formed (heap (st m)) t = true ->
  (fuel_for t <= fuel)%nat ->
  exists m' evs3 evs2,
    frame (root t) fuel inp m = Ok m'
    /\ trace (st m')
       = trace (st m)
         ++ [E_BeginDrawing; E_ClearBackground BLACK;
             E_BeginMode3D (UpdateCamera (pointer inp) (camera m))]
         ++ evs3 ++ [E_EndMode3D] ++ evs2
         ++ [E_DrawText (FormatFloat "FULL SOLAR SYSTEM - SPEED: %2.2f"
                           (speed_after inp (rotationSpeed (st m)))) 120 10 20 LIME;
             help_line (if KEY_H inp then negb (showHelpMenu m) else showHelpMenu m);
             E_DrawFPS 10 10; E_EndDrawing]
    /\ forallb in_3D evs3 = true
    /\ forallb in_labels evs2 = true
    /\ ((if KEY_L inp then negb (showBodyLabels m) else showBodyLabels m) = false ->
        evs2 = []).
Proof.
  intros Hw Hfuel.
  destruct (frame_passed t fuel inp m Hw Hfuel) as (m' & Hm' & Ht).
  destruct (frame_locals _ _ _ _ _ Hm') as (Hc & Hh & Hb & Hs & _).
  rewrite Hc, Hh, Hb, Hs in Ht.
  exists m'. eexists. eexists. split; [exact Hm'|]. split; [exact Ht|].
  split; [apply events_in_3D|]. split.
  - destruct (if KEY_L inp then _ else _); [apply label_trace_in_labels | reflexivity].
  - now intros ->.
Qed.

(** X18.  In a frame that shows labels, the label of every body of the
    tree is drawn at the anchor computed in this very frame: the projection
    of (orbit radius, own radius, 0) through the camera as updated in the
    frame, whatever anchor the body held before. *)
Theorem X18_labels_are_drawn_at_fresh_anchors t fuel inp m :
  well_formed (heap (st m)) t = true ->
  (fuel_for t <= fuel)%nat ->
  (if KEY_L inp then negb (showBodyLabels m) else showBodyLabels m) = true ->
  exists m' evs3 evs2,
    frame (root t) fuel inp m = Ok m'
    /\ trace (st m')
       = trace (st m)
         ++ [E_BeginDrawing; E_ClearBackground BLACK;
             E_BeginMode3D (UpdateCamera (pointer inp) (camera m))]
         ++ evs3 ++ [E_EndMode3D] ++ evs2
         ++ [E_DrawText (FormatFloat "FULL SOLAR SYSTEM - SPEED: %2.2f"
                           (speed_after inp (rotationSpeed (st m)))) 120 10 20 LIME;
             help_line (if KEY_H inp then negb (showHelpMenu m) else showHelpMenu m);
             E_DrawFPS 10 10; E_EndDrawing]
    /\ forallb in_3D evs3 = true
    /\ Forall2 (fun e q => exists b,
                  heap (st m) !! q = Some b
                  /\ e = label_text (anchor (UpdateCamera (pointer inp) (camera m)) b))
         (List.filter is_DrawText evs2) (nodes t).
Proof.
  intros Hw Hfuel Hl. destruct (well_formed_inv _ _ Hw) as (Ht & _ & Hn).
  destruct (frame_passed t fuel inp m Hw Hfuel) as (m' & Hm' & Htr).
  destruct (frame_ok t fuel inp m Hw Hfuel) as (m2 & Hm2 & F).
  assert (m2 = m') by congruence. subst m2.
  destruct (frame_locals _ _ _ _ _ Hm') as (Hc & Hh & Hb & Hs & _).
  rewrite Hb, Hl, Hc, Hh, Hs in Htr.
  exists m'. eexists. eexists. split; [exact Hm'|]. split; [exact Htr|].
  split; [apply events_in_3D|].
  pose proof (framed_heap _ _ _ _ F) as Hh'. rewrite Hc in Hh'.
  assert (Hall : forall q, q ∈ nodes t -> is_Some (heap (st m') !! q)).
  { apply is_tree_at_nodes. rewrite <- Ht. symmetry. apply is_tree_at_skeleton.
    rewrite Hh'. apply draw_heap_skeleton. }
  apply (Forall2_impl _ _ _ _ (Forall2_in_r _ _ _ (label_trace_texts _ _ Hall))).
  intros e q [(b' & Hb' & He) Hq]. rewrite Hh', draw_heap_lookup in Hb' by exact Hn.
  destruct (heap (st m) !! q) as [b|]; [|discriminate]. cbn in Hb'. injection Hb' as <-.
  exists b. split; [reflexivity|]. rewrite He. unfold label_text.
  rewrite pass_effect_labelPosition by exact Hq.
  assert (El : label (pass_effect (UpdateCamera (pointer inp) (camera m))
                        (rotationSpeed (st m')) t q b) = label b)
    by (unfold pass_effect; repeat case_decide; reflexivity).
  now rewrite El.
Qed.

End Frame.

(** ** The further properties on the scene of [main] *)

(** X1, at the first attach of [main]: mercury becomes child 0 of the sun. *)
Lemma X1_AddBodyChildren_appends_witness :
  exists s' p',
    AddBodyChildren sun mercury created = Ok s'
    /\ heap s' !! sun = Some p'
    /\ childrenCount p' = childrenCount sun_created + 1
    /\ child_at p' (childrenCount sun_created) = Ok mercury
    /\ (forall i, i <> childrenCount sun_created -> child_at p' i = child_at sun_created i)
    /\ p' = set_children (children p') (childrenCount p') sun_created
    /\ (forall q, q <> sun -> heap s' !! q = heap created !! q)
    /\ trace s' = trace created
    /\ rotationSpeed s' = rotationSpeed created.
Proof.
  apply (X1_AddBodyChildren_appends sun mercury created sun_created).
  - vm_compute. reflexivity.
  - change (0 <= 0 < 10). lia.
  - vm_compute. reflexivity.
Defined.

(** X2, at the sun with eleven attaches: the eleventh is reported. *)
Lemma X2_created_body_takes_ten_witness :
  exists s',
    attach_all (map (fun c => (sun, c))
                  [moon; mercury; venus; earth; mars; jupiter; saturn; uranus; neptune;
                   pluto; moon]) created = Ok s'
    /\ heap s' !! sun
       = Some (set_children
                 (attached [moon; mercury; venus; earth; mars; jupiter; saturn; uranus;
                            neptune; pluto; moon])
                 (Z.of_nat (Nat.min 11 10)) sun_created)
    /\ (forall q, q <> sun -> heap s' !! q = heap created !! q)
    /\ trace s'
       = trace created
         ++ replicate (11 - 10) (E_TraceLog LOG_ERROR "ERROR: Body has too many children!").
Proof.
  apply (X2_created_body_takes_ten sun created (flit 2 10) (flit 0 10) (F32.of_int 0)
           "sun" "2k_sun"
           [moon; mercury; venus; earth; mars; jupiter; saturn; uranus; neptune; pluto; moon]).
  vm_compute. reflexivity.
Defined.

(** X3, at two attaches of [main]: the moon to the earth before or after
    mercury to the sun. *)
Lemma X3_attaches_to_different_parents_commute_witness :
  exists s',
    (let? s1 := AddBodyChildren sun mercury created in AddBodyChildren earth moon s1) = Ok s'
    /\ (let? s2 := AddBodyChildren earth moon created in AddBodyChildren sun mercury s2)
       = Ok s'.
Proof.
  apply (X3_attaches_to_different_parents_commute sun mercury earth moon created sun_created
           (CreateBody (flit 5 100) (flit 1000 1000) (F32.of_int 365) "earth"
              "2k_earth_daymap")).
  - discriminate.
  - vm_compute. reflexivity.
  - vm_compute. reflexivity.
  - change (0 <= 0). lia.
  - change (0 <= 0). lia.
Defined.

(** X4, at the moon of [main], attached to itself. *)
Lemma X4_own_child_never_returns_witness :
  exists s',
    AddBodyChildren moon moon created = Ok s'
    /\ forall fuel cam,
         @DrawBody flat_screen fuel moon cam s' = Err OutOfFuel
         /\ @DrawBodyLabel flat_screen fuel moon s' = Err OutOfFuel.
Proof.
  apply (@X4_own_child_never_returns flat_screen moon created moon_created).
  - vm_compute. reflexivity.
  - reflexivity.
  - vm_compute. reflexivity.
  - vm_compute. reflexivity.
Defined.

(** X5, at mars after two frames of [main]. *)
Lemma X5_texture_is_kept_in_the_model_only_witness :
  match @main flat_screen fuel_default [no_key; press_LEFT] with
  | Ok m =>
      match heap (st m) !! mars with
      | Some b =>
          texture b = NoTexture
          /\ rotationPeriod b = S754_zero false
          /\ exists file, model b = Mesh "resources/solar_system/sphere.obj" (Texture file true)
      | None => False
      end
  | Err _ => False
  end.
Proof.
  destruct (@main flat_screen fuel_default [no_key; press_LEFT]) as [m|] eqn:Hm;
    [|vm_compute in Hm; discriminate].
  destruct (heap (st m) !! mars) as [b|] eqn:Hb.
  - exact (proj2 (@X5_texture_is_kept_in_the_model_only flat_screen)
             fuel_default [no_key; press_LEFT] m mars b Hm Hb).
  - vm_compute in Hm. injection Hm as <-. vm_compute in Hb. discriminate.
Defined.

(** X6, on the scene of [main], drawn under a matrix and a stack that are
    not empty. *)
Lemma X6_traversals_restore_the_matrix_witness :
  match @DrawBody flat_screen fuel_default sun initial_camera
          (with_matrix [Translatef f1 f0 f0] [[]] (st default_main)) with
  | Ok s' => matrix s' = [Translatef f1 f0 f0] /\ matrixStack s' = [[]]
  | Err _ => False
  end.
Proof.
  destruct (@DrawBody flat_screen fuel_default sun initial_camera
              (with_matrix [Translatef f1 f0 f0] [[]] (st default_main))) as [s'|] eqn:Hs;
    [|vm_compute in Hs; discriminate].
  exact (proj1 (@X6_traversals_restore_the_matrix flat_screen) _ _ _ _ _ Hs).
Defined.

(** X7, on the scene of [main]. *)
Lemma X7_models_are_drawn_along_the_path_witness :
  exists s' evs,
    @DrawBody flat_screen fuel_default (root solar_system) initial_camera (st default_main)
      = Ok s'
    /\ trace s' = trace (st default_main) ++ evs
    /\ Forall2 (is_model_of (heap s')) (List.filter is_DrawModel evs)
         (placed (heap s') solar_system (matrix (st default_main))).
Proof.
  apply (@X7_models_are_drawn_along_the_path flat_screen solar_system fuel_default
           initial_camera (st default_main)).
  - vm_compute. reflexivity.
  - vm_compute. lia.
Defined.

(** X8, on the scene of [main]. *)
Lemma X8_rings_are_drawn_around_the_parent_witness :
  exists s' evs,
    @DrawBody flat_screen fuel_default (root solar_system) initial_camera (st default_main)
      = Ok s'
    /\ trace s' = trace (st default_main) ++ evs
    /\ Forall2 (is_ring_of (heap s')) (List.filter is_DrawCircle3D evs)
         (ringed (heap s') solar_system (matrix (st default_main))).
Proof.
  apply (@X8_rings_are_drawn_around_the_parent flat_screen solar_system fuel_default
           initial_camera (st default_main)).
  - vm_compute. reflexivity.
  - vm_compute. lia.
Defined.


(** X10, with the moon attached to the earth and to the sun: one pass adds
    two steps to its angle. *)
Lemma X10_advanced_once_per_path_witness :
  exists s' b',
    @DrawBody flat_screen (fuel_for two_paths) (root two_paths) initial_camera shared_moon
      = Ok s'
    /\ heap s' !! moon = Some b'
    /\ orbitPosition b'
       = accumulate (count_occ Nat.eq_dec (descendants two_paths) moon)
           (angular_step (rotationSpeed shared_moon) (orbitPeriod moon_created))
           (orbitPosition moon_created)
    /\ visits InDrawBody (trace s')
       = visits InDrawBody (trace shared_moon) ++ nodes two_paths.
Proof.
  apply (@X10_advanced_once_per_path flat_screen two_paths (fuel_for two_paths)
           initial_camera shared_moon moon moon_created).
  - vm_compute. reflexivity.
  - vm_compute. reflexivity.
  - lia.
  - vm_compute. reflexivity.
Defined.

(** X11, on the scene of [main]. *)
Lemma X11_labels_are_centred_on_the_anchors_witness :
  exists s' evs,
    @DrawBodyLabel flat_screen fuel_default (root solar_system) (st default_main) = Ok s'
    /\ trace s' = trace (st default_main) ++ evs
    /\ Forall2 (@is_label_of flat_screen (heap (st default_main)))
         (List.filter is_DrawText evs) (nodes solar_system)
    /\ forallb in_labels evs = true.
Proof.
  apply (@X11_labels_are_centred_on_the_anchors flat_screen solar_system fuel_default
           (st default_main)).
  - vm_compute. reflexivity.
  - vm_compute. lia.
Defined.

(** X12, at the earth after two frames of [main]. *)
Lemma X12_frames_write_two_fields_witness :
  match @main_loop flat_screen sun fuel_default [no_key; press_LEFT] default_main with
  | Ok m' =>
      match heap (st default_main) !! earth, heap (st m') !! earth with
      | Some b, Some b' =>
          b' = set_labelPosition (labelPosition b') (set_orbitPosition (orbitPosition b') b)
      | None, None => True
      | _, _ => False
      end
  | Err _ => False
  end.
Proof.
  destruct (@main_loop flat_screen sun fuel_default [no_key; press_LEFT] default_main)
    as [m'|] eqn:Hm; [|vm_compute in Hm; discriminate].
  exact (@X12_frames_write_two_fields flat_screen sun fuel_default [no_key; press_LEFT]
           default_main m' earth Hm).
Defined.

(** X13, at jupiter, which [main] creates and does not attach. *)
Lemma X13_bodies_outside_the_tree_are_untouched_witness :
  exists m',
    @main_loop flat_screen (root solar_system) fuel_default [no_key; press_LEFT] default_main
      = Ok m'
    /\ heap (st m') !! jupiter = heap (st default_main) !! jupiter.
Proof.
  apply (@X13_bodies_outside_the_tree_are_untouched flat_screen solar_system fuel_default
           [no_key; press_LEFT] default_main jupiter).
  - vm_compute. reflexivity.
  - vm_compute. lia.
  - apply (bool_decide_eq_true_1 (jupiter ∉ nodes solar_system)). vm_compute. reflexivity.
Defined.

(** X14, for three frames. *)
Lemma X14_main_runs_without_fault_witness :
  exists m,
    @main flat_screen fuel_default [no_key; press_L; press_LEFT] = Ok m
    /\ well_formed (heap (st m)) solar_system = true
    /\ visits InDrawBody (trace (st m))
       = concat (replicate (length [no_key; press_L; press_LEFT])
                   [sun; mercury; venus; earth; moon; mars]).
Proof.
  apply (@X14_main_runs_without_fault flat_screen fuel_default [no_key; press_L; press_LEFT]).
  lia.
Defined.

(** X15, for two libraries and two runs that share the arrow keys only. *)
Lemma X15_angles_follow_the_arrow_keys_only_witness :
  exists r1 r2,
    @main_loop flat_screen (root solar_system) fuel_default [no_key; press_LEFT] default_main
      = Ok r1
    /\ @main_loop top_view (root solar_system) fuel_default [press_L; drag_LEFT] default_main
      = Ok r2
    /\ (forall q, orbitPosition <$> heap (st r1) !! q = orbitPosition <$> heap (st r2) !! q)
    /\ rotationSpeed (st r1) = rotationSpeed (st r2).
Proof.
  apply (X15_angles_follow_the_arrow_keys_only flat_screen top_view solar_system fuel_default
           [no_key; press_LEFT] [press_L; drag_LEFT] default_main default_main).
  - vm_compute. reflexivity.
  - vm_compute. lia.
  - reflexivity.
  - reflexivity.
  - reflexivity.
Defined.

(** X16, for help pressed twice and labels once. *)
Lemma X16_locals_follow_the_keys_witness :
  match @main_loop flat_screen sun fuel_default [press_H; press_L; press_H] default_main with
  | Ok m' =>
      showHelpMenu m' = showHelpMenu default_main
      /\ showBodyLabels m' = negb (showBodyLabels default_main)
  | Err _ => False
  end.
Proof.
  destruct (@main_loop flat_screen sun fuel_default [press_H; press_L; press_H] default_main)
    as [m'|] eqn:Hm; [|vm_compute in Hm; discriminate].
  destruct (@X16_locals_follow_the_keys flat_screen sun fuel_default
              [press_H; press_L; press_H] default_main m' Hm) as (Hh & Hl & _).
  split; [exact Hh | exact Hl].
Defined.

(** X17, for the first frame of [main] with help pressed. *)
Lemma X17_frame_draws_in_order_witness :
  exists m' evs3 evs2,
    @frame flat_screen (root solar_system) fuel_default press_H default_main = Ok m'
    /\ trace (st m')
       = trace (st default_main)
         ++ [E_BeginDrawing; E_ClearBackground BLACK; E_BeginMode3D initial_camera]
         ++ evs3 ++ [E_EndMode3D] ++ evs2
         ++ [E_DrawText (FormatFloat "FULL SOLAR SYSTEM - SPEED: %2.2f" (flit 2 10))
               120 10 20 LIME;
             help_line true; E_DrawFPS 10 10; E_EndDrawing]
    /\ forallb in_3D evs3 = true
    /\ forallb in_labels evs2 = true
    /\ (true = false -> evs2 = []).
Proof.
  apply (@X17_frame_draws_in_order flat_screen solar_system fuel_default press_H default_main).
  - vm_compute. reflexivity.
  - vm_compute. lia.
Defined.

(** X18, for the first frame of [main]. *)
Lemma X18_labels_are_drawn_at_fresh_anchors_witness :
  exists m' evs3 evs2,
    @frame flat_screen (root solar_system) fuel_default no_key default_main = Ok m'
    /\ trace (st m')
       = trace (st default_main)
         ++ [E_BeginDrawing; E_ClearBackground BLACK; E_BeginMode3D initial_camera]
         ++ evs3 ++ [E_EndMode3D] ++ evs2
         ++ [E_DrawText (FormatFloat "FULL SOLAR SYSTEM - SPEED: %2.2f" (flit 2 10))
               120 10 20 LIME;
             help_line false; E_DrawFPS 10 10; E_EndDrawing]
    /\ forallb in_3D evs3 = true
    /\ Forall2 (fun e q => exists b,
                  heap (st default_main) !! q = Some b
                  /\ e = @label_text flat_screen (@anchor flat_screen initial_camera b))
         (List.filter is_DrawText evs2) (nodes solar_system).
Proof.
  apply (@X18_labels_are_drawn_at_fresh_anchors flat_screen solar_system fuel_default
           no_key default_main).
  - vm_compute. reflexivity.
  - vm_compute. lia.
  - reflexivity.
Defined.
